(** * A red-black tree with parent links (lib/rbtree.js)

  The JavaScript objects are modelled as cells of an object store: a node
  reference is a store address, [null] is [None], and reading a field of
  [null] raises a [TypeError].  Loops carry a fuel argument; running out of
  fuel is reported as [OutOfFuel] and is distinct from every outcome the
  program itself can produce. *)

From Stdlib Require Import ZArith Lia.
From stdpp Require Import gmap list sorting.

Set Default Proof Using "Type".
Local Open Scope Z_scope.

(** ** Data model *)

(** [RBTREE_COLOR_RED = 0], [RBTREE_COLOR_BLACK = 1]. *)
Inductive color : Set := RBTREE_COLOR_RED | RBTREE_COLOR_BLACK.
Abbreviation Red := RBTREE_COLOR_RED.
Abbreviation Black := RBTREE_COLOR_BLACK.

Global Instance color_eq_dec : EqDecision color.
Proof. solve_decision. Defined.

(** A reference to a node object, and a possibly-null reference. *)
Definition ref := nat.
Definition ptr := option ref.

Definition ptr_eq (a b : ptr) : bool := bool_decide (a = b).

(** The fields set by [function RBTreeNode(parent, key, value)]. *)
Record RBTreeNode (K V : Type) : Type := mkNode {
_parent : ptr;
_left : ptr;
_right : ptr;
_color : color;
_key : K;
_value : V
}.
Arguments mkNode {K V}.
Arguments _parent {K V}.
Arguments _left {K V}.
Arguments _right {K V}.
Arguments _color {K V}.
Arguments _key {K V}.
Arguments _value {K V}.

(** The tree object's [_root] field together with the store of node
  objects its links point into. *)
Record RBTree (K V : Type) : Type := mkTree {
_root : ptr;
nodes : gmap ref (RBTreeNode K V)
}.
Arguments mkTree {K V}.
Arguments _root {K V}.
Arguments nodes {K V}.

(** ** Outcomes and the state monad *)

Inductive outcome (S A : Type) : Type :=
| Ret (a : A) (s : S)
| TypeError
| AssertionError
| OutOfFuel.
Arguments Ret {S A}.
Arguments TypeError {S A}.
Arguments AssertionError {S A}.
Arguments OutOfFuel {S A}.

Definition M (K V A : Type) : Type := RBTree K V → outcome (RBTree K V) A.

Definition ret {K V A} (a : A) : M K V A := λ s, Ret a s.

Definition bind {K V A B} (m : M K V A) (f : A → M K V B) : M K V B :=
λ s, match m s with
     | Ret a s' => f a s'
     | TypeError => TypeError
     | AssertionError => AssertionError
     | OutOfFuel => OutOfFuel
     end.

Declare Scope rb_scope.
Delimit Scope rb_scope with rb.
Notation "'let*' x := m 'in' k" := (bind m (λ x, k))
  (at level 10, x pattern, m at level 100, k at level 200) : rb_scope.
Notation "m ;; k" := (bind m (λ _, k))
  (at level 100, k at level 200, right associativity) : rb_scope.
Local Open Scope rb_scope.

Section Store.
Context {K V : Type}.
Abbreviation M := (M K V).
Abbreviation RBTreeNode := (RBTreeNode K V).

Definition throw {A} : M A := λ _, TypeError.
Definition timeout {A} : M A := λ _, OutOfFuel.

(** [p.f]: reading a field; [null.f] throws. *)
Definition field {A} (f : RBTreeNode → A) (p : ptr) : M A := λ s,
  match p with
  | None => TypeError
  | Some x =>
      match nodes s !! x with
      | Some n => Ret (f n) s
      | None => TypeError
      end
  end.

(** [p.f = v]: writing a field; on [null] it throws. *)
Definition update (p : ptr) (f : RBTreeNode → RBTreeNode) : M unit := λ s,
  match p with
  | None => TypeError
  | Some x =>
      match nodes s !! x with
      | Some n => Ret tt (mkTree (_root s) (<[x := f n]> (nodes s)))
      | None => TypeError
      end
  end.

Definition with_parent (v : ptr) (n : RBTreeNode) : RBTreeNode :=
  mkNode v (_left n) (_right n) (_color n) (_key n) (_value n).
Definition with_left (v : ptr) (n : RBTreeNode) : RBTreeNode :=
  mkNode (_parent n) v (_right n) (_color n) (_key n) (_value n).
Definition with_right (v : ptr) (n : RBTreeNode) : RBTreeNode :=
  mkNode (_parent n) (_left n) v (_color n) (_key n) (_value n).
Definition with_color (v : color) (n : RBTreeNode) : RBTreeNode :=
  mkNode (_parent n) (_left n) (_right n) v (_key n) (_value n).
Definition with_value (v : V) (n : RBTreeNode) : RBTreeNode :=
  mkNode (_parent n) (_left n) (_right n) (_color n) (_key n) v.

Definition set_parent (p v : ptr) : M unit := update p (with_parent v).
Definition set_left (p v : ptr) : M unit := update p (with_left v).
Definition set_right (p v : ptr) : M unit := update p (with_right v).
Definition set_color (p : ptr) (v : color) : M unit := update p (with_color v).
Definition set_value (p : ptr) (v : V) : M unit := update p (with_value v).

(** [this._root] and [this._root = v]. *)
Definition get_root : M ptr := λ s, Ret (_root s) s.
Definition set_root (v : ptr) : M unit := λ s, Ret tt (mkTree v (nodes s)).

(** [new RBTreeNode(parent, key, value)]: a fresh cell, red, no children. *)
Definition new_node (parent : ptr) (key : K) (value : V) : M ptr := λ s,
  let x := fresh (dom (nodes s)) in
  Ret (Some x)
      (mkTree (_root s) (<[x := mkNode parent None None Red key value]> (nodes s))).

(** [assert.strictEqual(a, b)]. *)
Definition assert_strictEqual {A} `{EqDecision A} (a b : A) : M unit := λ s,
  if decide (a = b) then Ret tt s else AssertionError.

(** [p !== null && p._color === RBTREE_COLOR_RED]. *)
Definition nonnull_and_red (p : ptr) : M bool :=
  match p with
  | None => ret false
  | Some _ => let* c := field _color p in ret (bool_decide (c = Red))
  end.

(** [p === null || p._color === RBTREE_COLOR_BLACK]. *)
Definition null_or_black (p : ptr) : M bool :=
  match p with
  | None => ret true
  | Some _ => let* c := field _color p in ret (bool_decide (c = Black))
  end.
End Store.

(** ** RBTreeNode.prototype *)

Module RBTreeNode.
Section Node.
Context {K V : Type}.
Abbreviation M := (M K V).

(** [while (node._left !== null) node = node._left; return node] *)
Fixpoint descend_left (fuel : nat) (node : ptr) : M ptr :=
  match fuel with
  | O => timeout
  | S fuel =>
      let* l := field _left node in
      match l with
      | Some _ => let* node := field _left node in descend_left fuel node
      | None => ret node
      end
  end.

(** [while (node._right !== null) node = node._right; return node] *)
Fixpoint descend_right (fuel : nat) (node : ptr) : M ptr :=
  match fuel with
  | O => timeout
  | S fuel =>
      let* r := field _right node in
      match r with
      | Some _ => let* node := field _right node in descend_right fuel node
      | None => ret node
      end
  end.

(** [while (parent !== null && parent._right === node)
      { node = parent; parent = node._parent; }  return parent] *)
Fixpoint climb_right (fuel : nat) (node parent : ptr) : M ptr :=
  match fuel with
  | O => timeout
  | S fuel =>
      match parent with
      | None => ret parent
      | Some _ =>
          let* r := field _right parent in
          if ptr_eq r node then
            let node := parent in
            let* parent := field _parent node in
            climb_right fuel node parent
          else ret parent
      end
  end.

Fixpoint climb_left (fuel : nat) (node parent : ptr) : M ptr :=
  match fuel with
  | O => timeout
  | S fuel =>
      match parent with
      | None => ret parent
      | Some _ =>
          let* l := field _left parent in
          if ptr_eq l node then
            let node := parent in
            let* parent := field _parent node in
            climb_left fuel node parent
          else ret parent
      end
  end.

(** The [succ] getter. *)
Definition succ (fuel : nat) (this : ptr) : M ptr :=
  let* node := field _right this in
  match node with
  | Some _ => descend_left fuel node
  | None =>
      let node := this in
      let* parent := field _parent node in
      climb_right fuel node parent
  end.

(** The [pred] getter. *)
Definition pred (fuel : nat) (this : ptr) : M ptr :=
  let* node := field _left this in
  match node with
  | Some _ => descend_right fuel node
  | None =>
      let node := this in
      let* parent := field _parent node in
      climb_left fuel node parent
  end.

(** The [key] and [value] getters. *)
Definition key (this : ptr) : M K := field _key this.
Definition value (this : ptr) : M V := field _value this.

(** [RBTreeNode.prototype.validate]; fuel bounds the recursion depth. *)
Fixpoint validate (fuel : nat) (this : ptr) : M Z :=
  match fuel with
  | O => timeout
  | S fuel =>
      let* left_ := field _left this in
      let leftCount := 1 in
      match left_ with
      | Some _ =>
          let* c := field _color this in
          (if bool_decide (c = Red) then
             let* lc := field _color left_ in assert_strictEqual lc Black
           else ret tt) ;;
          let* _ := validate fuel left_ in ret tt
      | None => ret tt
      end ;;
      let* right_ := field _right this in
      let rightCount := 1 in
      match right_ with
      | Some _ =>
          let* c := field _color this in
          (if bool_decide (c = Red) then
             let* lc := field _color left_ in assert_strictEqual lc Black
           else ret tt) ;;
          let* _ := validate fuel right_ in ret tt
      | None => ret tt
      end ;;
      assert_strictEqual leftCount rightCount ;;
      let count := leftCount in
      let* c := field _color this in
      ret (if bool_decide (c = Black) then count + 1 else count)
  end.
End Node.
End RBTreeNode.

(** ** RBTree.prototype *)

(** How one pass through a loop body leaves it. *)
Inductive insert_exit : Type :=
| Returned (node : ptr)
| Broke (node : ptr).

Inductive flow (A : Type) : Type :=
| FallThrough (a : A)
| Break
| Continue (node parent : ptr).
Arguments FallThrough {A}.
Arguments Break {A}.
Arguments Continue {A}.

Module RBTree.
Section Tree.
Context {K V : Type}.
Variable compare : K → K → Z.
Abbreviation M := (M K V).

(** [new RBTree(compare)]. *)
Definition new : RBTree K V := mkTree None ∅.

(** The [empty] getter. *)
Definition empty : M bool :=
  let* root := get_root in ret (ptr_eq root None).

(** The [min] getter. *)
Definition min (fuel : nat) : M ptr :=
  let* node := get_root in
  match node with
  | Some _ => RBTreeNode.descend_left fuel node
  | None => ret node
  end.

(** The [max] getter. *)
Definition max (fuel : nat) : M ptr :=
  let* node := get_root in
  match node with
  | Some _ => RBTreeNode.descend_right fuel node
  | None => ret node
  end.

Fixpoint find_loop (fuel : nat) (key : K) (node : ptr) : M ptr :=
  match fuel with
  | O => timeout
  | S fuel =>
      match node with
      | None => ret node
      | Some _ =>
          let* k := field _key node in
          let result := compare key k in
          if result =? 0 then ret node
          else if result <? 0 then
            let* node := field _left node in find_loop fuel key node
          else
            let* node := field _right node in find_loop fuel key node
      end
  end.

Definition find (fuel : nat) (key : K) : M ptr :=
  let* node := get_root in find_loop fuel key node.

Fixpoint lower_loop (fuel : nat) (key : K) (node : ptr) : M ptr :=
  match fuel with
  | O => timeout
  | S fuel =>
      let* k := field _key node in
      let result := compare key k in
      if result =? 0 then ret node
      else if result <? 0 then
        let* left_ := field _left node in
        match left_ with
        | None => RBTreeNode.pred fuel node
        | Some _ => let node := left_ in lower_loop fuel key node
        end
      else
        let* right_ := field _right node in
        match right_ with
        | None => ret node
        | Some _ => let node := right_ in lower_loop fuel key node
        end
  end.

Definition lower (fuel : nat) (key : K) : M ptr :=
  let* node := get_root in
  match node with
  | None => ret None
  | Some _ => lower_loop fuel key node
  end.

Fixpoint upper_loop (fuel : nat) (key : K) (node : ptr) : M ptr :=
  match fuel with
  | O => timeout
  | S fuel =>
      let* k := field _key node in
      let result := compare key k in
      if result =? 0 then ret node
      else if result <? 0 then
        let* left_ := field _left node in
        match left_ with
        | None => ret node
        | Some _ => let node := left_ in upper_loop fuel key node
        end
      else
        let* right_ := field _right node in
        match right_ with
        | None => RBTreeNode.succ fuel node
        | Some _ => let node := right_ in upper_loop fuel key node
        end
  end.

Definition upper (fuel : nat) (key : K) : M ptr :=
  let* node := get_root in
  match node with
  | None => ret None
  | Some _ => upper_loop fuel key node
  end.

Definition _replaceNode (node replacement : ptr) : M unit :=
  let* parent := field _parent node in
  match parent with
  | None => set_root replacement
  | Some _ =>
      let* l := field _left parent in
      if ptr_eq l node then set_left parent replacement
      else set_right parent replacement
  end.

Definition _rotateLeft (node : ptr) : M unit :=
  let* pivot := field _right node in
  let* pl := field _left pivot in
  set_right node pl ;;
  let* nr := field _right node in
  match nr with
  | Some _ => let* nr := field _right node in set_parent nr node
  | None => ret tt
  end ;;
  _replaceNode node pivot ;;
  let* np := field _parent node in
  set_parent pivot np ;;
  set_left pivot node ;;
  set_parent node pivot.

Definition _rotateRight (node : ptr) : M unit :=
  let* pivot := field _left node in
  let* pr := field _right pivot in
  set_left node pr ;;
  let* nl := field _left node in
  match nl with
  | Some _ => let* nl := field _left node in set_parent nl node
  | None => ret tt
  end ;;
  _replaceNode node pivot ;;
  let* np := field _parent node in
  set_parent pivot np ;;
  set_right pivot node ;;
  set_parent node pivot.

Fixpoint _fixupInsert (fuel : nat) (node : ptr) : M unit :=
  match fuel with
  | O => timeout
  | S fuel =>
      let* parent := field _parent node in
      match parent with
      | None => set_color node Black
      | Some _ =>
          let* pc := field _color parent in
          if bool_decide (pc = Black) then ret tt
          else
            let* grandparent := field _parent parent in
            let* gl := field _left grandparent in
            if ptr_eq parent gl then
              let* uncle := field _right grandparent in
              let* red := nonnull_and_red uncle in
              if red then
                set_color parent Black ;;
                set_color uncle Black ;;
                set_color grandparent Red ;;
                let node := grandparent in
                _fixupInsert fuel node
              else
                let* pr := field _right parent in
                let* (node, parent, grandparent) :=
                  if ptr_eq node pr then
                    _rotateLeft parent ;;
                    let node := parent in
                    let* parent := field _parent node in
                    let* grandparent := field _parent parent in
                    ret (node, parent, grandparent)
                  else ret (node, parent, grandparent) in
                set_color parent Black ;;
                set_color grandparent Red ;;
                _rotateRight grandparent
            else
              let* uncle := field _left grandparent in
              let* red := nonnull_and_red uncle in
              if red then
                set_color parent Black ;;
                set_color uncle Black ;;
                set_color grandparent Red ;;
                let node := grandparent in
                _fixupInsert fuel node
              else
                let* pl := field _left parent in
                let* (node, parent, grandparent) :=
                  if ptr_eq node pl then
                    _rotateRight parent ;;
                    let node := parent in
                    let* parent := field _parent node in
                    let* grandparent := field _parent parent in
                    ret (node, parent, grandparent)
                  else ret (node, parent, grandparent) in
                set_color parent Black ;;
                set_color grandparent Red ;;
                _rotateLeft grandparent
      end
  end.

Fixpoint _fixupRemove_loop (fuel : nat) (node parent : ptr) : M unit :=
  match fuel with
  | O => timeout
  | S fuel =>
      match parent with
      | None => ret tt
      | Some _ =>
          let* sibling := field _right parent in
          if negb (ptr_eq node sibling) then
            let* sc := field _color sibling in
            let* sibling :=
              if bool_decide (sc = Red) then
                set_color parent Red ;;
                set_color sibling Black ;;
                _rotateLeft parent ;;
                field _right parent
              else ret sibling in
            let* right_ := field _right sibling in
            let* rb := null_or_black right_ in
            let* fl :=
              if rb then
                let* left_ := field _left sibling in
                let* lb := null_or_black left_ in
                if lb then
                  set_color sibling Red ;;
                  let* pc := field _color parent in
                  if bool_decide (pc = Red) then
                    set_color parent Black ;; ret Break
                  else
                    let node := parent in
                    let* parent := field _parent node in
                    ret (Continue node parent)
                else
                  set_color sibling Red ;;
                  set_color left_ Black ;;
                  _rotateRight sibling ;;
                  let* sibling := field _right parent in
                  let* right_ := field _right sibling in
                  ret (FallThrough (sibling, right_))
              else ret (FallThrough (sibling, right_)) in
            match fl with
            | Break => ret tt
            | Continue node parent => _fixupRemove_loop fuel node parent
            | FallThrough (sibling, right_) =>
                let* pc := field _color parent in
                set_color sibling pc ;;
                set_color parent Black ;;
                set_color right_ Black ;;
                _rotateLeft parent
            end
          else
            let* sibling := field _left parent in
            let* sc := field _color sibling in
            let* sibling :=
              if bool_decide (sc = Red) then
                set_color parent Red ;;
                set_color sibling Black ;;
                _rotateRight parent ;;
                field _left parent
              else ret sibling in
            let* left_ := field _left sibling in
            let* lb := null_or_black left_ in
            let* fl :=
              if lb then
                let* right_ := field _right sibling in
                let* rb := null_or_black right_ in
                if rb then
                  set_color sibling Red ;;
                  let* pc := field _color parent in
                  if bool_decide (pc = Red) then
                    set_color parent Black ;; ret Break
                  else
                    let node := parent in
                    let* parent := field _parent node in
                    ret (Continue node parent)
                else
                  set_color sibling Red ;;
                  set_color right_ Black ;;
                  _rotateLeft sibling ;;
                  let* sibling := field _left parent in
                  let* left_ := field _left sibling in
                  ret (FallThrough (sibling, left_))
              else ret (FallThrough (sibling, left_)) in
            match fl with
            | Break => ret tt
            | Continue node parent => _fixupRemove_loop fuel node parent
            | FallThrough (sibling, left_) =>
                let* pc := field _color parent in
                set_color sibling pc ;;
                set_color parent Black ;;
                set_color left_ Black ;;
                _rotateRight parent
            end
      end
  end.

Definition _fixupRemove (fuel : nat) (parent : ptr) : M unit :=
  let node : ptr := None in
  _fixupRemove_loop fuel node parent.

Fixpoint insert_loop (fuel : nat) (key : K) (value : V) (node : ptr) : M insert_exit :=
  match fuel with
  | O => timeout
  | S fuel =>
      let* k := field _key node in
      let result := compare key k in
      if result =? 0 then
        set_value node value ;; ret (Returned node)
      else
        let parent := node in
        if result <? 0 then
          let* node := field _left node in
          match node with
          | None =>
              let* node := new_node parent key value in
              set_left parent node ;; ret (Broke node)
          | Some _ => insert_loop fuel key value node
          end
        else
          let* node := field _right node in
          match node with
          | None =>
              let* node := new_node parent key value in
              set_right parent node ;; ret (Broke node)
          | Some _ => insert_loop fuel key value node
          end
  end.

Definition insert (fuel : nat) (key : K) (value : V) : M ptr :=
  let* node := get_root in
  let* ex :=
    match node with
    | None =>
        let* node := new_node None key value in
        set_root node ;; ret (Broke node)
    | Some _ => insert_loop fuel key value node
    end in
  match ex with
  | Returned node => ret node
  | Broke node => _fixupInsert fuel node ;; ret node
  end.

(** [do { parent = succ; succ = succ._left; } while (succ._left !== null)] *)
Fixpoint remove_descend (fuel : nat) (parent succ : ptr) : M (ptr * ptr) :=
  match fuel with
  | O => timeout
  | S fuel =>
      let parent := succ in
      let* succ := field _left succ in
      let* sl := field _left succ in
      match sl with
      | Some _ => remove_descend fuel parent succ
      | None => ret (parent, succ)
      end
  end.

Definition remove (fuel : nat) (node : ptr) : M unit :=
  let rebalance : ptr := None in
  let* nl := field _left node in
  let* rebalance :=
    match nl with
    | None =>
        let* right_ := field _right node in
        _replaceNode node right_ ;;
        match right_ with
        | Some _ =>
            let* np := field _parent node in
            set_parent right_ np ;;
            set_color right_ Black ;;
            ret rebalance
        | None =>
            let* c := field _color node in
            if bool_decide (c = Black) then
              let* np := field _parent node in ret np
            else ret rebalance
        end
    | Some _ =>
        let* nr := field _right node in
        match nr with
        | None =>
            let* left_ := field _left node in
            _replaceNode node left_ ;;
            let* np := field _parent node in
            set_parent left_ np ;;
            set_color left_ Black ;;
            ret rebalance
        | Some _ =>
            let* succ := field _right node in
            let parent := succ in
            let* right_ := field _right succ in
            let* sl := field _left succ in
            let* (parent, succ, right_) :=
              match sl with
              | Some _ =>
                  let* (parent, succ) := remove_descend fuel parent succ in
                  let* right_ := field _right succ in
                  set_left parent right_ ;;
                  let* nr := field _right node in
                  set_right succ nr ;;
                  let* nr := field _right node in
                  set_parent nr succ ;;
                  ret (parent, succ, right_)
              | None => ret (parent, succ, right_)
              end in
            let* rebalance :=
              match right_ with
              | Some _ =>
                  set_parent right_ parent ;;
                  set_color right_ Black ;;
                  ret rebalance
              | None =>
                  let* sc := field _color succ in
                  if bool_decide (sc = Black) then ret parent
                  else ret rebalance
              end in
            _replaceNode node succ ;;
            let* np := field _parent node in
            set_parent succ np ;;
            let* nc := field _color node in
            set_color succ nc ;;
            let* nl := field _left node in
            set_left succ nl ;;
            let* nl := field _left node in
            set_parent nl succ ;;
            ret rebalance
        end
    end in
  match rebalance with
  | Some _ => _fixupRemove fuel rebalance
  | None => ret tt
  end.

Definition swap (node1 node2 : ptr) : M unit :=
  if ptr_eq node1 node2 then ret tt
  else
    let* p1 := field _parent node1 in
    let* p2 := field _parent node2 in
    (if ptr_eq p1 p2 then
       let* parent := field _parent node1 in
       let* pl := field _left parent in
       if ptr_eq pl node1 then
         set_left parent node2 ;; set_right parent node1
       else
         set_right parent node2 ;; set_left parent node1
     else
       _replaceNode node2 node1 ;; _replaceNode node1 node2) ;;
    let* parent := field _parent node1 in
    let* p2 := field _parent node2 in
    set_parent node1 p2 ;;
    set_parent node2 parent ;;
    let* left_ := field _left node1 in
    let* l2 := field _left node2 in
    set_left node1 l2 ;;
    let* l1 := field _left node1 in
    match l1 with
    | Some _ => let* l1 := field _left node1 in set_parent l1 node1
    | None => ret tt
    end ;;
    set_left node2 left_ ;;
    let* l2 := field _left node2 in
    match l2 with
    | Some _ => let* l2 := field _left node2 in set_parent l2 node2
    | None => ret tt
    end ;;
    let* right_ := field _right node1 in
    let* r2 := field _right node2 in
    set_right node1 r2 ;;
    let* r1 := field _right node1 in
    match r1 with
    | Some _ => let* r1 := field _right node1 in set_parent r1 node1
    | None => ret tt
    end ;;
    set_right node2 right_ ;;
    let* r2 := field _right node2 in
    match r2 with
    | Some _ => let* r2 := field _right node2 in set_parent r2 node2
    | None => ret tt
    end ;;
    let* color := field _color node1 in
    let* c2 := field _color node2 in
    set_color node1 c2 ;;
    set_color node2 color.

Fixpoint reverse (fuel : nat) (first last : ptr) : M unit :=
  match fuel with
  | O => timeout
  | S fuel =>
      if ptr_eq first last then ret tt
      else
        let* succ := RBTreeNode.succ fuel first in
        let* pred := RBTreeNode.pred fuel last in
        swap first last ;;
        let last := pred in
        if ptr_eq first last then ret tt
        else
          let first := succ in
          reverse fuel first last
  end.

(** [RBTree.prototype.validate]. *)
Definition validate (fuel : nat) : M unit :=
  let* root := get_root in
  match root with
  | Some _ =>
      let* c := field _color root in
      assert_strictEqual c Black ;;
      let* _ := RBTreeNode.validate fuel root in ret tt
  | None => ret tt
  end.

End Tree.
End RBTree.

(** * Abstract trees and what it means for a store to hold one *)

(** The shape the links are meant to describe: node references with their
    colours, arranged as a binary tree. *)
Inductive tree : Type :=
| E
| T (c : color) (l : tree) (x : ref) (r : tree).

Definition root_of (t : tree) : ptr :=
  match t with E => None | T _ _ x _ => Some x end.

Definition color_of (t : tree) : color :=
  match t with E => Black | T c _ _ _ => c end.

Fixpoint inorder (t : tree) : list ref :=
  match t with
  | E => []
  | T _ l x r => inorder l ++ x :: inorder r
  end.

(** A position in a tree: the frames from a hole up to the root, innermost
    first.  Each frame records on which side of its node the hole lies and
    the subtree hanging on the other side. *)
Inductive dir : Set := L | R.

Record frame : Type := Frame {
  fdir : dir;
  fcolor : color;
  fid : ref;
  fsib : tree
}.

Definition fill (f : frame) (t : tree) : tree :=
  match fdir f with
  | L => T (fcolor f) t (fid f) (fsib f)
  | R => T (fcolor f) (fsib f) (fid f) t
  end.

Fixpoint plug (ctx : list frame) (t : tree) : tree :=
  match ctx with
  | [] => t
  | f :: ctx => plug ctx (fill f t)
  end.

(** References before and after the hole, in in-order sequence. *)
Fixpoint ctx_before (ctx : list frame) : list ref :=
  match ctx with
  | [] => []
  | f :: ctx =>
      match fdir f with
      | L => ctx_before ctx
      | R => ctx_before ctx ++ inorder (fsib f) ++ [fid f]
      end
  end.

Fixpoint ctx_after (ctx : list frame) : list ref :=
  match ctx with
  | [] => []
  | f :: ctx =>
      match fdir f with
      | L => fid f :: inorder (fsib f) ++ ctx_after ctx
      | R => ctx_after ctx
      end
  end.

Lemma inorder_plug ctx t :
  inorder (plug ctx t) = ctx_before ctx ++ inorder t ++ ctx_after ctx.
Proof.
  revert t. induction ctx as [|[[] c x sib] ctx IH]; intros t; simpl.
  - by rewrite app_nil_r.
  - rewrite IH. simpl. by rewrite <- ?app_assoc.
  - rewrite IH. simpl. by rewrite <- ?app_assoc.
Qed.

Lemma plug_app c1 c2 t : plug (c1 ++ c2) t = plug c2 (plug c1 t).
Proof. revert t. induction c1; simpl; auto. Qed.

Lemma root_of_plug_cons f ctx t : root_of (plug (f :: ctx) t) = root_of (plug (f :: ctx) E).
Proof.
  revert f t. induction ctx as [|g ctx IH]; intros f t.
  - by destruct f as [[] ? ? ?].
  - change (plug (f :: g :: ctx) t) with (plug (g :: ctx) (fill f t)).
    change (plug (f :: g :: ctx) E) with (plug (g :: ctx) (fill f E)).
    by rewrite (IH g (fill f t)), (IH g (fill f E)).
Qed.

(** Every node of a tree sits at some position. *)
Lemma in_inorder_plug t x :
  x ∈ inorder t → ∃ ctx c l r, t = plug ctx (T c l x r).
Proof.
  induction t as [|c l IHl y r IHr]; simpl.
  - intros H. by apply elem_of_nil in H.
  - rewrite elem_of_app, elem_of_cons. intros [H|[->|H]].
    + destruct (IHl H) as (ctx & c' & l' & r' & ->).
      exists (ctx ++ [Frame L c y r]), c', l', r'. by rewrite plug_app.
    + by exists [], c, l, r.
    + destruct (IHr H) as (ctx & c' & l' & r' & ->).
      exists (ctx ++ [Frame R c y l]), c', l', r'. by rewrite plug_app.
Qed.

(** Counting occurrences turns distinctness side conditions into linear
    arithmetic. *)
Fixpoint occ (x : ref) (l : list ref) : nat :=
  match l with
  | [] => 0
  | y :: l => (if decide (y = x) then 1 else 0) + occ x l
  end%nat.

Lemma occ_app x l1 l2 : occ x (l1 ++ l2) = (occ x l1 + occ x l2)%nat.
Proof. induction l1; simpl; lia. Qed.

Lemma occ_cons_eq x l : occ x (x :: l) = S (occ x l).
Proof. simpl. by rewrite decide_True. Qed.

Lemma occ_nil x : occ x [] = 0%nat.
Proof. done. Qed.

Lemma occ_cons x y l : occ x (y :: l) = ((if decide (y = x) then 1 else 0) + occ x l)%nat.
Proof. done. Qed.

Lemma occ_elem x l : x ∈ l → (1 ≤ occ x l)%nat.
Proof.
  induction 1 as [|? ? ? ? IH]; simpl.
  - rewrite decide_True by done. lia.
  - lia.
Qed.

Lemma occ_pos_elem x l : (1 ≤ occ x l)%nat → x ∈ l.
Proof.
  induction l as [|y l IH]; simpl; [lia|].
  destruct (decide (y = x)) as [->|]; [left|right; apply IH; lia].
Qed.

Lemma occ_NoDup x l : NoDup l → (occ x l ≤ 1)%nat.
Proof.
  induction 1 as [|y l Hy Hl IH]; simpl; [lia|].
  destruct (decide (y = x)) as [->|]; [|lia].
  destruct (decide (1 ≤ occ x l)%nat) as [Hp|]; [|lia].
  by apply occ_pos_elem in Hp.
Qed.

Lemma NoDup_occ l : (∀ x, occ x l ≤ 1)%nat → NoDup l.
Proof.
  induction l as [|y l IH]; intros H; constructor.
  - intros Hy. apply occ_elem in Hy. specialize (H y). simpl in H.
    rewrite decide_True in H by done. lia.
  - apply IH. intros x. specialize (H x). simpl in H. lia.
Qed.

Lemma root_of_occ t x : root_of t = Some x → (1 ≤ occ x (inorder t))%nat.
Proof.
  destruct t; simpl; [done|]. intros [= ->].
  rewrite occ_app, occ_cons_eq. lia.
Qed.


(** ** Stores that hold a tree *)

Definition flip (d : dir) : dir := match d with L => R | R => L end.

Definition child {K V} (d : dir) (n : RBTreeNode K V) : ptr :=
  match d with L => _left n | R => _right n end.

(** [rep h par t]: in store [h] the cells of [t]'s nodes carry exactly the
    links and colours that [t] prescribes, the root's parent being [par]. *)
Fixpoint rep {K V} (h : gmap ref (RBTreeNode K V)) (par : ptr) (t : tree) : Prop :=
  match t with
  | E => True
  | T c l x r =>
      ∃ n, h !! x = Some n ∧ _parent n = par ∧ _left n = root_of l ∧
           _right n = root_of r ∧ _color n = c ∧
           rep h (Some x) l ∧ rep h (Some x) r
  end.

(** The parent of whatever fills the hole; [top] is the parent of the
    outermost frame's node. *)
Definition ctx_par (top : ptr) (ctx : list frame) : ptr :=
  match ctx with [] => top | f :: _ => Some (fid f) end.

(** The same for the frames around a hole whose link currently holds [p]. *)
Fixpoint repctx {K V} (h : gmap ref (RBTreeNode K V)) (top : ptr)
    (ctx : list frame) (p : ptr) : Prop :=
  match ctx with
  | [] => True
  | f :: ctx' =>
      ∃ n, h !! fid f = Some n ∧ _parent n = ctx_par top ctx' ∧
           child (fdir f) n = p ∧ child (flip (fdir f)) n = root_of (fsib f) ∧
           _color n = fcolor f ∧
           rep h (Some (fid f)) (fsib f) ∧ repctx h top ctx' (Some (fid f))
  end.

Fixpoint ctx_root (ctx : list frame) (p : ptr) : ptr :=
  match ctx with [] => p | f :: ctx => ctx_root ctx (Some (fid f)) end.

(** [holds s t]: the tree object [s] is well formed and its shape is [t]. *)
Definition holds {K V} (s : RBTree K V) (t : tree) : Prop :=
  _root s = root_of t ∧ rep (nodes s) None t ∧ NoDup (inorder t).

Definition key_of {K V} (s : RBTree K V) (x : ref) : option K := _key <$> nodes s !! x.
Definition value_of {K V} (s : RBTree K V) (x : ref) : option V := _value <$> nodes s !! x.

(** Keys never change, and only [insert] changes a value. *)
Definition keys_kept {K V} (s s' : RBTree K V) : Prop :=
  ∀ x k, key_of s x = Some k → key_of s' x = Some k.
Definition values_kept {K V} (s s' : RBTree K V) : Prop :=
  ∀ x v, value_of s x = Some v → value_of s' x = Some v.

(** Outcomes ordered by definedness: more fuel never changes a result. *)
Definition le_out {S A} (r r' : outcome S A) : Prop :=
  r = OutOfFuel ∨ r' = r.
Definition le_M {K V A} (m m' : M K V A) : Prop := ∀ s, le_out (m s) (m' s).

Section Rep.
Context {K V : Type}.
Implicit Types (h : gmap ref (RBTreeNode K V)) (s : RBTree K V).
Implicit Types (t l r : tree) (ctx : list frame) (x : ref) (p par : ptr).

Lemma root_of_plug ctx t : root_of (plug ctx t) = ctx_root ctx (root_of t).
Proof.
  revert t. induction ctx as [|f ctx IH]; intros t; [done|].
  simpl. rewrite IH. by destruct f as [[] ? ? ?].
Qed.

Lemma rep_fill h f par t :
  rep h par (fill f t) ↔
  ∃ n, h !! fid f = Some n ∧ _parent n = par ∧
       child (fdir f) n = root_of t ∧ child (flip (fdir f)) n = root_of (fsib f) ∧
       _color n = fcolor f ∧
       rep h (Some (fid f)) (fsib f) ∧ rep h (Some (fid f)) t.
Proof.
  destruct f as [[] c x sib]; unfold fill; simpl; split;
    intros (n & ? & ? & ? & ? & ? & ? & ?); exists n; tauto.
Qed.

Lemma rep_plug h top ctx t :
  rep h top (plug ctx t) ↔ rep h (ctx_par top ctx) t ∧ repctx h top ctx (root_of t).
Proof.
  revert t. induction ctx as [|f ctx IH]; intros t; simpl; [tauto|].
  rewrite IH, rep_fill.
  replace (root_of (fill f t)) with (Some (fid f)) by by destruct f as [[] ? ? ?].
  split.
  - intros ((n & ? & ? & ? & ? & ? & ? & ?) & ?). split; [done|]. exists n. tauto.
  - intros (? & (n & ? & ? & ? & ? & ? & ? & ?)). split; [|done]. exists n. tauto.
Qed.

Lemma rep_frame h h' par t :
  (∀ x, (1 ≤ occ x (inorder t))%nat → h' !! x = h !! x) → rep h par t → rep h' par t.
Proof.
  revert par. induction t as [|c l IHl y r IHr]; intros par Hag; simpl; [done|].
  intros (n & Hn & ? & ? & ? & ? & Hl & Hr). exists n.
  split; [rewrite Hag; [done|]; simpl; rewrite occ_app, occ_cons_eq; lia|].
  repeat split; try done.
  - apply IHl; [|done]. intros z Hz. apply Hag. simpl. rewrite occ_app. lia.
  - apply IHr; [|done]. intros z Hz. apply Hag. simpl. rewrite occ_app. simpl. lia.
Qed.

Lemma repctx_frame h h' top ctx p :
  (∀ x, (1 ≤ occ x (ctx_before ctx ++ ctx_after ctx))%nat → h' !! x = h !! x) →
  repctx h top ctx p → repctx h' top ctx p.
Proof.
  revert p. induction ctx as [|[d c y sib] ctx IH]; intros p Hag; simpl; [done|].
  intros (n & Hn & ? & ? & ? & ? & Hs & Hc). exists n.
  split.
  { rewrite Hag; [done|]. destruct d; simpl; rewrite ?occ_app; simpl;
      rewrite ?occ_app, ?occ_cons_eq; simpl; rewrite ?decide_True by done; lia. }
  repeat split; try done.
  - eapply rep_frame; [|done]. intros z Hz. apply Hag.
    destruct d; simpl; rewrite ?occ_app; simpl; rewrite ?occ_app; lia.
  - apply IH; [|done]. intros z Hz. apply Hag. rewrite occ_app in Hz.
    destruct d; simpl; rewrite ?occ_app; simpl; rewrite ?occ_app; lia.
Qed.

(** What a well-formed store says about the node in focus. *)
Lemma holds_focus s ctx c l x r :
  holds s (plug ctx (T c l x r)) →
  ∃ n, nodes s !! x = Some n ∧ _parent n = ctx_par None ctx ∧
       _left n = root_of l ∧ _right n = root_of r ∧ _color n = c.
Proof.
  intros (_ & H & _). apply rep_plug in H as [(n & ? & ? & ? & ? & ? & _) _].
  exists n. tauto.
Qed.

Lemma field_Some {A} (f : RBTreeNode K V → A) s x n :
  nodes s !! x = Some n → field f (Some x) s = Ret (f n) s.
Proof. intros H. unfold field. by rewrite H. Qed.

Lemma field_parent_holds s ctx c l x r :
  holds s (plug ctx (T c l x r)) → field _parent (Some x) s = Ret (ctx_par None ctx) s.
Proof. intros (n & Hn & <- & _)%holds_focus. by apply field_Some. Qed.

Lemma field_left_holds s ctx c l x r :
  holds s (plug ctx (T c l x r)) → field _left (Some x) s = Ret (root_of l) s.
Proof. intros (n & Hn & _ & <- & _)%holds_focus. by apply field_Some. Qed.

Lemma field_right_holds s ctx c l x r :
  holds s (plug ctx (T c l x r)) → field _right (Some x) s = Ret (root_of r) s.
Proof. intros (n & Hn & _ & _ & <- & _)%holds_focus. by apply field_Some. Qed.

Lemma field_color_holds s ctx c l x r :
  holds s (plug ctx (T c l x r)) → field _color (Some x) s = Ret c s.
Proof. intros (n & Hn & _ & _ & _ & <-)%holds_focus. by apply field_Some. Qed.

Lemma bind_Ret {A B} (m : M K V A) (k : A → M K V B) s a s' :
  m s = Ret a s' → bind m k s = k a s'.
Proof. intros H. unfold bind. by rewrite H. Qed.

Lemma bind_inv {A B} (m : M K V A) (k : A → M K V B) s b s' :
  bind m k s = Ret b s' → ∃ a s1, m s = Ret a s1 ∧ k a s1 = Ret b s'.
Proof. unfold bind. destruct (m s) as [a s1| | |]; [eauto|done..]. Qed.

End Rep.

(** ** Symbolic execution over the store *)

(** [returns r Q]: the outcome [r] is a normal return whose value and final
    store satisfy [Q]. *)
Definition returns {S A} (r : outcome S A) (Q : A → S → Prop) : Prop :=
  ∃ a s, r = Ret a s ∧ Q a s.

Section Exec.
Context {K V : Type}.
Implicit Types (h : gmap ref (RBTreeNode K V)) (s : RBTree K V).
Implicit Types (t l r : tree) (ctx : list frame) (x : ref) (p par : ptr).

Lemma holds_plug_inv s ctx t :
  holds s (plug ctx t) →
  _root s = ctx_root ctx (root_of t) ∧ rep (nodes s) (ctx_par None ctx) t ∧
  repctx (nodes s) None ctx (root_of t) ∧
  NoDup (ctx_before ctx ++ inorder t ++ ctx_after ctx).
Proof.
  intros (Hr & H & HND). rewrite root_of_plug in Hr. rewrite inorder_plug in HND.
  apply rep_plug in H as [? ?]. done.
Qed.

Lemma holds_plug_intro s ctx t :
  _root s = ctx_root ctx (root_of t) → rep (nodes s) (ctx_par None ctx) t →
  repctx (nodes s) None ctx (root_of t) →
  NoDup (ctx_before ctx ++ inorder t ++ ctx_after ctx) →
  holds s (plug ctx t).
Proof.
  intros Hr H1 H2 HND. split; [by rewrite root_of_plug|].
  split; [by apply rep_plug|by rewrite inorder_plug].
Qed.

Lemma returns_Ret {A} (a : A) s (Q : A → RBTree K V → Prop) :
  Q a s → returns (Ret a s) Q.
Proof. intros. by exists a, s. Qed.

Lemma returns_mono {A} (r : outcome (RBTree K V) A) (Q Q' : A → RBTree K V → Prop) :
  returns r Q → (∀ a s, Q a s → Q' a s) → returns r Q'.
Proof. intros (a & s & -> & H) HQ. exists a, s. auto. Qed.

Lemma returns_bind {A B} (m : M K V A) (k : A → M K V B) s
    (Q : A → RBTree K V → Prop) (Q' : B → RBTree K V → Prop) :
  returns (m s) Q → (∀ a s1, Q a s1 → returns (k a s1) Q') →
  returns (bind m k s) Q'.
Proof.
  intros (a & s1 & E & H) HQ. unfold bind. rewrite E. by apply HQ.
Qed.

Lemma returns_inv {A} (r : outcome (RBTree K V) A) (Q : A → RBTree K V → Prop) a s :
  returns r Q → r = Ret a s → Q a s.
Proof. intros (a' & s' & -> & H) [= -> ->]. done. Qed.

Lemma field_step {A B} (f : RBTreeNode K V → A) x (k : A → M K V B) s n :
  nodes s !! x = Some n → bind (field f (Some x)) k s = k (f n) s.
Proof. intros H. unfold bind, field. by rewrite H. Qed.

Lemma update_step {B} x g (k : unit → M K V B) s n :
  nodes s !! x = Some n →
  bind (update (Some x) g) k s = k tt (mkTree (_root s) (<[x := g n]> (nodes s))).
Proof. intros H. unfold bind, update. by rewrite H. Qed.

Lemma update_Some x g s n :
  nodes s !! x = Some n →
  update (Some x) g s = Ret tt (mkTree (_root s) (<[x := g n]> (nodes s))).
Proof. intros H. unfold update. by rewrite H. Qed.

Lemma rep_T_inv h par c l x r :
  rep h par (T c l x r) →
  ∃ k v, h !! x = Some (mkNode par (root_of l) (root_of r) c k v) ∧
         rep h (Some x) l ∧ rep h (Some x) r.
Proof.
  simpl. intros ([? ? ? ? k v] & ? & ? & ? & ? & ? & ? & ?). simpl in *. subst.
  by exists k, v.
Qed.

Lemma rep_T_intro h par c l x r k v :
  h !! x = Some (mkNode par (root_of l) (root_of r) c k v) →
  rep h (Some x) l → rep h (Some x) r → rep h par (T c l x r).
Proof. intros. simpl. eexists. split; [done|]. simpl. done. Qed.

Lemma repctx_L_inv h top c x sib ctx p :
  repctx h top (Frame L c x sib :: ctx) p →
  ∃ k v, h !! x = Some (mkNode (ctx_par top ctx) p (root_of sib) c k v) ∧
         rep h (Some x) sib ∧ repctx h top ctx (Some x).
Proof.
  simpl. intros ([? ? ? ? k v] & ? & ? & ? & ? & ? & ? & ?). simpl in *. subst.
  by exists k, v.
Qed.

Lemma repctx_R_inv h top c x sib ctx p :
  repctx h top (Frame R c x sib :: ctx) p →
  ∃ k v, h !! x = Some (mkNode (ctx_par top ctx) (root_of sib) p c k v) ∧
         rep h (Some x) sib ∧ repctx h top ctx (Some x).
Proof.
  simpl. intros ([? ? ? ? k v] & ? & ? & ? & ? & ? & ? & ?). simpl in *. subst.
  by exists k, v.
Qed.

Lemma repctx_L_intro h top c x sib ctx p k v :
  h !! x = Some (mkNode (ctx_par top ctx) p (root_of sib) c k v) →
  rep h (Some x) sib → repctx h top ctx (Some x) →
  repctx h top (Frame L c x sib :: ctx) p.
Proof. intros. simpl. eexists. split; [done|]. simpl. done. Qed.

Lemma repctx_R_intro h top c x sib ctx p k v :
  h !! x = Some (mkNode (ctx_par top ctx) (root_of sib) p c k v) →
  rep h (Some x) sib → repctx h top ctx (Some x) →
  repctx h top (Frame R c x sib :: ctx) p.
Proof. intros. simpl. eexists. split; [done|]. simpl. done. Qed.

Lemma set_root_step {B} v (k : unit → M K V B) s :
  bind (set_root v) k s = k tt (mkTree v (nodes s)).
Proof. done. Qed.

Lemma new_node_step {B} p key value (k : ptr → M K V B) s :
  bind (new_node p key value) k s =
  k (Some (fresh (dom (nodes s))))
    (mkTree (_root s)
       (<[fresh (dom (nodes s)) := mkNode p None None Red key value]> (nodes s))).
Proof. done. Qed.

Lemma ret_step {A B} (a : A) (k : A → M K V B) s : bind (ret a) k s = k a s.
Proof. done. Qed.

Lemma get_root_step {B} (k : ptr → M K V B) s : bind get_root k s = k (_root s) s.
Proof. done. Qed.

Lemma bind_ret_r {A} (m : M K V A) s : m s = bind m ret s.
Proof. unfold bind, ret. by destruct (m s). Qed.

Lemma bind_assoc {A B C} (m : M K V A) (f : A → M K V B) (g : B → M K V C) s :
  bind (bind m f) g s = bind m (λ a, bind (f a) g) s.
Proof. unfold bind. by destruct (m s). Qed.

Lemma ptr_eq_refl p : ptr_eq p p = true.
Proof. unfold ptr_eq. by rewrite bool_decide_eq_true. Qed.

Lemma ptr_eq_Some_ne x y : x ≠ y → ptr_eq (Some x) (Some y) = false.
Proof. intros H. unfold ptr_eq. rewrite bool_decide_eq_false. congruence. Qed.

Lemma ptr_eq_root_ne t x : occ x (inorder t) = 0%nat → ptr_eq (root_of t) (Some x) = false.
Proof.
  intros H. destruct t as [|c l y r]; [done|]. simpl in *.
  apply ptr_eq_Some_ne. intros ->. rewrite occ_app, occ_cons_eq in H. lia.
Qed.

Lemma ptr_eq_ne_root t x : occ x (inorder t) = 0%nat → ptr_eq (Some x) (root_of t) = false.
Proof.
  intros H. destruct t as [|c l y r]; [done|]. simpl in *.
  apply ptr_eq_Some_ne. intros ->. rewrite occ_app, occ_cons_eq in H. lia.
Qed.

Lemma ptr_eq_None_Some x : ptr_eq None (Some x) = false.
Proof. done. Qed.

Lemma ptr_eq_Some_None x : ptr_eq (Some x) None = false.
Proof. done. Qed.

End Exec.

(** Normalising occurrence counts. *)
Ltac occ_norm_in H :=
  rewrite ?inorder_plug in H;
  cbn [inorder ctx_before ctx_after fdir fid fsib fcolor app] in H;
  rewrite ?inorder_plug in H;
  cbn [inorder ctx_before ctx_after fdir fid fsib fcolor app] in H;
  repeat first
    [ rewrite occ_app in H
    | rewrite occ_cons_eq in H
    | rewrite occ_cons in H
    | rewrite occ_nil in H ].

Ltac occ_norm :=
  rewrite ?inorder_plug;
  cbn [inorder ctx_before ctx_after fdir fid fsib fcolor app];
  rewrite ?inorder_plug;
  cbn [inorder ctx_before ctx_after fdir fid fsib fcolor app];
  repeat first
    [ rewrite occ_app
    | rewrite occ_cons_eq
    | rewrite occ_cons
    | rewrite occ_nil ].

(** All distinctness facts come from one [NoDup] hypothesis about the
    in-order sequence; membership facts are kept as [1 ≤ occ z l].  The
    hypothesis is turned once into a bound on the occurrences of an arbitrary
    reference, which [lia] then instantiates. *)
Ltac occ_init :=
  lazymatch goal with
  | HND : NoDup ?l |- _ =>
      let Hocc := fresh "Hocc" in
      rewrite ?inorder_plug in HND;
      cbn [inorder ctx_before ctx_after fdir fid fsib fcolor app] in HND;
      rewrite ?inorder_plug in HND;
      cbn [inorder ctx_before ctx_after fdir fid fsib fcolor app] in HND;
      lazymatch type of HND with
      | NoDup ?l' => pose proof (λ z, occ_NoDup z l' HND) as Hocc
      end;
      repeat first
        [ setoid_rewrite occ_app in Hocc
        | setoid_rewrite occ_cons in Hocc
        | setoid_rewrite occ_nil in Hocc ];
      clear HND
  end.

Ltac occ_facts z :=
  repeat match goal with
  | H : NoDup ?l |- _ =>
      lazymatch goal with
      | _ : (occ z l ≤ 1)%nat |- _ => fail
      | _ => pose proof (occ_NoDup z l H)
      end
  end.

Ltac occ_lia_slow z :=
  occ_facts z;
  repeat match goal with
  | H : (occ _ _ ≤ 1)%nat |- _ => progress occ_norm_in H
  | H : (1 ≤ occ _ _)%nat |- _ => progress occ_norm_in H
  | H : occ _ _ = 0%nat |- _ => progress occ_norm_in H
  end;
  try occ_norm; lia.

Ltac occ_lia z :=
  lazymatch goal with
  | Hocc : ∀ z' : ref, (_ ≤ 1)%nat |- _ =>
      let Hz := fresh "Hz" in
      pose proof (Hocc z) as Hz;
      rewrite ?(decide_True (P := z = z)) in Hz by reflexivity;
      repeat match goal with
      | H : (1 ≤ occ z (_ ++ _))%nat |- _ => rewrite occ_app in H
      end;
      try occ_norm; lia
  | _ => occ_lia_slow z
  end.

Ltac solve_ne :=
  lazymatch goal with
  | |- ?a ≠ ?b =>
      let Heq := fresh "Heq" in
      intros Heq;
      first [ subst a; occ_lia b | subst b; occ_lia a ]
  end.

Ltac solve_occ0 :=
  lazymatch goal with
  | |- occ ?z _ = 0%nat => occ_lia z
  end.

(** Reading the store after a run of field writes. *)
Ltac hlookup :=
  cbn [nodes _root];
  repeat first
    [ rewrite lookup_insert_eq
    | rewrite lookup_insert_ne by solve_ne ];
  first [ eassumption | reflexivity | rewrite ?root_of_plug; reflexivity ].

Ltac hcbn :=
  unfold with_parent, with_left, with_right, with_color, with_value;
  cbn [_parent _left _right _color _key _value with_parent with_left with_right
       with_color with_value root_of nodes _root child flip fdir fid fsib fcolor
       ctx_par ctx_root plug fill].

Ltac ptr_eq_at a b :=
  lazymatch constr:((a, b)) with
  | (?p, ?p) => rewrite (ptr_eq_refl p)
  | (Some ?x, Some ?y) => rewrite (ptr_eq_Some_ne x y) by solve_ne
  | (None, Some ?x) => rewrite (ptr_eq_None_Some x)
  | (Some ?x, None) => rewrite (ptr_eq_Some_None x)
  | (root_of ?t, Some ?x) => rewrite (ptr_eq_root_ne t x) by solve_occ0
  | (Some ?x, root_of ?t) => rewrite (ptr_eq_ne_root t x) by solve_occ0
  end.

(** Decides the condition of the conditional that is next to run. *)
Ltac cond_simpl c :=
  lazymatch c with
  | negb ?c' => cond_simpl c'
  | ptr_eq ?a ?b => ptr_eq_at a b
  | bool_decide (?a = ?a) => rewrite (bool_decide_eq_true_2 (a = a) eq_refl)
  | bool_decide (Red = Black) => change (bool_decide (Red = Black)) with false
  | bool_decide (Black = Red) => change (bool_decide (Black = Red)) with false
  end.

(** One step of a program running on an explicitly known store. *)
Ltac hstep :=
  cbv beta;
  lazymatch goal with
  | |- returns ?lhs _ =>
      lazymatch lhs with
      | bind (bind ?m ?f) ?g ?s => rewrite (bind_assoc m f g s)
      | bind (field ?f (Some ?x)) ?k ?s => erewrite (field_step f x k s) by hlookup
      | bind (update (Some ?x) ?g) ?k ?s => erewrite (update_step x g k s) by hlookup
      | bind (set_root ?v) ?k ?s =>
          change (bind (set_root v) k s) with (k tt (mkTree v (nodes s)))
      | bind get_root ?k ?s => change (bind get_root k s) with (k (_root s) s)
      | bind (ret ?a) ?k ?s => change (bind (ret a) k s) with (k a s)
      | bind (if ?c then _ else _) _ _ => cond_simpl c
      | (if ?c then _ else _) _ => cond_simpl c
      | update (Some ?x) ?g ?s => erewrite (update_Some x g s) by hlookup
      | set_root ?v ?s => change (set_root v s) with (Ret tt (mkTree v (nodes s)))
      | ret ?a ?s => change (ret a s) with (Ret a s)
      end
  end;
  hcbn.

Ltac hsteps :=
  unfold set_parent, set_left, set_right, set_color, set_value; hcbn; repeat hstep.

Ltac frame_tac :=
  let z := fresh "z" in
  let Hz := fresh "Hz" in
  intros z Hz; cbn [nodes];
  rewrite ?lookup_insert_ne by solve_ne; reflexivity.

Ltac rep_tac :=
  lazymatch goal with
  | |- rep _ _ E => exact I
  | |- rep _ _ (T _ _ _ _) =>
      eapply rep_T_intro; [hlookup|rep_tac..]
  | |- rep _ _ (plug _ _) => apply rep_plug; split; rep_tac
  | |- rep _ _ _ => (eapply rep_frame; [|eassumption]; frame_tac)
  | |- repctx _ _ [] _ => exact I
  | |- repctx _ _ (Frame L _ _ _ :: _) _ =>
      eapply repctx_L_intro; [hlookup|rep_tac..]
  | |- repctx _ _ (Frame R _ _ _ :: _) _ =>
      eapply repctx_R_intro; [hlookup|rep_tac..]
  | |- repctx _ _ _ _ => (eapply repctx_frame; [|eassumption]; frame_tac)
  | |- _ => idtac
  end.

Ltac nodup_tac :=
  lazymatch goal with
  | |- NoDup _ =>
      let z := fresh "z" in
      apply NoDup_occ; intros z; occ_lia z
  end.

(** Exposes the cells that a tree pattern mentions. *)
Ltac open_rep :=
  repeat match goal with
  | H : rep _ _ (T _ _ _ _) |- _ =>
      apply rep_T_inv in H; destruct H as (? & ? & ? & ? & ?)
  | H : repctx _ _ (Frame L _ _ _ :: _) _ |- _ =>
      apply repctx_L_inv in H; destruct H as (? & ? & ? & ? & ?)
  | H : repctx _ _ (Frame R _ _ _ :: _) _ |- _ =>
      apply repctx_R_inv in H; destruct H as (? & ? & ? & ? & ?)
  | H : rep _ _ (plug _ _) |- _ =>
      apply rep_plug in H; destruct H as [? ?]
  | H : rep _ _ E |- _ => clear H
  | H : repctx _ _ [] _ |- _ => clear H
  end;
  cbn [root_of ctx_par ctx_root fid] in *.

Ltac holds_goal_tac :=
  lazymatch goal with
  | |- holds _ (plug _ _) => apply holds_plug_intro
  | |- holds _ _ => apply (holds_plug_intro _ [])
  end;
  [cbn [_root root_of ctx_root fid]; first [assumption|reflexivity]
  |rep_tac|rep_tac|first [assumption|nodup_tac]].

Ltac holds_tac := apply returns_Ret; holds_goal_tac.

(** ** Recolouring and rotations keep the store well formed *)

Section Prim.
Context {K V : Type}.
Implicit Types (h : gmap ref (RBTreeNode K V)) (s : RBTree K V).
Implicit Types (t l r : tree) (ctx : list frame) (x : ref) (p par : ptr).

Lemma set_color_holds s ctx c c' l x r :
  holds s (plug ctx (T c l x r)) →
  returns (set_color (Some x) c' s) (λ _ s', holds s' (plug ctx (T c' l x r))).
Proof.
  intros (Hroot & Hrep & Hctx & HND)%holds_plug_inv. open_rep.
  pose proof HND as HND'; occ_init.
  hsteps. holds_tac.
Qed.

Lemma rotateLeft_holds s ctx cx cy a x b y d :
  holds s (plug ctx (T cx a x (T cy b y d))) →
  returns (RBTree._rotateLeft (Some x) s)
    (λ _ s', holds s' (plug ctx (T cy (T cx a x b) y d))).
Proof.
  intros (Hroot & Hrep & Hctx & HND)%holds_plug_inv.
  unfold RBTree._rotateLeft, RBTree._replaceNode.
  destruct ctx as [|[[] cp p sib] ctx']; destruct b as [|cb bl bx br]; open_rep;
    pose proof HND as HND'; occ_init.
  all: hsteps.
  all: holds_tac.
Qed.

Lemma rotateRight_holds s ctx cx cy a y b x d :
  holds s (plug ctx (T cx (T cy a y b) x d)) →
  returns (RBTree._rotateRight (Some x) s)
    (λ _ s', holds s' (plug ctx (T cy a y (T cx b x d)))).
Proof.
  intros (Hroot & Hrep & Hctx & HND)%holds_plug_inv.
  unfold RBTree._rotateRight, RBTree._replaceNode.
  destruct ctx as [|[[] cp p sib] ctx']; destruct b as [|cb bl bx br]; open_rep;
    pose proof HND as HND'; occ_init.
  all: hsteps.
  all: holds_tac.
Qed.

End Prim.

(** * The red-black colouring *)

(** [rb t n]: no red node of [t] has a red child, and every path from the
    root of [t] down to a null link passes through exactly [n] black nodes. *)
Fixpoint rb (t : tree) (n : nat) : Prop :=
  match t with
  | E => n = 0%nat
  | T Red l _ r => color_of l = Black ∧ color_of r = Black ∧ rb l n ∧ rb r n
  | T Black l _ r =>
      match n with
      | O => False
      | S m => rb l m ∧ rb r m
      end
  end.

Definition is_rbtree (t : tree) : Prop := color_of t = Black ∧ ∃ n, rb t n.

(** [ctx_rb c ctx n]: the frames are coloured so that any well-coloured
    subtree of black height [n] whose root has colour [c] can fill the hole. *)
Fixpoint ctx_rb (c : color) (ctx : list frame) (n : nat) : Prop :=
  match ctx with
  | [] => c = Black
  | f :: ctx' =>
      match fcolor f with
      | Black => rb (fsib f) n ∧ ctx_rb Black ctx' (S n)
      | Red => c = Black ∧ color_of (fsib f) = Black ∧ rb (fsib f) n ∧ ctx_rb Red ctx' n
      end
  end.

Lemma ctx_rb_weaken ctx n : ctx_rb Red ctx n → ctx_rb Black ctx n.
Proof. destruct ctx as [|[d [] x sib] ctx]; simpl; [done|tauto|done]. Qed.

Lemma rb_fill_black d x sib t n :
  rb t n → rb sib n → rb (fill (Frame d Black x sib) t) (S n).
Proof. destruct d; simpl; tauto. Qed.

Lemma rb_fill_red d x sib t n :
  rb t n → rb sib n → color_of t = Black → color_of sib = Black →
  rb (fill (Frame d Red x sib) t) n.
Proof. destruct d; simpl; tauto. Qed.

Lemma plug_rb ctx : ∀ t n,
  rb t n → ctx_rb (color_of t) ctx n → is_rbtree (plug ctx t).
Proof.
  induction ctx as [|[d [] x sib] ctx IH]; intros t n Ht Hc; simpl in *.
  - split; [done|eauto].
  - destruct Hc as (Hb & Hs & Hsn & Hc).
    apply (IH _ n); [by apply rb_fill_red|]. by destruct d.
  - destruct Hc as (Hsn & Hc).
    apply (IH _ (S n)); [by apply rb_fill_black|]. by destruct d.
Qed.

Lemma rb_plug_inv ctx : ∀ t,
  is_rbtree (plug ctx t) → ∃ n, rb t n ∧ ctx_rb (color_of t) ctx n.
Proof.
  induction ctx as [|[d c x sib] ctx IH]; intros t; simpl.
  - intros (? & n & ?). eauto.
  - intros H. apply IH in H as (n & Hn & Hc).
    destruct d, c; simpl in *.
    + destruct Hn as (? & ? & ? & ?). exists n. tauto.
    + destruct n as [|m]; [done|]. exists m. tauto.
    + destruct Hn as (? & ? & ? & ?). exists n. tauto.
    + destruct n as [|m]; [done|]. exists m. tauto.
Qed.

(** ** Stepping through code against a [holds] hypothesis *)

(** Finds the position of node [x] in a tree expression. *)
Ltac focus_of x t :=
  match t with
  | T ?c ?l x ?r => constr:((@nil frame, c, l, r))
  | T ?c ?l ?y ?r =>
      let res := focus_of x l in
      lazymatch res with
      | (?ctx, ?c', ?l', ?r') => constr:((ctx ++ [Frame L c y r], c', l', r'))
      end
  | T ?c ?l ?y ?r =>
      let res := focus_of x r in
      lazymatch res with
      | (?ctx, ?c', ?l', ?r') => constr:((ctx ++ [Frame R c y l], c', l', r'))
      end
  | plug ?ctx0 ?t' =>
      let res := focus_of x t' in
      lazymatch res with
      | (?ctx, ?c', ?l', ?r') => constr:((ctx ++ ctx0, c', l', r'))
      end
  end.

Ltac scbn :=
  cbn [root_of ctx_par ctx_root plug fill fdir fid fsib fcolor negb
       nonnull_and_red null_or_black].

Ltac scbn_in H :=
  cbn [root_of ctx_par ctx_root plug fill fdir fid fsib fcolor app] in H.

Ltac sfield H f x k s t :=
  let res := focus_of x t in
  lazymatch res with
  | (?ctx0, ?c, ?l, ?r) =>
      let ctx := eval cbn [app] in ctx0 in
      lazymatch f with
      | @_parent _ _ => rewrite (bind_Ret _ k s _ s (field_parent_holds s ctx c l x r H))
      | @_left _ _ => rewrite (bind_Ret _ k s _ s (field_left_holds s ctx c l x r H))
      | @_right _ _ => rewrite (bind_Ret _ k s _ s (field_right_holds s ctx c l x r H))
      | @_color _ _ => rewrite (bind_Ret _ k s _ s (field_color_holds s ctx c l x r H))
      end
  end.

(** The specification that applies to the operation about to run. *)
Ltac spec_of H m s t :=
  lazymatch m with
  | set_color (Some ?x) ?c' =>
      let res := focus_of x t in
      lazymatch res with
      | (?ctx0, ?c, ?l, ?r) =>
          let ctx := eval cbn [app] in ctx0 in
          constr:(set_color_holds s ctx c c' l x r H)
      end
  | RBTree._rotateLeft (Some ?x) =>
      let res := focus_of x t in
      lazymatch res with
      | (?ctx0, ?cx, ?a, T ?cy ?b ?y ?d) =>
          let ctx := eval cbn [app] in ctx0 in
          constr:(rotateLeft_holds s ctx cx cy a x b y d H)
      end
  | RBTree._rotateRight (Some ?x) =>
      let res := focus_of x t in
      lazymatch res with
      | (?ctx0, ?cx, T ?cy ?a ?y ?b, ?d) =>
          let ctx := eval cbn [app] in ctx0 in
          constr:(rotateRight_holds s ctx cx cy a y b x d H)
      end
  end.

Ltac sspec_bind H m s t :=
  let sp := spec_of H m s t in
  let a := fresh "a" in
  let s1 := fresh "s" in
  eapply returns_bind; [exact sp|];
  clear H; intros a s1 H; scbn_in H.

Ltac sspec_last H m s t :=
  let sp := spec_of H m s t in
  let a := fresh "a" in
  let s1 := fresh "s" in
  eapply returns_mono; [exact sp|];
  clear H; intros a s1 H; scbn_in H.

Ltac sstep :=
  cbv beta;
  lazymatch goal with
  | H : holds ?s ?t |- returns ?lhs _ =>
      lazymatch lhs with
      | bind (bind ?m ?f) ?g s => rewrite (bind_assoc m f g s)
      | bind (field ?f (Some ?x)) ?k s => sfield H f x k s t
      | bind (ret ?a) ?k s => change (bind (ret a) k s) with (k a s)
      | bind get_root ?k s => change (bind get_root k s) with (k (_root s) s)
      | bind (if ?c then _ else _) _ _ => cond_simpl c
      | (if ?c then _ else _) _ => cond_simpl c
      | bind ?m ?k s => sspec_bind H m s t
      | ret ?a s => fail
      | ?m s => sspec_last H m s t
      end
  end;
  scbn.

Ltac ssteps := repeat sstep.

Ltac sdone := change (ret ?a ?s) with (Ret a s); apply returns_Ret.

Ltac inorder_tac :=
  rewrite ?inorder_plug;
  cbn [inorder ctx_before ctx_after fdir fid fsib];
  repeat (progress (rewrite <- ?app_assoc; cbn [app]));
  reflexivity.

Ltac rb_tac n :=
  lazymatch goal with
  | |- is_rbtree (plug ?c ?t) => apply (plug_rb c t n)
  | |- is_rbtree ?t => apply (plug_rb [] t n)
  end;
  cbn [rb color_of ctx_rb fcolor fsib] in *; try tauto.
Section FixupInsert.
Context {K V : Type}.
Implicit Types (s : RBTree K V).

Lemma holds_NoDup s t : holds s t → NoDup (inorder t).
Proof. by intros (_ & _ & ?). Qed.

Lemma fixupInsert_spec fuel : ∀ ctx s l x r n,
  holds s (plug ctx (T Red l x r)) → rb (T Red l x r) n → ctx_rb Black ctx n →
  (length ctx < fuel)%nat →
  returns (RBTree._fixupInsert fuel (Some x) s) (λ _ s', ∃ t',
     holds s' t' ∧ is_rbtree t' ∧ inorder t' = inorder (plug ctx (T Red l x r))).
Proof.
  induction fuel as [|fuel IH]; intros ctx s l x r n H Hrb Hctx Hfuel; [lia|].
  pose proof (holds_NoDup _ _ H) as HND.
  cbn [RBTree._fixupInsert].
  destruct ctx as [|[d [] p sib] ctx'].
  - (* the node is the root *)
    scbn_in H. ssteps. eexists. split; [done|].
    split; [rb_tac (S n)|inorder_tac].
  - (* red parent: there is a black grandparent *)
    destruct ctx' as [|[d' [] g u] ctx'']; cbn [ctx_rb fcolor fsib] in Hctx;
      [exfalso; by destruct Hctx as (_ & _ & _ & ?)
      |exfalso; by destruct Hctx as (_ & _ & _ & ? & _)|].
    destruct Hctx as (_ & Hsib & Hsn & Hun & Hctx).
    destruct d', d, u as [|[] ul ux ur]; scbn_in H; ssteps.
    all: try (eexists; split; [done|];
      split; [rb_tac (S n)|inorder_tac]).
    all: (eapply returns_mono;
      [eapply (IH ctx'' _ _ g _ (S n));
         [exact H|cbn [rb color_of] in *; tauto|done|cbn [length] in Hfuel; lia]|]);
      intros ? ? (t' & ? & ? & Hin); exists t';
      (split; [done|]); (split; [done|]); rewrite Hin; inorder_tac.
  - (* black parent: nothing to repair *)
    destruct Hctx as (Hsn & Hctx).
    destruct d; scbn_in H; ssteps; sdone; eexists; (split; [done|]);
      (split; [rb_tac (S n)|inorder_tac]).
Qed.
End FixupInsert.

(** * Properties of every operation: keys and values stay, fuel only helps *)

(** Apart from [insert], no operation touches a key or a value, and none
    allocates. *)
Definition kv_same {K V} (s s' : RBTree K V) : Prop :=
  ∀ x, key_of s' x = key_of s x ∧ value_of s' x = value_of s x.

Definition pres {K V A} (m : M K V A) : Prop :=
  ∀ s a s', m s = Ret a s' → kv_same s s'.

Section Frame.
Context {K V : Type}.
Implicit Types (s : RBTree K V).

Lemma kv_same_refl s : kv_same s s.
Proof. by intros x. Qed.

Lemma kv_same_trans s1 s2 s3 : kv_same s1 s2 → kv_same s2 s3 → kv_same s1 s3.
Proof.
  intros H1 H2 x. destruct (H1 x) as [<- <-]. by destruct (H2 x) as [<- <-].
Qed.

Lemma pres_ret {A} (a : A) : pres (@ret K V A a).
Proof. intros s a' s' [= _ <-]. apply kv_same_refl. Qed.

Lemma pres_bind {A B} (m : M K V A) (k : A → M K V B) :
  pres m → (∀ a, pres (k a)) → pres (bind m k).
Proof.
  intros Hm Hk s b s' H. apply bind_inv in H as (a & s1 & H1 & H2).
  eapply kv_same_trans; [by eapply Hm|by eapply Hk].
Qed.

Lemma pres_field {A} (f : RBTreeNode K V → A) p : pres (field f p).
Proof.
  intros s a s'. unfold field. destruct p as [x|]; [|done].
  destruct (nodes s !! x); [|done]. intros [= _ <-]. apply kv_same_refl.
Qed.

Lemma pres_update p (g : RBTreeNode K V → RBTreeNode K V) :
  (∀ n, _key (g n) = _key n ∧ _value (g n) = _value n) → pres (update p g).
Proof.
  intros Hg s a s'. unfold update. destruct p as [x|]; [|done].
  destruct (nodes s !! x) as [n|] eqn:E; [|done]. intros [= _ <-].
  intros y. unfold key_of, value_of. cbn [nodes].
  destruct (decide (x = y)) as [->|].
  - rewrite lookup_insert_eq, E. simpl. destruct (Hg n) as [-> ->]. done.
  - by rewrite lookup_insert_ne.
Qed.

Lemma pres_set_parent p v : pres (@set_parent K V p v).
Proof. by apply pres_update. Qed.
Lemma pres_set_left p v : pres (@set_left K V p v).
Proof. by apply pres_update. Qed.
Lemma pres_set_right p v : pres (@set_right K V p v).
Proof. by apply pres_update. Qed.
Lemma pres_set_color p v : pres (@set_color K V p v).
Proof. by apply pres_update. Qed.

Lemma pres_get_root : pres (@get_root K V).
Proof. intros s a s' [= _ <-]. apply kv_same_refl. Qed.

Lemma pres_set_root v : pres (@set_root K V v).
Proof. intros s a s' [= _ <-]. intros x. split; reflexivity. Qed.

Lemma pres_timeout {A} : pres (@timeout K V A).
Proof. by intros s a s'. Qed.

Lemma pres_nonnull_and_red p : pres (@nonnull_and_red K V p).
Proof.
  destruct p; simpl; [|apply pres_ret].
  apply pres_bind; [apply pres_field|intros; apply pres_ret].
Qed.

Lemma pres_null_or_black p : pres (@null_or_black K V p).
Proof.
  destruct p; simpl; [|apply pres_ret].
  apply pres_bind; [apply pres_field|intros; apply pres_ret].
Qed.

(** More fuel never changes a result. *)
Lemma le_M_refl {A} (m : M K V A) : le_M m m.
Proof. intros s. by right. Qed.

Lemma le_M_bind {A B} (m m' : M K V A) (k k' : A → M K V B) :
  le_M m m' → (∀ a, le_M (k a) (k' a)) → le_M (bind m k) (bind m' k').
Proof.
  intros Hm Hk s. unfold bind. destruct (Hm s) as [-> | ->]; [by left|].
  destruct (m s) as [a s1| | |]; [apply Hk|by right..].
Qed.

Lemma le_M_timeout {A} (m : M K V A) : le_M timeout m.
Proof. intros s. by left. Qed.

Lemma le_M_Ret {A} (m m' : M K V A) s a s' : le_M m m' → m s = Ret a s' → m' s = Ret a s'.
Proof. intros Hm H. destruct (Hm s) as [E|E]; congruence. Qed.

Lemma le_M_done {A} (m m' : M K V A) s : le_M m m' → m s ≠ OutOfFuel → m' s = m s.
Proof. intros Hm H. by destruct (Hm s). Qed.

End Frame.

Ltac pres_tac :=
  repeat first
    [ apply pres_ret | apply pres_field | apply pres_set_parent
    | apply pres_set_left | apply pres_set_right | apply pres_set_color
    | apply pres_get_root | apply pres_set_root | apply pres_timeout
    | apply pres_nonnull_and_red | apply pres_null_or_black
    | assumption
    | lazymatch goal with
      | |- pres (bind _ _) => apply pres_bind; [|intros ?]
      | |- pres (match ?x with _ => _ end) => destruct x
      end ].

Ltac mono_tac :=
  repeat first
    [ apply le_M_refl | apply le_M_timeout
    | lazymatch goal with
      | |- le_M (bind _ _) (bind _ _) => apply le_M_bind; [|intros ?]
      | |- le_M (match ?x with _ => _ end) (match ?x with _ => _ end) => destruct x
      end ].

Section FrameOps.
Context {K V : Type}.
Implicit Types (s : RBTree K V).

Lemma pres_replaceNode a b : pres (@RBTree._replaceNode K V a b).
Proof. unfold RBTree._replaceNode. pres_tac. Qed.

Lemma pres_rotateLeft a : pres (@RBTree._rotateLeft K V a).
Proof. unfold RBTree._rotateLeft. pres_tac; apply pres_replaceNode. Qed.

Lemma pres_rotateRight a : pres (@RBTree._rotateRight K V a).
Proof. unfold RBTree._rotateRight. pres_tac; apply pres_replaceNode. Qed.

Lemma pres_fixupInsert fuel : ∀ a, pres (@RBTree._fixupInsert K V fuel a).
Proof.
  induction fuel as [|fuel IH]; intros a; cbn [RBTree._fixupInsert]; pres_tac;
    first [apply pres_rotateLeft|apply pres_rotateRight|apply IH].
Qed.

Lemma pres_fixupRemove_loop fuel : ∀ a b, pres (@RBTree._fixupRemove_loop K V fuel a b).
Proof.
  induction fuel as [|fuel IH]; intros a b; cbn [RBTree._fixupRemove_loop]; pres_tac;
    first [apply pres_rotateLeft|apply pres_rotateRight|apply IH].
Qed.

Lemma pres_remove_descend fuel : ∀ a b, pres (@RBTree.remove_descend K V fuel a b).
Proof.
  induction fuel as [|fuel IH]; intros a b; cbn [RBTree.remove_descend]; pres_tac.
  apply IH.
Qed.

Lemma pres_remove fuel a : pres (@RBTree.remove K V fuel a).
Proof.
  unfold RBTree.remove, RBTree._fixupRemove. pres_tac;
    first [apply pres_replaceNode|apply pres_remove_descend|apply pres_fixupRemove_loop].
Qed.

Lemma pres_swap a b : pres (@RBTree.swap K V a b).
Proof. unfold RBTree.swap. pres_tac; apply pres_replaceNode. Qed.

Lemma pres_descend_left fuel : ∀ a, pres (@RBTreeNode.descend_left K V fuel a).
Proof. induction fuel as [|fuel IH]; intros a; cbn [RBTreeNode.descend_left]; pres_tac. apply IH. Qed.

Lemma pres_descend_right fuel : ∀ a, pres (@RBTreeNode.descend_right K V fuel a).
Proof. induction fuel as [|fuel IH]; intros a; cbn [RBTreeNode.descend_right]; pres_tac. apply IH. Qed.

Lemma pres_climb_right fuel : ∀ a b, pres (@RBTreeNode.climb_right K V fuel a b).
Proof. induction fuel as [|fuel IH]; intros a b; cbn [RBTreeNode.climb_right]; pres_tac. apply IH. Qed.

Lemma pres_climb_left fuel : ∀ a b, pres (@RBTreeNode.climb_left K V fuel a b).
Proof. induction fuel as [|fuel IH]; intros a b; cbn [RBTreeNode.climb_left]; pres_tac. apply IH. Qed.

Lemma pres_succ fuel a : pres (@RBTreeNode.succ K V fuel a).
Proof.
  unfold RBTreeNode.succ. pres_tac; first [apply pres_descend_left|apply pres_climb_right].
Qed.

Lemma pres_pred fuel a : pres (@RBTreeNode.pred K V fuel a).
Proof.
  unfold RBTreeNode.pred. pres_tac; first [apply pres_descend_right|apply pres_climb_left].
Qed.

Lemma pres_reverse fuel : ∀ a b, pres (@RBTree.reverse K V fuel a b).
Proof.
  induction fuel as [|fuel IH]; intros a b; cbn [RBTree.reverse]; pres_tac;
    first [apply pres_succ|apply pres_pred|apply pres_swap|apply IH].
Qed.

End FrameOps.

Section Mono.
Context {K V : Type}.
Variable compare : K → K → Z.

Ltac fuel_ind cb :=
  let f := fresh "f" in
  let IH := fresh "IH" in
  let f' := fresh "f'" in
  let Hle := fresh "Hle" in
  intros f; induction f as [|f IH]; intros f' Hle; intros;
  [apply le_M_timeout|];
  destruct f' as [|f']; [lia|]; cb; mono_tac;
  try (apply IH; lia).

Lemma descend_left_mono : ∀ f f', (f ≤ f')%nat → ∀ a,
  le_M (@RBTreeNode.descend_left K V f a) (RBTreeNode.descend_left f' a).
Proof. fuel_ind ltac:(cbn [RBTreeNode.descend_left]). Qed.

Lemma descend_right_mono : ∀ f f', (f ≤ f')%nat → ∀ a,
  le_M (@RBTreeNode.descend_right K V f a) (RBTreeNode.descend_right f' a).
Proof. fuel_ind ltac:(cbn [RBTreeNode.descend_right]). Qed.

Lemma climb_right_mono : ∀ f f', (f ≤ f')%nat → ∀ a b,
  le_M (@RBTreeNode.climb_right K V f a b) (RBTreeNode.climb_right f' a b).
Proof. fuel_ind ltac:(cbn [RBTreeNode.climb_right]). Qed.

Lemma climb_left_mono : ∀ f f', (f ≤ f')%nat → ∀ a b,
  le_M (@RBTreeNode.climb_left K V f a b) (RBTreeNode.climb_left f' a b).
Proof. fuel_ind ltac:(cbn [RBTreeNode.climb_left]). Qed.

Lemma succ_mono f f' a : (f ≤ f')%nat →
  le_M (@RBTreeNode.succ K V f a) (RBTreeNode.succ f' a).
Proof.
  intros. unfold RBTreeNode.succ. mono_tac;
    first [by apply descend_left_mono|by apply climb_right_mono].
Qed.

Lemma pred_mono f f' a : (f ≤ f')%nat →
  le_M (@RBTreeNode.pred K V f a) (RBTreeNode.pred f' a).
Proof.
  intros. unfold RBTreeNode.pred. mono_tac;
    first [by apply descend_right_mono|by apply climb_left_mono].
Qed.

Lemma min_mono f f' : (f ≤ f')%nat → le_M (@RBTree.min K V f) (RBTree.min f').
Proof. intros. unfold RBTree.min. mono_tac. by apply descend_left_mono. Qed.

Lemma max_mono f f' : (f ≤ f')%nat → le_M (@RBTree.max K V f) (RBTree.max f').
Proof. intros. unfold RBTree.max. mono_tac. by apply descend_right_mono. Qed.

Lemma find_loop_mono : ∀ f f', (f ≤ f')%nat → ∀ k a,
  le_M (@RBTree.find_loop K V compare f k a) (RBTree.find_loop compare f' k a).
Proof. fuel_ind ltac:(cbn [RBTree.find_loop]). Qed.

Lemma find_mono f f' k : (f ≤ f')%nat →
  le_M (@RBTree.find K V compare f k) (RBTree.find compare f' k).
Proof. intros. unfold RBTree.find. mono_tac. by apply find_loop_mono. Qed.

Lemma lower_loop_mono : ∀ f f', (f ≤ f')%nat → ∀ k a,
  le_M (@RBTree.lower_loop K V compare f k a) (RBTree.lower_loop compare f' k a).
Proof. fuel_ind ltac:(cbn [RBTree.lower_loop]). apply pred_mono; lia. Qed.

Lemma upper_loop_mono : ∀ f f', (f ≤ f')%nat → ∀ k a,
  le_M (@RBTree.upper_loop K V compare f k a) (RBTree.upper_loop compare f' k a).
Proof. fuel_ind ltac:(cbn [RBTree.upper_loop]). apply succ_mono; lia. Qed.

Lemma lower_mono f f' k : (f ≤ f')%nat →
  le_M (@RBTree.lower K V compare f k) (RBTree.lower compare f' k).
Proof. intros. unfold RBTree.lower. mono_tac. by apply lower_loop_mono. Qed.

Lemma upper_mono f f' k : (f ≤ f')%nat →
  le_M (@RBTree.upper K V compare f k) (RBTree.upper compare f' k).
Proof. intros. unfold RBTree.upper. mono_tac. by apply upper_loop_mono. Qed.

Lemma fixupInsert_mono : ∀ f f', (f ≤ f')%nat → ∀ a,
  le_M (@RBTree._fixupInsert K V f a) (RBTree._fixupInsert f' a).
Proof. fuel_ind ltac:(cbn [RBTree._fixupInsert]). Qed.

Lemma fixupRemove_loop_mono : ∀ f f', (f ≤ f')%nat → ∀ a b,
  le_M (@RBTree._fixupRemove_loop K V f a b) (RBTree._fixupRemove_loop f' a b).
Proof. fuel_ind ltac:(cbn [RBTree._fixupRemove_loop]). Qed.

Lemma insert_loop_mono : ∀ f f', (f ≤ f')%nat → ∀ k v a,
  le_M (@RBTree.insert_loop K V compare f k v a) (RBTree.insert_loop compare f' k v a).
Proof. fuel_ind ltac:(cbn [RBTree.insert_loop]). Qed.

Lemma insert_mono f f' k v : (f ≤ f')%nat →
  le_M (@RBTree.insert K V compare f k v) (RBTree.insert compare f' k v).
Proof.
  intros. unfold RBTree.insert. mono_tac;
    first [by apply insert_loop_mono|by apply fixupInsert_mono].
Qed.

Lemma remove_descend_mono : ∀ f f', (f ≤ f')%nat → ∀ a b,
  le_M (@RBTree.remove_descend K V f a b) (RBTree.remove_descend f' a b).
Proof. fuel_ind ltac:(cbn [RBTree.remove_descend]). Qed.

Lemma remove_mono f f' a : (f ≤ f')%nat →
  le_M (@RBTree.remove K V f a) (RBTree.remove f' a).
Proof.
  intros. unfold RBTree.remove, RBTree._fixupRemove. mono_tac;
    first [by apply remove_descend_mono|by apply fixupRemove_loop_mono].
Qed.

Lemma reverse_mono : ∀ f f', (f ≤ f')%nat → ∀ a b,
  le_M (@RBTree.reverse K V f a b) (RBTree.reverse f' a b).
Proof.
  fuel_ind ltac:(cbn [RBTree.reverse]);
    first [apply succ_mono; lia|apply pred_mono; lia].
Qed.

Lemma node_validate_mono : ∀ f f', (f ≤ f')%nat → ∀ a,
  le_M (@RBTreeNode.validate K V f a) (RBTreeNode.validate f' a).
Proof. fuel_ind ltac:(cbn [RBTreeNode.validate]). Qed.

Lemma validate_mono f f' : (f ≤ f')%nat →
  le_M (@RBTree.validate K V f) (RBTree.validate f').
Proof. intros. unfold RBTree.validate. mono_tac. by apply node_validate_mono. Qed.

End Mono.

(** * Searching and inserting *)

(** The comparator contract: negative, zero or positive for less, equal or
    greater, under a strict total order. *)
Record StrictTotal {K} (compare : K → K → Z) : Prop := {
  cmp_eq : ∀ a b, compare a b = 0 ↔ a = b;
  cmp_flip : ∀ a b, compare a b < 0 ↔ 0 < compare b a;
  cmp_trans : ∀ a b c, compare a b < 0 → compare b c < 0 → compare a c < 0
}.

Fixpoint height (t : tree) : nat :=
  match t with
  | E => 0
  | T _ l _ r => S (Nat.max (height l) (height r))
  end.

(** [key_is s P y]: node [y] has a key, and the key satisfies [P]. *)
Definition key_is {K V} (s : RBTree K V) (P : K → Prop) (y : ref) : Prop :=
  ∃ k, key_of s y = Some k ∧ P k.

(** The frames passed on the way down are those a binary search for [key]
    passes: left where [key] is smaller, right where it is larger. *)
Definition path_ok {K V} (compare : K → K → Z) (s : RBTree K V) (key : K)
    (ctx : list frame) : Prop :=
  Forall (λ f, key_is s (λ k, match fdir f with
                               | L => compare key k < 0
                               | R => 0 < compare key k
                               end) (fid f)) ctx.

(** [n] is a new node with the given key and value; nothing else changed. *)
Definition kv_new {K V} (s s' : RBTree K V) (n : ref) (k : K) (v : V) : Prop :=
  nodes s !! n = None ∧ key_of s' n = Some k ∧ value_of s' n = Some v ∧
  ∀ y, y ≠ n → key_of s' y = key_of s y ∧ value_of s' y = value_of s y.

Section Insert.
Context {K V : Type}.
Variable compare : K → K → Z.
Implicit Types (s : RBTree K V) (t l r : tree) (ctx : list frame).

Lemma height_plug ctx : ∀ t, (length ctx + height t ≤ height (plug ctx t))%nat.
Proof.
  induction ctx as [|[[] c x sib] ctx IH]; intros t;
    cbn [plug fill fdir fcolor fid fsib length]; [lia|..].
  - specialize (IH (T c t x sib)). cbn [height] in IH. lia.
  - specialize (IH (T c sib x t)). cbn [height] in IH. lia.
Qed.

Lemma holds_lookup s t y :
  holds s t → y ∈ inorder t → is_Some (nodes s !! y).
Proof.
  intros H Hy. destruct (in_inorder_plug _ _ Hy) as (ctx & c & l & r & ->).
  apply holds_focus in H as (n & Hn & _). eauto.
Qed.

Lemma holds_fresh s t :
  holds s t → NoDup (fresh (dom (nodes s)) :: inorder t).
Proof.
  intros H. constructor; [|by apply holds_NoDup in H].
  intros Hy. eapply holds_lookup in Hy; [|done].
  apply elem_of_dom in Hy. by apply is_fresh in Hy.
Qed.

Lemma fresh_lookup s : nodes s !! fresh (dom (nodes s)) = None.
Proof. apply not_elem_of_dom, is_fresh. Qed.


Lemma holds_key s t y : holds s t → y ∈ inorder t → is_Some (key_of s y).
Proof.
  intros H Hy. destruct (holds_lookup _ _ _ H Hy) as [n Hn].
  unfold key_of. rewrite Hn. eauto.
Qed.

(** Hanging a new red leaf below [x]. *)
Lemma attach_left s ctx c x r key value :
  holds s (plug ctx (T c E x r)) →
  returns ((let* node := new_node (Some x) key value in
            set_left (Some x) node ;; ret (Broke node)) s)
    (λ ex s', ∃ n, ex = Broke (Some n) ∧ kv_new s s' n key value ∧
                   holds s' (plug ctx (T c (T Red E n E) x r))).
Proof.
  intros H. pose proof (holds_fresh _ _ H) as HND.
  pose proof (fresh_lookup s) as Hfr.
  rewrite new_node_step. revert HND Hfr.
  generalize (fresh (dom (nodes s))). intros n HND Hfr.
  apply holds_plug_inv in H as (Hroot & Hrep & Hctx & _). open_rep.
  hsteps. apply returns_Ret. exists n. split; [done|]. split.
  - split; [done|]. unfold key_of, value_of. cbn [nodes].
    split; [by rewrite lookup_insert_ne, lookup_insert_eq by solve_ne|].
    split; [by rewrite lookup_insert_ne, lookup_insert_eq by solve_ne|].
    intros y Hy. destruct (decide (y = x)) as [->|].
    + rewrite lookup_insert_eq. by match goal with H : _ !! x = _ |- _ => rewrite H end.
    + by rewrite !lookup_insert_ne by done.
  - apply holds_plug_intro;
      [cbn [_root root_of ctx_root fid]; first [assumption|reflexivity]
      |rep_tac|rep_tac|nodup_tac].
Qed.

Lemma attach_right s ctx c l x key value :
  holds s (plug ctx (T c l x E)) →
  returns ((let* node := new_node (Some x) key value in
            set_right (Some x) node ;; ret (Broke node)) s)
    (λ ex s', ∃ n, ex = Broke (Some n) ∧ kv_new s s' n key value ∧
                   holds s' (plug ctx (T c l x (T Red E n E)))).
Proof.
  intros H. pose proof (holds_fresh _ _ H) as HND.
  pose proof (fresh_lookup s) as Hfr.
  rewrite new_node_step. revert HND Hfr.
  generalize (fresh (dom (nodes s))). intros n HND Hfr.
  apply holds_plug_inv in H as (Hroot & Hrep & Hctx & _). open_rep.
  hsteps. apply returns_Ret. exists n. split; [done|]. split.
  - split; [done|]. unfold key_of, value_of. cbn [nodes].
    split; [by rewrite lookup_insert_ne, lookup_insert_eq by solve_ne|].
    split; [by rewrite lookup_insert_ne, lookup_insert_eq by solve_ne|].
    intros y Hy. destruct (decide (y = x)) as [->|].
    + rewrite lookup_insert_eq. by match goal with H : _ !! x = _ |- _ => rewrite H end.
    + by rewrite !lookup_insert_ne by done.
  - apply holds_plug_intro;
      [cbn [_root root_of ctx_root fid]; first [assumption|reflexivity]
      |rep_tac|rep_tac|nodup_tac].
Qed.

Lemma attach_root s key value :
  holds s E →
  returns ((let* node := new_node None key value in
            set_root node ;; ret (Broke node)) s)
    (λ ex s', ∃ n, ex = Broke (Some n) ∧ kv_new s s' n key value ∧
                   holds s' (T Red E n E)).
Proof.
  intros H. pose proof (fresh_lookup s) as Hfr.
  rewrite new_node_step. revert Hfr.
  generalize (fresh (dom (nodes s))). intros n Hfr.
  hsteps. apply returns_Ret. exists n. split; [done|]. split.
  - split; [done|]. unfold key_of, value_of. cbn [nodes].
    rewrite lookup_insert_eq. do 2 (split; [done|]).
    intros y Hy. by rewrite lookup_insert_ne by done.
  - split; [done|]. split; [|repeat constructor; by apply not_elem_of_nil].
    eapply rep_T_intro; [cbn [nodes]; by rewrite lookup_insert_eq|done..].
Qed.

End Insert.
Section InsertLoop.
Context {K V : Type}.
Variable compare : K → K → Z.
Implicit Types (s : RBTree K V) (t l r : tree) (ctx : list frame).

Lemma path_ok_cons s key d c x sib ctx n :
  nodes s !! x = Some n →
  match d with L => compare key (_key n) < 0 | R => 0 < compare key (_key n) end →
  path_ok compare s key ctx → path_ok compare s key (Frame d c x sib :: ctx).
Proof.
  intros Hn Hd H. constructor; [|done]. exists (_key n).
  cbn [fid fdir]. unfold key_of. rewrite Hn. done.
Qed.

Lemma insert_loop_spec key value fuel : ∀ ctx c l x r s,
  holds s (plug ctx (T c l x r)) → path_ok compare s key ctx →
  (height (T c l x r) ≤ fuel)%nat →
  returns (RBTree.insert_loop compare fuel key value (Some x) s) (λ ex s',
    match ex with
    | Returned p =>
        ∃ ctx' c' l' y r' n,
          p = Some y ∧ plug ctx (T c l x r) = plug ctx' (T c' l' y r') ∧
          path_ok compare s key ctx' ∧ nodes s !! y = Some n ∧
          compare key (_key n) = 0 ∧
          s' = mkTree (_root s) (<[y := with_value value n]> (nodes s))
    | Broke p =>
        ∃ ctx' n,
          p = Some n ∧ plug ctx (T c l x r) = plug ctx' E ∧
          path_ok compare s key ctx' ∧ kv_new s s' n key value ∧
          holds s' (plug ctx' (T Red E n E))
    end).
Proof.
  induction fuel as [|fuel IH]; intros ctx c l x r s H Hp Hf;
    [cbn [height] in Hf; lia|].
  cbn [RBTree.insert_loop].
  destruct (holds_focus _ _ _ _ _ _ H) as (n & Hn & _).
  rewrite (field_step _ _ _ _ _ Hn). cbv zeta beta.
  destruct (compare key (_key n) =? 0) eqn:E0.
  { apply Z.eqb_eq in E0. unfold set_value.
    rewrite (update_step _ _ _ _ _ Hn). apply returns_Ret.
    by exists ctx, c, l, x, r, n. }
  apply Z.eqb_neq in E0.
  destruct (compare key (_key n) <? 0) eqn:E1.
  - apply Z.ltb_lt in E1. sstep. destruct l as [|cl ll lx lr].
    + eapply returns_mono; [by apply attach_left|].
      intros ex s' (m & -> & Hkv & H'). exists (Frame L c x r :: ctx), m.
      do 2 (split; [reflexivity|]). split; [|done]. by eapply (path_ok_cons _ _ L).
    + scbn. eapply returns_mono.
      { apply (IH (Frame L c x r :: ctx)); [exact H| |cbn [height] in *; lia].
        by eapply (path_ok_cons _ _ L). }
      intros [p|p] s'; done.
  - apply Z.ltb_ge in E1. sstep. destruct r as [|cr rl rx rr].
    + eapply returns_mono; [by apply attach_right|].
      intros ex s' (m & -> & Hkv & H'). exists (Frame R c x l :: ctx), m.
      do 2 (split; [reflexivity|]). split; [|done].
      eapply (path_ok_cons _ _ R); [done|lia|done].
    + scbn. eapply returns_mono.
      { apply (IH (Frame R c x l :: ctx)); [exact H| |cbn [height] in *; lia].
        eapply (path_ok_cons _ _ R); [done|lia|done]. }
      intros [p|p] s'; done.
Qed.
End InsertLoop.
Section InsertSpec.
Context {K V : Type}.
Variable compare : K → K → Z.
Implicit Types (s : RBTree K V) (t l r : tree) (ctx : list frame).

Definition links (n : RBTreeNode K V) : ptr * ptr * ptr * color :=
  (_parent n, _left n, _right n, _color n).

Lemma rep_ext (h h' : gmap ref (RBTreeNode K V)) par t :
  (∀ x n, h !! x = Some n → ∃ n', h' !! x = Some n' ∧ links n' = links n) →
  rep h par t → rep h' par t.
Proof.
  intros Hl. revert par. induction t as [|c l IHl x r IHr]; intros par; [done|].
  simpl. intros (n & Hn & ? & ? & ? & ? & ? & ?).
  destruct (Hl _ _ Hn) as (n' & Hn' & [= E1 E2 E3 E4]).
  exists n'. rewrite E1, E2, E3, E4. auto 10.
Qed.

Lemma holds_set_value s t y n v :
  holds s t → nodes s !! y = Some n →
  holds (mkTree (_root s) (<[y := with_value v n]> (nodes s))) t.
Proof.
  intros (Hr & Hrep & HND) Hn. split; [done|]. split; [|done].
  eapply rep_ext; [|done]. cbn [nodes]. intros x m Hm.
  destruct (decide (y = x)) as [->|].
  - rewrite lookup_insert_eq. eexists. split; [done|]. by simplify_eq.
  - rewrite lookup_insert_ne by done. eauto.
Qed.

Lemma kv_new_same s s1 s' n k v :
  kv_new s s1 n k v → kv_same s1 s' → kv_new s s' n k v.
Proof.
  intros (H1 & H2 & H3 & H4) Hs. split; [done|].
  destruct (Hs n) as [-> ->]. do 2 (split; [done|]).
  intros y Hy. destruct (Hs y) as [-> ->]. auto.
Qed.

Lemma insert_spec key value s t fuel :
  holds s t → is_rbtree t → (height t < fuel)%nat →
  returns (RBTree.insert compare fuel key value s) (λ p s', ∃ y, p = Some y ∧
    ((∃ ctx c l r n,
        t = plug ctx (T c l y r) ∧ path_ok compare s key ctx ∧
        nodes s !! y = Some n ∧ compare key (_key n) = 0 ∧
        s' = mkTree (_root s) (<[y := with_value value n]> (nodes s))) ∨
     (∃ ctx t',
        t = plug ctx E ∧ path_ok compare s key ctx ∧ kv_new s s' y key value ∧
        holds s' t' ∧ is_rbtree t' ∧ inorder t' = inorder (plug ctx (T Red E y E))))).
Proof.
  intros H Hrb Hf. unfold RBTree.insert. rewrite get_root_step.
  pose proof H as (Hr & _ & _). rewrite Hr.
  match goal with |- returns _ ?Q =>
    assert (Hfix : ∀ ctx s1 n, t = plug ctx E → path_ok compare s key ctx →
      kv_new s s1 n key value → holds s1 (plug ctx (T Red E n E)) →
      returns ((RBTree._fixupInsert fuel (Some n);; ret (Some n)) s1) Q)
  end.
  { intros ctx s1 n -> Hp Hkv H1.
    destruct (rb_plug_inv _ _ Hrb) as (m & Hm & Hc). cbn [rb color_of] in Hm, Hc. subst m.
    pose proof (height_plug ctx E) as Hh. cbn [height] in Hh.
    destruct (fixupInsert_spec fuel ctx s1 E n E 0%nat H1) as (a & s2 & E2 & t' & ? & ? & ?);
      [done|done|lia|].
    unfold bind. rewrite E2. apply returns_Ret. exists n. split; [done|].
    right. exists ctx, t'. do 2 (split; [done|]).
    split; [|done]. eapply kv_new_same; [done|]. by eapply pres_fixupInsert. }
  destruct t as [|c l x r]; cbn [root_of] in *.
  - eapply returns_bind; [by apply attach_root|].
    intros ex s1 (n & -> & Hkv & H1). cbv beta iota.
    apply (Hfix []); [reflexivity|constructor|done|done].
  - eapply returns_bind.
    { apply (insert_loop_spec compare key value fuel []); [done|constructor|lia]. }
    intros [p|p] s1; cbv beta iota.
    + intros (ctx' & c' & l' & y & r' & n & -> & Ht & Hp & Hn & Hc & ->).
      apply returns_Ret. exists y. split; [done|]. left.
      exists ctx', c', l', r', n. by rewrite <- Hr.
    + intros (ctx' & n & -> & Ht & Hp & Hkv & H1). by apply (Hfix ctx').
Qed.

End InsertSpec.

(** * Navigation: successor, predecessor, minimum, maximum *)

Section Nav.
Context {K V : Type}.
Implicit Types (s : RBTree K V) (t l r : tree) (ctx : list frame).

Lemma last_app_cons {A} (xs : list A) x (ys : list A) :
  last (xs ++ x :: ys) = last (x :: ys).
Proof.
  rewrite last_app. destruct (last (x :: ys)) eqn:E; [done|].
  rewrite last_cons in E. by destruct (last ys).
Qed.

Lemma last_cons_app_cons {A} (x : A) (xs : list A) y (ys : list A) :
  last (x :: xs ++ y :: ys) = last (y :: ys).
Proof. by rewrite app_comm_cons, last_app_cons. Qed.

Lemma descend_left_spec s fuel : ∀ ctx c l x r,
  holds s (plug ctx (T c l x r)) → (height l < fuel)%nat →
  RBTreeNode.descend_left fuel (Some x) s = Ret (head (inorder (T c l x r))) s.
Proof.
  induction fuel as [|fuel IH]; intros ctx c l x r H Hf; [lia|].
  cbn [RBTreeNode.descend_left].
  rewrite (bind_Ret _ _ _ _ _ (field_left_holds _ _ _ _ _ _ H)).
  destruct l as [|cl ll lx lr]; cbn [root_of]; [done|].
  rewrite (bind_Ret _ _ _ _ _ (field_left_holds _ _ _ _ _ _ H)). cbn [root_of].
  rewrite (IH (Frame L c x r :: ctx) cl ll lx lr H) by (cbn [height] in Hf; lia).
  f_equal. cbn [inorder]. by destruct (inorder ll).
Qed.

Lemma descend_right_spec s fuel : ∀ ctx c l x r,
  holds s (plug ctx (T c l x r)) → (height r < fuel)%nat →
  RBTreeNode.descend_right fuel (Some x) s = Ret (last (inorder (T c l x r))) s.
Proof.
  induction fuel as [|fuel IH]; intros ctx c l x r H Hf; [lia|].
  cbn [RBTreeNode.descend_right].
  rewrite (bind_Ret _ _ _ _ _ (field_right_holds _ _ _ _ _ _ H)).
  destruct r as [|cr rl rx rr]; cbn [root_of].
  { cbn [inorder]. by rewrite last_snoc. }
  rewrite (bind_Ret _ _ _ _ _ (field_right_holds _ _ _ _ _ _ H)). cbn [root_of].
  rewrite (IH (Frame R c x l :: ctx) cr rl rx rr H) by (cbn [height] in Hf; lia).
  f_equal. cbn [inorder]. by rewrite !last_app_cons, last_cons_app_cons.
Qed.

Lemma climb_right_spec s fuel : ∀ ctx c l x r,
  holds s (plug ctx (T c l x r)) → (length ctx < fuel)%nat →
  RBTreeNode.climb_right fuel (Some x) (ctx_par None ctx) s = Ret (head (ctx_after ctx)) s.
Proof.
  induction fuel as [|fuel IH]; intros ctx c l x r H Hf; [lia|].
  cbn [RBTreeNode.climb_right].
  destruct ctx as [|[[] cp p sib] ctx']; cbn [ctx_par fid]; [done|..].
  - pose proof (holds_NoDup _ _ H) as HND.
    rewrite (bind_Ret _ _ _ _ _ (field_right_holds s ctx' cp _ p sib H)).
    rewrite ptr_eq_root_ne by solve_occ0. done.
  - rewrite (bind_Ret _ _ _ _ _ (field_right_holds s ctx' cp sib p _ H)).
    cbn [root_of]. rewrite ptr_eq_refl.
    rewrite (bind_Ret _ _ _ _ _ (field_parent_holds s ctx' cp sib p _ H)).
    apply (IH ctx' cp sib p (T c l x r) H). cbn [length] in Hf. lia.
Qed.

Lemma climb_left_spec s fuel : ∀ ctx c l x r,
  holds s (plug ctx (T c l x r)) → (length ctx < fuel)%nat →
  RBTreeNode.climb_left fuel (Some x) (ctx_par None ctx) s = Ret (last (ctx_before ctx)) s.
Proof.
  induction fuel as [|fuel IH]; intros ctx c l x r H Hf; [lia|].
  cbn [RBTreeNode.climb_left].
  destruct ctx as [|[[] cp p sib] ctx']; cbn [ctx_par fid]; [done|..].
  - rewrite (bind_Ret _ _ _ _ _ (field_left_holds s ctx' cp _ p sib H)).
    cbn [root_of]. rewrite ptr_eq_refl.
    rewrite (bind_Ret _ _ _ _ _ (field_parent_holds s ctx' cp _ p sib H)).
    apply (IH ctx' cp (T c l x r) p sib H). cbn [length] in Hf. lia.
  - pose proof (holds_NoDup _ _ H) as HND.
    rewrite (bind_Ret _ _ _ _ _ (field_left_holds s ctx' cp sib p _ H)).
    rewrite ptr_eq_root_ne by solve_occ0.
    cbn [ctx_before fdir fsib fid]. by rewrite app_assoc, last_snoc.
Qed.

(** The successor of the node in focus is the next reference in in-order
    sequence. *)
Lemma succ_focus s fuel ctx c l x r :
  holds s (plug ctx (T c l x r)) → (height (plug ctx (T c l x r)) < fuel)%nat →
  RBTreeNode.succ fuel (Some x) s = Ret (head (inorder r ++ ctx_after ctx)) s.
Proof.
  intros H Hf. unfold RBTreeNode.succ.
  pose proof (height_plug ctx (T c l x r)) as Hh. cbn [height] in Hh.
  rewrite (bind_Ret _ _ _ _ _ (field_right_holds _ _ _ _ _ _ H)).
  destruct r as [|cr rl rx rr]; cbn [root_of].
  - rewrite (bind_Ret _ _ _ _ _ (field_parent_holds _ _ _ _ _ _ H)).
    apply (climb_right_spec s fuel ctx c l x E H). lia.
  - rewrite (descend_left_spec s fuel (Frame R c x l :: ctx) cr rl rx rr H)
      by (cbn [height] in Hh; lia).
    f_equal. cbn [inorder]. by destruct (inorder rl).
Qed.

Lemma pred_focus s fuel ctx c l x r :
  holds s (plug ctx (T c l x r)) → (height (plug ctx (T c l x r)) < fuel)%nat →
  RBTreeNode.pred fuel (Some x) s = Ret (last (ctx_before ctx ++ inorder l)) s.
Proof.
  intros H Hf. unfold RBTreeNode.pred.
  pose proof (height_plug ctx (T c l x r)) as Hh. cbn [height] in Hh.
  rewrite (bind_Ret _ _ _ _ _ (field_left_holds _ _ _ _ _ _ H)).
  destruct l as [|cl ll lx lr]; cbn [root_of].
  - rewrite (bind_Ret _ _ _ _ _ (field_parent_holds _ _ _ _ _ _ H)).
    rewrite app_nil_r. apply (climb_left_spec s fuel ctx c E x r H). lia.
  - rewrite (descend_right_spec s fuel (Frame L c x r :: ctx) cl ll lx lr H)
      by (cbn [height] in Hh; lia).
    f_equal. cbn [inorder]. by rewrite app_assoc, !last_app_cons.
Qed.

Lemma NoDup_split_eq (l1 l2 l1' l2' : list ref) (x : ref) :
  NoDup (l1 ++ x :: l2) → l1 ++ x :: l2 = l1' ++ x :: l2' → l1 = l1' ∧ l2 = l2'.
Proof.
  revert l1'. induction l1 as [|a l1 IH]; intros l1' HND Heq.
  - destruct l1' as [|b l1']; simpl in *; [by simplify_eq|].
    injection Heq as <- ->. apply NoDup_cons_1_1 in HND.
    exfalso. apply HND. apply elem_of_app. right. by left.
  - destruct l1' as [|b l1']; simpl in *.
    + injection Heq as -> <-. apply NoDup_cons_1_1 in HND.
      exfalso. apply HND. apply elem_of_app. right. by left.
    + injection Heq as <- Heq. apply NoDup_cons_1_2 in HND.
      destruct (IH _ HND Heq) as [-> ->]. done.
Qed.

Lemma succ_spec s t fuel (l1 : list ref) x (l2 : list ref) :
  holds s t → inorder t = l1 ++ x :: l2 → (height t < fuel)%nat →
  RBTreeNode.succ fuel (Some x) s = Ret (head l2) s.
Proof.
  intros H Hin Hf.
  assert (Hx : x ∈ inorder t) by (rewrite Hin; apply elem_of_app; right; by left).
  destruct (in_inorder_plug _ _ Hx) as (ctx & c & l & r & ->).
  rewrite (succ_focus s fuel ctx c l x r H Hf). f_equal. f_equal.
  pose proof (holds_NoDup _ _ H) as HND.
  rewrite inorder_plug in Hin, HND. cbn [inorder] in Hin, HND.
  rewrite <- !app_assoc in Hin, HND. rewrite !app_assoc in Hin, HND.
  rewrite <- (app_assoc _ (x :: inorder r)) in Hin, HND. simpl in Hin, HND.
  by destruct (NoDup_split_eq _ _ _ _ _ HND Hin) as [_ ->].
Qed.

Lemma pred_spec s t fuel (l1 : list ref) x (l2 : list ref) :
  holds s t → inorder t = l1 ++ x :: l2 → (height t < fuel)%nat →
  RBTreeNode.pred fuel (Some x) s = Ret (last l1) s.
Proof.
  intros H Hin Hf.
  assert (Hx : x ∈ inorder t) by (rewrite Hin; apply elem_of_app; right; by left).
  destruct (in_inorder_plug _ _ Hx) as (ctx & c & l & r & ->).
  rewrite (pred_focus s fuel ctx c l x r H Hf). f_equal. f_equal.
  pose proof (holds_NoDup _ _ H) as HND.
  rewrite inorder_plug in Hin, HND. cbn [inorder] in Hin, HND.
  rewrite <- !app_assoc in Hin, HND. rewrite !app_assoc in Hin, HND.
  rewrite <- (app_assoc _ (x :: inorder r)) in Hin, HND. simpl in Hin, HND.
  by destruct (NoDup_split_eq _ _ _ _ _ HND Hin) as [-> _].
Qed.

Lemma min_spec s t fuel :
  holds s t → (height t ≤ fuel)%nat → RBTree.min fuel s = Ret (head (inorder t)) s.
Proof.
  intros H Hf. unfold RBTree.min. rewrite get_root_step.
  destruct H as (Hr & H'). rewrite Hr.
  destruct t as [|c l x r]; cbn [root_of]; [done|].
  apply (descend_left_spec s fuel [] c l x r); [by split|cbn [height] in Hf; lia].
Qed.

Lemma max_spec s t fuel :
  holds s t → (height t ≤ fuel)%nat → RBTree.max fuel s = Ret (last (inorder t)) s.
Proof.
  intros H Hf. unfold RBTree.max. rewrite get_root_step.
  destruct H as (Hr & H'). rewrite Hr.
  destruct t as [|c l x r]; cbn [root_of]; [done|].
  apply (descend_right_spec s fuel [] c l x r); [by split|cbn [height] in Hf; lia].
Qed.

Lemma empty_spec s t :
  holds s t → RBTree.empty s = Ret (bool_decide (inorder t = [])) s.
Proof.
  intros (Hr & _). unfold RBTree.empty. rewrite get_root_step, Hr.
  destruct t as [|c l x r]; cbn [root_of inorder]; [done|].
  unfold ret. f_equal. symmetry. apply bool_decide_eq_false.
  by destruct (inorder l).
Qed.

End Nav.

(** * Queries: find, lower, upper *)

(** Where a binary search for [key] ends in the tree [t0]: at a node whose
    key compares equal, or at a null link. *)
Definition found_at {K V} (compare : K → K → Z) (s : RBTree K V) (key : K)
    (t0 : tree) (p : ptr) : Prop :=
  match p with
  | Some y =>
      ∃ ctx c l r, t0 = plug ctx (T c l y r) ∧ path_ok compare s key ctx ∧
                   key_is s (λ k, compare key k = 0) y
  | None => ∃ ctx, t0 = plug ctx E ∧ path_ok compare s key ctx
  end.

(** What [lower] and [upper] return: the node with an equal key, or the
    in-order neighbour of the null link where the search ends. *)
Definition lower_at {K V} (compare : K → K → Z) (s : RBTree K V) (key : K)
    (t0 : tree) (p : ptr) : Prop :=
  (∃ y ctx c l r, p = Some y ∧ t0 = plug ctx (T c l y r) ∧
                  path_ok compare s key ctx ∧ key_is s (λ k, compare key k = 0) y) ∨
  (∃ ctx, t0 = plug ctx E ∧ path_ok compare s key ctx ∧ p = last (ctx_before ctx)).

Definition upper_at {K V} (compare : K → K → Z) (s : RBTree K V) (key : K)
    (t0 : tree) (p : ptr) : Prop :=
  (∃ y ctx c l r, p = Some y ∧ t0 = plug ctx (T c l y r) ∧
                  path_ok compare s key ctx ∧ key_is s (λ k, compare key k = 0) y) ∨
  (∃ ctx, t0 = plug ctx E ∧ path_ok compare s key ctx ∧ p = head (ctx_after ctx)).

(** Strictly increasing keys along a list of nodes. *)
Definition key_lt {K V} (compare : K → K → Z) (s : RBTree K V) (a b : ref) : Prop :=
  ∃ ka kb, key_of s a = Some ka ∧ key_of s b = Some kb ∧ compare ka kb < 0.

Definition bst {K V} (compare : K → K → Z) (s : RBTree K V) (t : tree) : Prop :=
  StronglySorted (key_lt compare s) (inorder t).

Section Search.
Context {K V : Type}.
Variable compare : K → K → Z.
Implicit Types (s : RBTree K V) (t l r : tree) (ctx : list frame).

Lemma find_loop_spec s key fuel : ∀ ctx t,
  holds s (plug ctx t) → path_ok compare s key ctx → (height t < fuel)%nat →
  ∃ p, RBTree.find_loop compare fuel key (root_of t) s = Ret p s ∧
       found_at compare s key (plug ctx t) p.
Proof.
  induction fuel as [|fuel IH]; intros ctx t H Hp Hf; [lia|].
  cbn [RBTree.find_loop]. destruct t as [|c l x r]; cbn [root_of].
  { exists None. split; [done|]. by exists ctx. }
  destruct (holds_focus _ _ _ _ _ _ H) as (n & Hn & _).
  rewrite (field_step _ _ _ _ _ Hn). cbv zeta beta.
  destruct (compare key (_key n) =? 0) eqn:E0.
  { apply Z.eqb_eq in E0. exists (Some x). split; [done|].
    exists ctx, c, l, r. do 2 (split; [done|]). exists (_key n).
    unfold key_of. by rewrite Hn. }
  apply Z.eqb_neq in E0.
  destruct (compare key (_key n) <? 0) eqn:E1.
  - apply Z.ltb_lt in E1.
    rewrite (bind_Ret _ _ _ _ _ (field_left_holds _ _ _ _ _ _ H)).
    apply (IH (Frame L c x r :: ctx) l H); [|cbn [height] in Hf; lia].
    by eapply (path_ok_cons _ _ _ L).
  - apply Z.ltb_ge in E1.
    rewrite (bind_Ret _ _ _ _ _ (field_right_holds _ _ _ _ _ _ H)).
    apply (IH (Frame R c x l :: ctx) r H); [|cbn [height] in Hf; lia].
    eapply (path_ok_cons _ _ _ R); [done|lia|done].
Qed.

Lemma find_spec s t key fuel :
  holds s t → (height t < fuel)%nat →
  ∃ p, RBTree.find compare fuel key s = Ret p s ∧ found_at compare s key t p.
Proof.
  intros H Hf. unfold RBTree.find. rewrite get_root_step.
  pose proof H as (-> & _). apply (find_loop_spec s key fuel [] t H); [constructor|done].
Qed.

Lemma lower_loop_spec s key fuel : ∀ ctx c l x r,
  holds s (plug ctx (T c l x r)) → path_ok compare s key ctx →
  (height (plug ctx (T c l x r)) + height (T c l x r) < fuel)%nat →
  ∃ p, RBTree.lower_loop compare fuel key (Some x) s = Ret p s ∧
       lower_at compare s key (plug ctx (T c l x r)) p.
Proof.
  induction fuel as [|fuel IH]; intros ctx c l x r H Hp Hf; [lia|].
  cbn [RBTree.lower_loop].
  destruct (holds_focus _ _ _ _ _ _ H) as (n & Hn & _).
  rewrite (field_step _ _ _ _ _ Hn). cbv zeta beta.
  destruct (compare key (_key n) =? 0) eqn:E0.
  { apply Z.eqb_eq in E0. exists (Some x). split; [done|]. left.
    exists x, ctx, c, l, r. do 3 (split; [done|]). exists (_key n).
    unfold key_of. by rewrite Hn. }
  apply Z.eqb_neq in E0.
  destruct (compare key (_key n) <? 0) eqn:E1.
  - apply Z.ltb_lt in E1.
    assert (Hp' : path_ok compare s key (Frame L c x r :: ctx))
      by by eapply (path_ok_cons _ _ _ L).
    rewrite (bind_Ret _ _ _ _ _ (field_left_holds _ _ _ _ _ _ H)).
    destruct l as [|cl ll lx lr]; cbn [root_of].
    + rewrite (pred_focus s fuel ctx c E x r H) by (cbn [height] in Hf; lia).
      eexists. split; [done|]. right. exists (Frame L c x r :: ctx).
      do 2 (split; [done|]). by rewrite app_nil_r.
    + apply (IH (Frame L c x r :: ctx) cl ll lx lr H Hp').
      cbn [height plug fill fdir fcolor fid fsib] in *. lia.
  - apply Z.ltb_ge in E1.
    assert (Hp' : path_ok compare s key (Frame R c x l :: ctx))
      by (eapply (path_ok_cons _ _ _ R); [done|lia|done]).
    rewrite (bind_Ret _ _ _ _ _ (field_right_holds _ _ _ _ _ _ H)).
    destruct r as [|cr rl rx rr]; cbn [root_of].
    + exists (Some x). split; [done|]. right. exists (Frame R c x l :: ctx).
      do 2 (split; [done|]). cbn [ctx_before fdir fsib fid].
      by rewrite app_assoc, last_snoc.
    + apply (IH (Frame R c x l :: ctx) cr rl rx rr H Hp').
      cbn [height plug fill fdir fcolor fid fsib] in *. lia.
Qed.

Lemma upper_loop_spec s key fuel : ∀ ctx c l x r,
  holds s (plug ctx (T c l x r)) → path_ok compare s key ctx →
  (height (plug ctx (T c l x r)) + height (T c l x r) < fuel)%nat →
  ∃ p, RBTree.upper_loop compare fuel key (Some x) s = Ret p s ∧
       upper_at compare s key (plug ctx (T c l x r)) p.
Proof.
  induction fuel as [|fuel IH]; intros ctx c l x r H Hp Hf; [lia|].
  cbn [RBTree.upper_loop].
  destruct (holds_focus _ _ _ _ _ _ H) as (n & Hn & _).
  rewrite (field_step _ _ _ _ _ Hn). cbv zeta beta.
  destruct (compare key (_key n) =? 0) eqn:E0.
  { apply Z.eqb_eq in E0. exists (Some x). split; [done|]. left.
    exists x, ctx, c, l, r. do 3 (split; [done|]). exists (_key n).
    unfold key_of. by rewrite Hn. }
  apply Z.eqb_neq in E0.
  destruct (compare key (_key n) <? 0) eqn:E1.
  - apply Z.ltb_lt in E1.
    assert (Hp' : path_ok compare s key (Frame L c x r :: ctx))
      by by eapply (path_ok_cons _ _ _ L).
    rewrite (bind_Ret _ _ _ _ _ (field_left_holds _ _ _ _ _ _ H)).
    destruct l as [|cl ll lx lr]; cbn [root_of].
    + exists (Some x). split; [done|]. right. exists (Frame L c x r :: ctx).
      by do 2 (split; [done|]).
    + apply (IH (Frame L c x r :: ctx) cl ll lx lr H Hp').
      cbn [height plug fill fdir fcolor fid fsib] in *. lia.
  - apply Z.ltb_ge in E1.
    assert (Hp' : path_ok compare s key (Frame R c x l :: ctx))
      by (eapply (path_ok_cons _ _ _ R); [done|lia|done]).
    rewrite (bind_Ret _ _ _ _ _ (field_right_holds _ _ _ _ _ _ H)).
    destruct r as [|cr rl rx rr]; cbn [root_of].
    + rewrite (succ_focus s fuel ctx c l x E H) by (cbn [height] in Hf; lia).
      eexists. split; [done|]. right. exists (Frame R c x l :: ctx).
      by do 2 (split; [done|]).
    + apply (IH (Frame R c x l :: ctx) cr rl rx rr H Hp').
      cbn [height plug fill fdir fcolor fid fsib] in *. lia.
Qed.

Lemma lower_spec s t key fuel :
  holds s t → (2 * height t < fuel)%nat →
  ∃ p, RBTree.lower compare fuel key s = Ret p s ∧ lower_at compare s key t p.
Proof.
  intros H Hf. unfold RBTree.lower. rewrite get_root_step.
  pose proof H as (-> & _). destruct t as [|c l x r]; cbn [root_of].
  - exists None. split; [done|]. right. exists [].
    split; [reflexivity|]. split; [constructor|reflexivity].
  - apply (lower_loop_spec s key fuel [] c l x r H); [constructor|].
    cbn [plug]. lia.
Qed.

Lemma upper_spec s t key fuel :
  holds s t → (2 * height t < fuel)%nat →
  ∃ p, RBTree.upper compare fuel key s = Ret p s ∧ upper_at compare s key t p.
Proof.
  intros H Hf. unfold RBTree.upper. rewrite get_root_step.
  pose proof H as (-> & _). destruct t as [|c l x r]; cbn [root_of].
  - exists None. split; [done|]. right. exists [].
    split; [reflexivity|]. split; [constructor|reflexivity].
  - apply (upper_loop_spec s key fuel [] c l x r H); [constructor|].
    cbn [plug]. lia.
Qed.

End Search.

(** * Removal *)

Definition blacken (t : tree) : tree :=
  match t with E => E | T _ l x r => T Black l x r end.

Lemma rb_red_inv l x r n :
  rb (T Red l x r) n → color_of l = Black ∧ color_of r = Black ∧ rb l n ∧ rb r n.
Proof. done. Qed.

Lemma rb_black_inv l x r n : rb (T Black l x r) (S n) → rb l n ∧ rb r n.
Proof. done. Qed.

Lemma rb_E_inv n : rb E n → n = 0%nat.
Proof. done. Qed.

(** Brings the colouring hypotheses into a form with one fact per subtree. *)
Ltac rb_norm :=
  repeat match goal with
  | H : rb E ?n |- _ =>
      apply rb_E_inv in H; first [subst n | discriminate H | clear H]
  | H : rb (T Black _ _ _) 0%nat |- _ => destruct H
  | H : rb (T Black _ _ _) (S _) |- _ => apply rb_black_inv in H; destruct H as [? ?]
  | H : rb (T Black _ _ _) ?n |- _ =>
      is_var n; destruct n; [destruct H|]
  | H : rb (T Red _ _ _) _ |- _ => apply rb_red_inv in H; destruct H as (? & ? & ? & ?)
  | H : color_of (T _ _ _ _) = _ |- _ => cbn [color_of] in H; first [discriminate H | clear H]
  | H : color_of E = _ |- _ => clear H
  | H : ctx_rb _ (_ :: _) _ |- _ => cbn [ctx_rb fcolor fsib] in H
  | H : _ ∧ _ |- _ => destruct H
  end.

Ltac rb_fin :=
  lazymatch goal with
  | |- is_rbtree (plug ?c ?t) => eapply (plug_rb c t)
  | |- is_rbtree ?t => eapply (plug_rb [] t)
  end;
  cycle 1;
  [ cbn [color_of ctx_rb];
    first [eassumption | apply ctx_rb_weaken; eassumption | reflexivity]
  | cbn [rb color_of]; repeat split; first [assumption | reflexivity] ].

Section FixupRemove.
Context {K V : Type}.
Implicit Types (s : RBTree K V).

(** The subtree [t] in the hole is one black node short of what the frames
    around it expect. *)
Lemma fixupRemove_spec fuel : ∀ ctx s t n,
  holds s (plug ctx t) → rb t n → color_of t = Black → ctx_rb Black ctx (S n) →
  (length ctx < fuel)%nat →
  returns (RBTree._fixupRemove_loop fuel (root_of t) (ctx_par None ctx) s) (λ _ s', ∃ t',
     holds s' t' ∧ is_rbtree t' ∧ inorder t' = inorder (plug ctx t)).
Proof.
  induction fuel as [|fuel IH]; intros ctx s t n H Hrb Hblk Hctx Hfuel; [lia|].
  pose proof (holds_NoDup _ _ H) as HND.
  cbn [RBTree._fixupRemove_loop].
  destruct ctx as [|[d cp p sib] ctx']; cbn [ctx_par fid].
  { (* the deficit reached the root *)
    sdone. exists t. split; [done|]. split; [|done]. split; eauto. }
  assert (Hfin : ∀ s1 t1,
    holds s1 (plug ctx' t1) → is_rbtree (plug ctx' t1) →
    inorder (plug ctx' t1) = inorder (plug (Frame d cp p sib :: ctx') t) →
    ∃ t', holds s1 t' ∧ is_rbtree t' ∧
          inorder t' = inorder (plug (Frame d cp p sib :: ctx') t)) by eauto.
  assert (Hrec : ∀ s1 t1 m,
    holds s1 (plug ctx' t1) → ctx_rb Black ctx' (S m) → rb t1 m →
    color_of t1 = Black →
    inorder (plug ctx' t1) = inorder (plug (Frame d cp p sib :: ctx') t) →
    returns (RBTree._fixupRemove_loop fuel (root_of t1) (ctx_par None ctx') s1)
      (λ _ s', ∃ t', holds s' t' ∧ is_rbtree t' ∧
                     inorder t' = inorder (plug (Frame d cp p sib :: ctx') t))).
  { intros s1 t1 m H1 Hc1 Hr1 Hb1 Hin. eapply returns_mono.
    - apply (IH ctx' s1 t1 m); [done..|cbn [length] in Hfuel; lia].
    - intros _ s' (t' & ? & ? & Hin'). exists t'. by rewrite Hin', Hin. }
  clear IH.
  destruct d, cp; rb_norm;
    (destruct sib as [|[] sl sx sr]; rb_norm; try done);
    scbn_in H.
  - (* left child, red parent, black sibling *)
    destruct sr as [|[] srl srx srr], sl as [|[] sll slx slr]; rb_norm; ssteps;
      try sdone; (apply (Hfin _ _ H); [rb_fin|inorder_tac]).
  - (* left child, black parent, red sibling *)
    destruct sl as [|[] sll slx slr]; rb_norm; try done.
    destruct sr as [|[] srl srx srr]; rb_norm; try done.
    scbn_in H.
    destruct slr as [|[] slrl slrx slrr], sll as [|[] slll sllx sllr]; rb_norm; ssteps;
      try sdone; (apply (Hfin _ _ H); [rb_fin|inorder_tac]).
  - (* left child, black parent, black sibling *)
    destruct sr as [|[] srl srx srr], sl as [|[] sll slx slr]; rb_norm; ssteps;
      try sdone;
      first
        [ (apply (Hfin _ _ H); [rb_fin|inorder_tac])
        | lazymatch type of H with
          | holds _ (plug ctx' ?t1) =>
              eapply (Hrec _ t1 _ H);
              [eassumption|cbn [rb color_of]; repeat split; assumption
              |reflexivity|inorder_tac]
          end ].
  - (* right child, red parent, black sibling *)
    destruct sl as [|[] sll slx slr], sr as [|[] srl srx srr]; rb_norm; ssteps;
      try sdone; (apply (Hfin _ _ H); [rb_fin|inorder_tac]).
  - (* right child, black parent, red sibling *)
    destruct sl as [|[] sll slx slr]; rb_norm; try done.
    destruct sr as [|[] srl srx srr]; rb_norm; try done.
    scbn_in H.
    destruct srl as [|[] srll srlx srlr], srr as [|[] srrl srrx srrr]; rb_norm; ssteps;
      try sdone; (apply (Hfin _ _ H); [rb_fin|inorder_tac]).
  - (* right child, black parent, black sibling *)
    destruct sl as [|[] sll slx slr], sr as [|[] srl srx srr]; rb_norm; ssteps;
      try sdone;
      first
        [ (apply (Hfin _ _ H); [rb_fin|inorder_tac])
        | lazymatch type of H with
          | holds _ (plug ctx' ?t1) =>
              eapply (Hrec _ t1 _ H);
              [eassumption|cbn [rb color_of]; repeat split; assumption
              |reflexivity|inorder_tac]
          end ].
Qed.

End FixupRemove.
Section Remove.
Context {K V : Type}.
Implicit Types (s : RBTree K V) (t l r : tree) (ctx : list frame).

Lemma ctx_root_Some ctx x : ∃ y, ctx_root ctx (Some x) = Some y.
Proof. revert x. induction ctx as [|f ctx IH]; intros x; simpl; eauto. Qed.

Lemma ctx_par_snoc top ctx f :
  ctx_par top (ctx ++ [f]) = ctx_par (Some (fid f)) ctx.
Proof. by destruct ctx. Qed.

Lemma remove_descend_spec s fuel : ∀ rctx ctx0 cy y yr cm m mr par,
  Forall (λ f, fdir f = L) rctx →
  holds s (plug ctx0 (T cy (plug rctx (T cm E m mr)) y yr)) →
  (length rctx < fuel)%nat →
  RBTree.remove_descend fuel par (Some y) s = Ret (ctx_par (Some y) rctx, Some m) s.
Proof.
  induction fuel as [|fuel IH]; intros rctx ctx0 cy y yr cm m mr par HL H Hf; [lia|].
  cbn [RBTree.remove_descend].
  rewrite (bind_Ret _ _ _ _ _ (field_left_holds _ _ _ _ _ _ H)).
  destruct rctx as [|f rctx' _] using rev_ind.
  - cbn [plug root_of] in *.
    rewrite (bind_Ret _ _ _ _ _ (field_left_holds s (Frame L cy y yr :: ctx0) _ _ _ _ H)).
    done.
  - apply Forall_app in HL as [HL Hf']. rewrite Forall_singleton in Hf'.
    destruct f as [d cz z zsib]. cbn [fdir] in Hf'. subst d.
    rewrite plug_app in H |- *. cbn [plug fill fdir fcolor fid fsib root_of] in H |- *.
    rewrite (bind_Ret _ _ _ _ _
      (field_left_holds s (Frame L cy y yr :: ctx0) cz _ z zsib H)).
    rewrite root_of_plug. cbn [root_of]. destruct (ctx_root_Some rctx' m) as [w ->].
    rewrite ctx_par_snoc. cbn [fid].
    apply (IH rctx' (Frame L cy y yr :: ctx0) cz z zsib cm m mr (Some y) HL H).
    rewrite length_app in Hf. simpl in Hf. lia.
Qed.

End Remove.
Section RemovePure.

Lemma inorder_blacken t : inorder (blacken t) = inorder t.
Proof. by destruct t. Qed.

Lemma leftmost_decomp t :
  t ≠ E → ∃ rctx cm m mr, t = plug rctx (T cm E m mr) ∧ Forall (λ f, fdir f = L) rctx.
Proof.
  induction t as [|c l IHl x r _]; [done|]. intros _.
  destruct l as [|cl ll lx lr].
  - exists [], c, x, r. by split.
  - destruct IHl as (rctx & cm & m & mr & Hl & HL); [done|].
    exists (rctx ++ [Frame L c x r]), cm, m, mr. split.
    + rewrite plug_app, <- Hl. done.
    + apply Forall_app. split; [done|]. by apply Forall_singleton.
Qed.

(** Two contexts with the same shape: directions, colours and siblings agree,
    only the node references may differ. *)
Definition same_frame (f g : frame) : Prop :=
  fdir f = fdir g ∧ fcolor f = fcolor g ∧ fsib f = fsib g.

Lemma ctx_rb_ext ctx ctx' : Forall2 same_frame ctx ctx' →
  ∀ c n, ctx_rb c ctx n → ctx_rb c ctx' n.
Proof.
  induction 1 as [|f g ctx ctx' (Hd & Hc & Hs) _ IH]; intros c n; [done|].
  cbn [ctx_rb]. rewrite <- Hc, <- Hs. destruct (fcolor f); intuition auto.
Qed.

Lemma same_frame_refl ctx : Forall2 same_frame ctx ctx.
Proof. induction ctx; constructor; [by repeat split|done]. Qed.

(** Taking out a node without left child: either the colouring is intact once
    its right child (necessarily a red leaf, if present) is painted black, or
    a black leaf is gone and the hole is one black node short. *)
Lemma rb_remove_leftless ctx ctx' cm m mr :
  is_rbtree (plug ctx (T cm E m mr)) → Forall2 same_frame ctx ctx' →
  (mr = E ∧ cm = Black ∧ ctx_rb Black ctx' 1) ∨
  ((mr ≠ E ∨ cm = Red) ∧ is_rbtree (plug ctx' (blacken mr))).
Proof.
  intros (n & Hn & Hc)%rb_plug_inv Hs. cbn [color_of] in Hc.
  apply (ctx_rb_ext _ _ Hs) in Hc.
  destruct cm, mr as [|[] a y b]; rb_norm; try done.
  - right. split; [by right|]. cbn [blacken]. by rb_fin.
  - left. done.
  - right. split; [by left|]. cbn [blacken]. by rb_fin.
Qed.

Lemma rb_remove_rightless ctx cm ml m :
  is_rbtree (plug ctx (T cm ml m E)) → ml ≠ E →
  is_rbtree (plug ctx (blacken ml)).
Proof.
  intros (n & Hn & Hc)%rb_plug_inv Hne. cbn [color_of] in Hc.
  destruct cm, ml as [|[] a y b]; rb_norm; try done.
  cbn [blacken]. by rb_fin.
Qed.

End RemovePure.
Section RemoveSpec.
Context {K V : Type}.
Implicit Types (s : RBTree K V) (t l r : tree) (ctx : list frame).

Lemma ctx_before_left rctx : Forall (λ f, fdir f = L) rctx → ctx_before rctx = [].
Proof.
  induction 1 as [|f rctx Hf _ IH]; [done|]. cbn [ctx_before]. by rewrite Hf.
Qed.

Lemma ctx_par_app_cons top rctx f ctx :
  ctx_par top (rctx ++ f :: ctx) = ctx_par (Some (fid f)) rctx.
Proof. by destruct rctx. Qed.

Lemma remove_spec s fuel ctx c l x r :
  holds s (plug ctx (T c l x r)) → is_rbtree (plug ctx (T c l x r)) →
  (height (plug ctx (T c l x r)) < fuel)%nat →
  returns (RBTree.remove fuel (Some x) s) (λ _ s', ∃ t',
    holds s' t' ∧ is_rbtree t' ∧
    inorder t' = ctx_before ctx ++ inorder l ++ inorder r ++ ctx_after ctx).
Proof.
  intros H Hrb Hf. unfold RBTree.remove.
  (* what happens once the node has been spliced out *)
  assert (Hend : ∀ ctx' t' reb s1,
    holds s1 (plug ctx' t') →
    inorder (plug ctx' t') = ctx_before ctx ++ inorder l ++ inorder r ++ ctx_after ctx →
    (length ctx' < fuel)%nat →
    (t' = E ∧ reb = ctx_par None ctx' ∧ (ctx' = [] ∨ ctx_rb Black ctx' 1)) ∨
    (reb = None ∧ is_rbtree (plug ctx' t')) →
    returns
      (match reb with
       | Some _ => RBTree._fixupRemove fuel reb
       | None => ret ()
       end s1)
      (λ _ s', ∃ t', holds s' t' ∧ is_rbtree t' ∧
         inorder t' = ctx_before ctx ++ inorder l ++ inorder r ++ ctx_after ctx)).
  { intros ctx' t' reb s1 H1 Hin Hlen [(-> & -> & Hc)|(-> & Hr)].
    - destruct ctx' as [|f ctx'']; cbn [ctx_par].
      + sdone. exists E. split; [done|]. split; [|done]. split; [done|by exists 0%nat].
      + destruct Hc as [|Hc]; [done|].
        eapply returns_mono.
        { apply (fixupRemove_spec fuel (f :: ctx'') s1 E 0 H1); [done|done|done|done]. }
        intros _ s' (t' & ? & ? & Hin'). exists t'. by rewrite Hin', Hin.
    - sdone. eauto. }
  sstep.
  destruct l as [|cl ll lx lr]; scbn.
  - (* no left child: the right child moves up *)
    eapply (returns_bind _ _ _ (λ reb s', holds s' (plug ctx (blacken r)) ∧
      reb = match r, c with E, Black => ctx_par None ctx | _, _ => None end)).
    { clear Hend Hrb Hf.
      apply holds_plug_inv in H as (Hroot & Hrep & Hctx & HND).
      unfold RBTree._replaceNode.
      destruct c, r as [|cr rl rx rr], ctx as [|[[] cp p sib] ctx']; open_rep;
        pose proof HND as HND'; occ_init; cbn [blacken]; hsteps.
      all: apply returns_Ret; (split; [holds_goal_tac|reflexivity]). }
    intros reb s1 [H1 ->]. cbv beta.
    pose proof (height_plug ctx (T c E x r)) as Hh.
    apply (Hend ctx (blacken r) _ s1 H1);
      [rewrite inorder_plug, inorder_blacken; reflexivity|lia|].
    destruct (rb_remove_leftless ctx ctx c x r Hrb (same_frame_refl _))
      as [(-> & -> & Hc)|(Hne & Hr)].
    + left. auto.
    + right. split; [|done]. destruct r, c; try done. by destruct Hne.
  - destruct r as [|cr rl rx rr].
    + (* no right child: the left child moves up *)
      eapply (returns_bind _ _ _ (λ reb s',
        holds s' (plug ctx (T Black ll lx lr)) ∧ reb = None)).
      { clear Hend Hrb Hf.
        apply holds_plug_inv in H as (Hroot & Hrep & Hctx & HND).
        unfold RBTree._replaceNode.
        destruct ctx as [|[[] cp p sib] ctx']; open_rep;
          pose proof HND as HND'; occ_init; hsteps.
        all: apply returns_Ret; (split; [holds_goal_tac|reflexivity]). }
      intros reb s1 [H1 ->]. cbv beta.
      pose proof (height_plug ctx (T c (T cl ll lx lr) x E)) as Hh.
      apply (Hend ctx (T Black ll lx lr) None s1 H1);
        [rewrite inorder_plug; cbn [inorder app]; reflexivity|lia|].
      right. split; [done|].
      by apply (rb_remove_rightless ctx c (T cl ll lx lr) x).
    + destruct rl as [|crl rll rlx rlr].
      * (* the right child has no left child and takes the node's place *)
        eapply (returns_bind _ _ _ (λ reb s',
          holds s' (plug (Frame R c rx (T cl ll lx lr) :: ctx) (blacken rr)) ∧
          reb = match rr, cr with E, Black => Some rx | _, _ => None end)).
        { clear Hend Hrb Hf.
          apply holds_plug_inv in H as (Hroot & Hrep & Hctx & HND).
          unfold RBTree._replaceNode.
          destruct cr, rr as [|crr rrl rrx rrr], ctx as [|[[] cp p sib] ctx'];
            open_rep; pose proof HND as HND'; occ_init; cbn [blacken]; hsteps.
          all: apply returns_Ret; (split; [holds_goal_tac|reflexivity]). }
        intros reb s1 [H1 ->]. cbv beta.
        pose proof (height_plug ctx (T c (T cl ll lx lr) x (T cr E rx rr))) as Hh.
        cbn [height] in Hh.
        apply (Hend (Frame R c rx (T cl ll lx lr) :: ctx) (blacken rr) _ s1 H1);
          [rewrite !inorder_plug, inorder_blacken;
           cbn [inorder ctx_before ctx_after fdir fid fsib app];
           rewrite <- ?app_assoc; cbn [app]; reflexivity
          |cbn [length]; lia|].
        destruct (rb_remove_leftless (Frame R c x (T cl ll lx lr) :: ctx)
          (Frame R c rx (T cl ll lx lr) :: ctx) cr rx rr Hrb) as [(-> & -> & Hc)|(Hne & Hr)].
        { constructor; [by repeat split|apply same_frame_refl]. }
        -- left. auto.
        -- right. split; [|done]. destruct rr, cr; try done. by destruct Hne.
      * (* the successor is the leftmost node below the right child *)
        destruct (leftmost_decomp (T crl rll rlx rlr))
          as (rctx0 & cm & m & mr & Hrl & HL); [done|].
        rewrite Hrl in Hrb, Hf, Hend |- *.
        pose proof (height_plug ctx
          (T c (T cl ll lx lr) x (T cr (plug rctx0 (T cm E m mr)) rx rr))) as Hh.
        cbn [height] in Hh.
        pose proof (height_plug rctx0 (T cm E m mr)) as Hh'. cbn [height] in Hh'.
        eapply (returns_bind _ _ _ (λ reb s',
          holds s' (plug ctx (T c (T cl ll lx lr) m
                      (T cr (plug rctx0 (blacken mr)) rx rr))) ∧
          reb = match mr, cm with
                | E, Black => ctx_par (Some rx) rctx0
                | _, _ => None
                end)).
        { clear Hend Hrb. ssteps. rewrite Hrl in H.
          rewrite (bind_Ret _ _ _ _ _
            (remove_descend_spec s fuel rctx0 (Frame R c x (T cl ll lx lr) :: ctx)
               cr rx rr cm m mr (Some rx) HL H ltac:(lia))).
          clear Hf Hh Hh' Hrl.
          apply holds_plug_inv in H as (Hroot & Hrep & Hctx & HND).
          unfold RBTree._replaceNode.
          destruct rctx0 as [|[[] cq q qsib] rctx1];
            [| |by apply Forall_cons in HL as [[=] _]]; clear HL.
          all: destruct cm, mr as [|cmr mrl mrx mrr], ctx as [|[[] cp p sib] ctx'];
            open_rep; rewrite ?root_of_plug in *;
            pose proof HND as HND'; occ_init; cbn [blacken]; hsteps.
          all: apply returns_Ret; (split; [holds_goal_tac|reflexivity]). }
        intros reb s1 [H1 ->]. cbv beta.
        set (ctxA := rctx0 ++ Frame L cr rx rr :: Frame R c x (T cl ll lx lr) :: ctx).
        set (ctxB := rctx0 ++ Frame L cr rx rr :: Frame R c m (T cl ll lx lr) :: ctx).
        assert (Hs : Forall2 same_frame ctxA ctxB).
        { apply Forall2_app; [apply same_frame_refl|].
          constructor; [by repeat split|].
          constructor; [by repeat split|apply same_frame_refl]. }
        assert (HrbA : is_rbtree (plug ctxA (T cm E m mr))).
        { unfold ctxA. by rewrite plug_app. }
        assert (H1B : holds s1 (plug ctxB (blacken mr))).
        { unfold ctxB. by rewrite plug_app. }
        apply (Hend ctxB (blacken mr)
          (match mr, cm with E, Black => ctx_par (Some rx) rctx0 | _, _ => None end)
          s1 H1B).
        { unfold ctxB. rewrite plug_app. cbn [plug fill fdir fid fsib fcolor].
          rewrite !inorder_plug. cbn [inorder]. rewrite !inorder_plug, inorder_blacken.
          rewrite (ctx_before_left rctx0 HL). cbn [inorder app].
          repeat (progress (rewrite <- ?app_assoc; cbn [app])). reflexivity. }
        { unfold ctxB. rewrite length_app. cbn [length]. lia. }
        destruct (rb_remove_leftless ctxA ctxB cm m mr HrbA Hs)
          as [(-> & -> & Hc)|(Hne & Hr)].
        -- left. split; [done|]. split; [|by right].
           unfold ctxB. by rewrite ctx_par_app_cons.
        -- right. split; [|done]. destruct mr, cm; try done. by destruct Hne.
Qed.

End RemoveSpec.

(** * Search-tree order *)

Section Bst.
Context {K V : Type}.
Variable compare : K → K → Z.
Hypothesis Hcmp : StrictTotal compare.
Local Set Default Proof Using "Type*".
Implicit Types (s : RBTree K V) (t l r : tree) (ctx : list frame) (x y z : ref).

Lemma cmp_refl k : compare k k = 0.
Proof. by apply (cmp_eq compare Hcmp). Qed.

Lemma key_lt_trans s x y z :
  key_lt compare s x y → key_lt compare s y z → key_lt compare s x z.
Proof.
  intros (kx & ky & Hx & Hy & H1) (ky' & kz & Hy' & Hz & H2).
  rewrite Hy in Hy'. injection Hy' as <-.
  exists kx, kz. do 2 (split; [done|]). by apply (cmp_trans compare Hcmp _ ky).
Qed.

Lemma key_lt_irrefl s x : ¬ key_lt compare s x x.
Proof.
  intros (kx & kx' & Hx & Hx' & H). rewrite Hx in Hx'. injection Hx' as <-.
  rewrite cmp_refl in H. lia.
Qed.

Lemma key_lt_keys s s' x y :
  (∀ z, key_of s' z = key_of s z) → key_lt compare s x y → key_lt compare s' x y.
Proof using Type. intros Hk (kx & ky & ? & ? & ?). exists kx, ky. by rewrite !Hk. Qed.

Lemma StronglySorted_impl {A} (R R' : relation A) (xs : list A) :
  (∀ a b, a ∈ xs → b ∈ xs → R a b → R' a b) →
  StronglySorted R xs → StronglySorted R' xs.
Proof.
  induction xs as [|a xs IH]; intros HR; [constructor|].
  rewrite !StronglySorted_cons. intros [Ha Hs]. split.
  - rewrite Forall_forall in Ha |- *. intros b Hb.
    apply HR; [left|by right|by apply Ha].
  - apply IH; [|done]. intros b b' ? ?. apply HR; by right.
Qed.

Lemma bst_keys s s' t :
  (∀ z, z ∈ inorder t → key_of s' z = key_of s z) → bst compare s t → bst compare s' t.
Proof using Type.
  intros Hk. apply StronglySorted_impl.
  intros a b Ha Hb (ka & kb & ? & ? & ?). exists ka, kb. by rewrite !Hk.
Qed.

Lemma bst_same s s' t : kv_same s s' → bst compare s t → bst compare s' t.
Proof using Type. intros Hs. apply bst_keys. intros z _. by destruct (Hs z). Qed.

(** Distinct members of a search tree have distinct keys. *)
Lemma bst_key_inj s t x y :
  bst compare s t → x ∈ inorder t → y ∈ inorder t →
  is_Some (key_of s x) → key_of s x = key_of s y → x = y.
Proof.
  unfold bst. intros Hs Hx Hy [k Hk] Heq.
  apply list_elem_of_split in Hx as (l1 & l2 & Hl). rewrite Hl in Hs, Hy.
  apply StronglySorted_app in Hs as (H12 & _ & H2).
  apply StronglySorted_cons in H2 as [H2 _]. rewrite Forall_forall in H2.
  assert (Hno : ¬ key_lt compare s x y ∧ ¬ key_lt compare s y x).
  { split; intros (ka & kb & Ha & Hb & Hlt); rewrite <- Heq, Hk in *;
      simplify_eq; rewrite cmp_refl in Hlt; lia. }
  apply elem_of_app in Hy as [Hy|Hy].
  - destruct Hno as [_ []]. apply H12; [done|left].
  - apply elem_of_cons in Hy as [->|Hy]; [done|].
    destruct Hno as [[] _]. by apply H2.
Qed.

(** Along a search path everything to the left of the hole is smaller than the
    key searched for, and everything to the right is larger. *)
Lemma path_bounds s key ctx : ∀ t,
  bst compare s (plug ctx t) → path_ok compare s key ctx →
  Forall (key_is s (λ k, 0 < compare key k)) (ctx_before ctx) ∧
  Forall (key_is s (λ k, compare key k < 0)) (ctx_after ctx).
Proof.
  induction ctx as [|[d c x sib] ctx IH]; intros t Hs Hp; [by split|].
  apply Forall_cons in Hp as [(kx & Hkx & Hx) Hp]. cbn [fdir fid] in Hkx, Hx.
  destruct (IH _ Hs Hp) as [Hb Ha].
  unfold bst in Hs. cbn [plug] in Hs. rewrite inorder_plug in Hs.
  apply StronglySorted_app_1_r, StronglySorted_app_1_l in Hs.
  destruct d; cbn [fill fdir fid fsib fcolor inorder ctx_before ctx_after] in *.
  - split; [done|].
    apply StronglySorted_app_1_r, StronglySorted_cons in Hs as [Hs _].
    apply Forall_cons. split; [by exists kx|].
    apply Forall_app. split; [|done].
    rewrite Forall_forall in Hs |- *. intros z Hz.
    destruct (Hs z Hz) as (kx' & kz & Hkx' & Hkz & Hlt).
    rewrite Hkx in Hkx'. injection Hkx' as <-.
    exists kz. split; [done|]. by apply (cmp_trans compare Hcmp _ kx).
  - split; [|done].
    apply Forall_app. split; [done|].
    apply Forall_app. split; [|apply Forall_singleton; by exists kx].
    rewrite Forall_forall. intros z Hz.
    destruct (StronglySorted_app_1_elem_of _ _ _ z x Hs Hz) as (kz & kx' & Hkz & Hkx' & Hlt);
      [left|].
    rewrite Hkx in Hkx'. injection Hkx' as <-.
    exists kz. split; [done|].
    apply (cmp_flip compare Hcmp). apply (cmp_trans compare Hcmp _ kx); [done|].
    by apply (cmp_flip compare Hcmp).
Qed.

End Bst.

(** * Well-formed tree objects *)

(** [tree_of s live t]: the store of [s] holds the red-black tree [t], whose
    nodes are exactly the members [live]. *)
Definition tree_of {K V} (s : RBTree K V) (live : gset ref) (t : tree) : Prop :=
  holds s t ∧ is_rbtree t ∧ ∀ x, x ∈ live ↔ x ∈ inorder t.

(** A red-black tree object, and one that is a search tree as well. *)
Definition colored {K V} (s : RBTree K V) (live : gset ref) : Prop :=
  ∃ t, tree_of s live t.

Definition wf {K V} (compare : K → K → Z) (s : RBTree K V) (live : gset ref) : Prop :=
  ∃ t, tree_of s live t ∧ bst compare s t.

(** [key] is the key of a member. *)
Definition stored {K V} (s : RBTree K V) (live : gset ref) (key : K) : Prop :=
  ∃ x, x ∈ live ∧ key_of s x = Some key.

Section Queries.
Context {K V : Type}.
Variable compare : K → K → Z.
Hypothesis Hcmp : StrictTotal compare.
Local Set Default Proof Using "Type*".
Implicit Types (s : RBTree K V) (t l r : tree) (ctx : list frame) (x y z : ref).
Implicit Types (live : gset ref).

Lemma key_is_of s (P : K → Prop) x k : key_is s P x → key_of s x = Some k → P k.
Proof using Type. intros (k' & Hk & HP) Hk'. congruence. Qed.

(** What [find] returns, in terms of the keys in the tree. *)
Lemma found_at_sem s t key p :
  bst compare s t → found_at compare s key t p →
  match p with
  | Some y => y ∈ inorder t ∧ key_of s y = Some key
  | None => ∀ x, x ∈ inorder t → key_of s x ≠ Some key
  end.
Proof.
  intros Hs. destruct p as [y|]; cbn [found_at].
  - intros (ctx & c & l & r & -> & _ & k & Hk & Hz).
    apply (cmp_eq compare Hcmp) in Hz as <-. split; [|done].
    rewrite inorder_plug. cbn [inorder]. set_solver.
  - intros (ctx & -> & Hp). destruct (path_bounds compare Hcmp s key ctx E Hs Hp) as [Hb Ha].
    rewrite inorder_plug. cbn [inorder app]. intros x Hx Hk.
    rewrite Forall_forall in Hb, Ha.
    apply elem_of_app in Hx as [Hx|Hx].
    + pose proof (key_is_of _ _ _ _ (Hb x Hx) Hk) as Hlt. cbv beta in Hlt.
      rewrite (cmp_refl compare Hcmp) in Hlt. lia.
    + pose proof (key_is_of _ _ _ _ (Ha x Hx) Hk) as Hlt. cbv beta in Hlt.
      rewrite (cmp_refl compare Hcmp) in Hlt. lia.
Qed.

Lemma last_Some_split {A} (xs : list A) (y : A) : last xs = Some y → ∃ xs', xs = xs' ++ [y].
Proof.
  destruct xs as [|x xs _] using rev_ind; [done|].
  rewrite last_snoc. intros [= ->]. eauto.
Qed.

Lemma last_None_nil {A} (xs : list A) : last xs = None → xs = [].
Proof. destruct xs as [|x xs _] using rev_ind; [done|]. by rewrite last_snoc. Qed.

(** What [lower] returns: the member with the greatest key not above [key]. *)
Lemma lower_at_sem s t key p :
  bst compare s t → lower_at compare s key t p →
  match p with
  | Some y =>
      y ∈ inorder t ∧ ∃ ky, key_of s y = Some ky ∧ compare ky key ≤ 0 ∧
        ∀ x kx, x ∈ inorder t → key_of s x = Some kx → compare kx key ≤ 0 →
                compare kx ky ≤ 0
  | None => ∀ x kx, x ∈ inorder t → key_of s x = Some kx → 0 < compare kx key
  end.
Proof.
  intros Hs [(y & ctx & c & l & r & -> & -> & _ & k & Hk & Hz)|(ctx & -> & Hp & ->)].
  - apply (cmp_eq compare Hcmp) in Hz as <-. split.
    { rewrite inorder_plug. cbn [inorder]. set_solver. }
    exists key. split; [done|]. rewrite (cmp_refl compare Hcmp). split; [lia|]. auto.
  - destruct (path_bounds compare Hcmp s key ctx E Hs Hp) as [Hb Ha].
    rewrite Forall_forall in Hb, Ha. unfold bst in Hs.
    rewrite inorder_plug in Hs |- *. cbn [inorder app] in Hs |- *.
    assert (Hafter : ∀ x kx, x ∈ ctx_after ctx → key_of s x = Some kx → 0 < compare kx key).
    { intros x kx Hx Hk. apply (cmp_flip compare Hcmp).
      apply (key_is_of _ _ _ _ (Ha x Hx) Hk). }
    destruct (last (ctx_before ctx)) as [y|] eqn:El.
    + apply last_Some_split in El as [B HB]. rewrite HB in Hs, Hb |- *.
      destruct (Hb y) as (ky & Hky & Hlt); [set_solver|].
      split; [set_solver|]. exists ky. split; [done|].
      apply (cmp_flip compare Hcmp) in Hlt. split; [lia|].
      intros x kx Hx Hkx Hle.
      rewrite !elem_of_app, list_elem_of_singleton in Hx. destruct Hx as [[Hx| ->]|Hx].
      * apply StronglySorted_app_1_l in Hs.
        destruct (StronglySorted_app_1_elem_of _ _ _ x y Hs Hx) as (k1 & k2 & ? & ? & ?);
          [set_solver|]. simplify_eq. lia.
      * simplify_eq. rewrite (cmp_refl compare Hcmp). lia.
      * specialize (Hafter x kx Hx Hkx). lia.
    + apply last_None_nil in El. rewrite El in *. cbn [app]. auto.
Qed.

(** What [upper] returns: the member with the least key not below [key]. *)
Lemma upper_at_sem s t key p :
  bst compare s t → upper_at compare s key t p →
  match p with
  | Some y =>
      y ∈ inorder t ∧ ∃ ky, key_of s y = Some ky ∧ 0 ≤ compare ky key ∧
        ∀ x kx, x ∈ inorder t → key_of s x = Some kx → 0 ≤ compare kx key →
                0 ≤ compare kx ky
  | None => ∀ x kx, x ∈ inorder t → key_of s x = Some kx → compare kx key < 0
  end.
Proof.
  intros Hs [(y & ctx & c & l & r & -> & -> & _ & k & Hk & Hz)|(ctx & -> & Hp & ->)].
  - apply (cmp_eq compare Hcmp) in Hz as <-. split.
    { rewrite inorder_plug. cbn [inorder]. set_solver. }
    exists key. split; [done|]. rewrite (cmp_refl compare Hcmp). split; [lia|]. auto.
  - destruct (path_bounds compare Hcmp s key ctx E Hs Hp) as [Hb Ha].
    rewrite Forall_forall in Hb, Ha. unfold bst in Hs.
    rewrite inorder_plug in Hs |- *. cbn [inorder app] in Hs |- *.
    assert (Hbefore : ∀ x kx, x ∈ ctx_before ctx → key_of s x = Some kx → compare kx key < 0).
    { intros x kx Hx Hk. apply (cmp_flip compare Hcmp).
      apply (key_is_of _ _ _ _ (Hb x Hx) Hk). }
    destruct (ctx_after ctx) as [|y A] eqn:El; cbn [head].
    + rewrite app_nil_r. auto.
    + destruct (Ha y) as (ky & Hky & Hlt); [set_solver|].
      split; [set_solver|]. exists ky. split; [done|].
      apply (cmp_flip compare Hcmp) in Hlt. split; [lia|].
      intros x kx Hx Hkx Hle.
      rewrite elem_of_app, elem_of_cons in Hx. destruct Hx as [Hx|[->|Hx]].
      * specialize (Hbefore x kx Hx Hkx). lia.
      * simplify_eq. rewrite (cmp_refl compare Hcmp). lia.
      * apply StronglySorted_app_1_r, StronglySorted_cons in Hs as [Hs _].
        rewrite Forall_forall in Hs.
        destruct (Hs x Hx) as (k1 & k2 & ? & ? & Hlt'). simplify_eq.
        apply (cmp_flip compare Hcmp) in Hlt'. lia.
Qed.

End Queries.

(** * Insertion and removal keep the tree well formed *)

Section Mutations.
Context {K V : Type}.
Variable compare : K → K → Z.
Hypothesis Hcmp : StrictTotal compare.
Local Set Default Proof Using "Type*".
Implicit Types (s : RBTree K V) (t l r : tree) (ctx : list frame) (x y z : ref).
Implicit Types (live : gset ref).

Lemma StronglySorted_delete {A} (R : relation A) (xs : list A) a (ys : list A) :
  StronglySorted R (xs ++ a :: ys) → StronglySorted R (xs ++ ys).
Proof.
  rewrite !StronglySorted_app, StronglySorted_cons.
  intros (H12 & H1 & _ & H2). split; [|done].
  intros x1 x2 ? ?. apply H12; [done|by right].
Qed.

(** A run that returns at some fuel is the run that the specification, stated
    for enough fuel, describes. *)
Lemma returns_any_fuel {A} (m : nat → M K V A) (Q : A → RBTree K V → Prop) s n :
  (∀ f f', (f ≤ f')%nat → le_M (m f) (m f')) →
  (∀ f, (n ≤ f)%nat → returns (m f s) Q) →
  ∀ f a s', m f s = Ret a s' → Q a s'.
Proof using Type.
  intros Hmono Hspec f a s' Hf.
  destruct (Hspec (f `max` n)%nat) as (a' & s'' & Hr & HQ); [lia|].
  rewrite (le_M_Ret _ _ _ _ _ (Hmono f (f `max` n)%nat ltac:(lia)) Hf) in Hr.
  by simplify_eq.
Qed.

Lemma never_TypeError {A} (m : nat → M K V A) (Q : A → RBTree K V → Prop) s n :
  (∀ f f', (f ≤ f')%nat → le_M (m f) (m f')) →
  (∀ f, (n ≤ f)%nat → returns (m f s) Q) →
  ∀ f, m f s ≠ TypeError.
Proof using Type.
  intros Hmono Hspec f Hf.
  destruct (Hspec (f `max` n)%nat) as (a' & s'' & Hr & HQ); [lia|].
  destruct (Hmono f (f `max` n)%nat ltac:(lia) s) as [E0|E0]; congruence.
Qed.

(** The outcome of [insert]: either the key was there and only the value of
    its node changes, or a new member holds it. *)
Definition insert_post (s : RBTree K V) (live : gset ref) (t : tree) (key : K) (value : V)
    (p : ptr) (s' : RBTree K V) : Prop :=
  ∃ y, p = Some y ∧
    ((∃ n, y ∈ live ∧ nodes s !! y = Some n ∧ _key n = key ∧
           s' = mkTree (_root s) (<[y := with_value value n]> (nodes s)) ∧
           tree_of s' live t ∧ bst compare s' t) ∨
     (y ∉ live ∧ ¬ stored s live key ∧ kv_new s s' y key value ∧
      ∃ t', tree_of s' ({[y]} ∪ live) t' ∧ bst compare s' t')).

Lemma insert_wf_spec s live t key value fuel :
  tree_of s live t → bst compare s t → (height t < fuel)%nat →
  returns (RBTree.insert compare fuel key value s) (insert_post s live t key value).
Proof.
  intros (H & Hrb & Hlive) Hs Hf.
  eapply returns_mono; [by apply insert_spec|].
  intros p s' (y & -> & [(ctx & c & l & r & n & -> & Hp & Hn & Hz & ->)|
                          (ctx & t' & -> & Hp & Hkv & H' & Hrb' & Hin)]).
  - exists y. split; [done|]. left. exists n.
    apply (cmp_eq compare Hcmp) in Hz.
    assert (Hy : y ∈ inorder (plug ctx (T c l y r))).
    { rewrite inorder_plug. cbn [inorder]. set_solver. }
    split; [by apply Hlive|]. do 3 (split; [done|]).
    split; [split; [by apply holds_set_value|done]|].
    eapply bst_keys; [|done]. intros z _. unfold key_of. cbn [nodes].
    destruct (decide (y = z)) as [->|].
    + by rewrite lookup_insert_eq, Hn.
    + by rewrite lookup_insert_ne.
  - exists y. split; [done|]. right.
    destruct Hkv as (Hnone & Hky & Hvy & Hothers).
    assert (Hy : y ∉ inorder (plug ctx E)).
    { intros Hy. apply (holds_lookup _ _ _ H) in Hy as [? ?]. congruence. }
    destruct (path_bounds compare Hcmp s key ctx E Hs Hp) as [Hb Ha].
    rewrite Forall_forall in Hb, Ha.
    rewrite inorder_plug in Hy, Hlive. cbn [inorder app] in Hy, Hlive.
    rewrite inorder_plug in Hin. cbn [inorder app] in Hin.
    split; [by rewrite Hlive|]. split.
    { intros (x & Hx & Hk). apply Hlive, elem_of_app in Hx as [Hx|Hx].
      - pose proof (key_is_of _ _ _ _ (Hb x Hx) Hk) as Hlt. cbv beta in Hlt.
        rewrite (cmp_refl compare Hcmp) in Hlt. lia.
      - pose proof (key_is_of _ _ _ _ (Ha x Hx) Hk) as Hlt. cbv beta in Hlt.
        rewrite (cmp_refl compare Hcmp) in Hlt. lia. }
    split; [done|]. exists t'. split; [split; [done|split; [done|]]|].
    + intros x. rewrite Hin, elem_of_union, elem_of_singleton, Hlive.
      rewrite !elem_of_app, elem_of_cons. tauto.
    + unfold bst in Hs |- *. rewrite Hin.
      rewrite inorder_plug in Hs. cbn [inorder app] in Hs.
      assert (Hk : ∀ z, z ∈ ctx_before ctx ++ ctx_after ctx → key_of s' z = key_of s z).
      { intros z Hz. apply Hothers. intros ->. by apply Hy. }
      apply StronglySorted_app in Hs as (H12 & H1 & H2).
      apply StronglySorted_app. split; [|split].
      * intros x1 x2 Hx1 Hx2. apply elem_of_cons in Hx2 as [->|Hx2].
        -- destruct (Hb x1 Hx1) as (k1 & Hk1 & Hlt).
           exists k1, key. rewrite (Hk x1) by (apply elem_of_app; by left).
           do 2 (split; [done|]).
           by apply (cmp_flip compare Hcmp).
        -- destruct (H12 x1 x2 Hx1 Hx2) as (ka & kb & ? & ? & ?).
           exists ka, kb. rewrite (Hk x1) by (apply elem_of_app; by left).
           rewrite (Hk x2) by (apply elem_of_app; by right). done.
      * eapply (StronglySorted_impl (key_lt compare s)); [|done].
        intros a b Ha' Hb' (ka & kb & ? & ? & ?). exists ka, kb.
        rewrite (Hk a), (Hk b) by (apply elem_of_app; by left). done.
      * apply StronglySorted_cons. split.
        -- rewrite Forall_forall. intros x2 Hx2.
           destruct (Ha x2 Hx2) as (k2 & Hk2 & Hlt).
           exists key, k2. rewrite (Hk x2) by (apply elem_of_app; by right). done.
        -- eapply (StronglySorted_impl (key_lt compare s)); [|done].
           intros a b Ha' Hb' (ka & kb & ? & ? & ?). exists ka, kb.
           rewrite (Hk a), (Hk b) by (apply elem_of_app; by right). done.
Qed.

(** The outcome of removing a member. *)
Definition remove_post (s : RBTree K V) (live : gset ref) (t : tree) (x : ref)
    (s' : RBTree K V) : Prop :=
  kv_same s s' ∧
  ∃ t', tree_of s' (live ∖ {[x]}) t' ∧ (bst compare s t → bst compare s' t').

Lemma NoDup_middle {A} (xs : list A) a (ys : list A) :
  NoDup (xs ++ a :: ys) → a ∉ xs ++ ys.
Proof.
  rewrite NoDup_app, NoDup_cons. intros (_ & Hd & Ha & _) [H|H]%elem_of_app.
  - apply (Hd a H). left.
  - by apply Ha.
Qed.

Lemma remove_wf_spec s live t x fuel :
  tree_of s live t → x ∈ live → (height t < fuel)%nat →
  returns (RBTree.remove fuel (Some x) s) (λ _ s', remove_post s live t x s').
Proof using Type.
  intros (H & Hrb & Hlive) Hx Hf.
  apply Hlive in Hx. destruct (in_inorder_plug _ _ Hx) as (ctx & c & l & r & ->).
  destruct (remove_spec s fuel ctx c l x r H Hrb Hf) as (u & s' & Hr & t' & H' & Hrb' & Hin).
  exists u, s'. split; [done|]. split; [by eapply pres_remove|].
  exists t'. pose proof (holds_NoDup _ _ H) as HND.
  assert (Heq : inorder (plug ctx (T c l x r)) =
                (ctx_before ctx ++ inorder l) ++ x :: (inorder r ++ ctx_after ctx)).
  { rewrite inorder_plug. cbn [inorder]. by rewrite <- !app_assoc. }
  assert (Heq' : inorder t' = (ctx_before ctx ++ inorder l) ++ (inorder r ++ ctx_after ctx)).
  { rewrite Hin. by rewrite <- !app_assoc. }
  split; [split; [done|split; [done|]]|].
  - intros z. rewrite elem_of_difference, Hlive, Heq, Heq', elem_of_singleton.
    rewrite Heq in HND. apply NoDup_middle in HND.
    revert HND. generalize (ctx_before ctx ++ inorder l) (inorder r ++ ctx_after ctx).
    intros L1 L2 HND. rewrite !elem_of_app, elem_of_cons. rewrite elem_of_app in HND.
    split; [intros [[?|[?|?]] ?]; tauto|].
    intros Hz. split; [tauto|]. intros ->. tauto.
  - intros Hs. apply (bst_same compare s); [by eapply pres_remove|].
    unfold bst in Hs |- *. rewrite Heq in Hs. rewrite Heq'.
    by eapply StronglySorted_delete.
Qed.

End Mutations.

(** * Histories of public mutations *)

(** The mutating calls a client can make.  Nodes are passed as the handles
    that [insert] or a query returned. *)
Inductive mutation (K V : Type) : Type :=
| Minsert (key : K) (value : V)
| Mremove (node : ref)
| Mswap (node1 node2 : ref)
| Mreverse (first last : ref).
Arguments Minsert {K V}.
Arguments Mremove {K V}.
Arguments Mswap {K V}.
Arguments Mreverse {K V}.

(** Calls that keep the members in key order. *)
Definition order_keeping {K V} (m : mutation K V) : Prop :=
  match m with
  | Minsert _ _ | Mremove _ => True
  | Mswap _ _ | Mreverse _ _ => False
  end.

Definition any_mutation {K V} (m : mutation K V) : Prop := True.

(** The handle a call returned, as a set. *)
Definition handle (p : ptr) : gset ref :=
  match p with Some y => {[y]} | None => ∅ end.

(** Walking the tree as the test suite does: from [min] by [succ], or from
    [max] by [pred], reading the key of each node passed. *)
Fixpoint walk_succ {K V} (fuel : nat) (node : ptr) : M K V (list K) :=
  match fuel with
  | O => timeout
  | S fuel =>
      match node with
      | None => ret []
      | Some _ =>
          let* k := RBTreeNode.key node in
          let* node := RBTreeNode.succ fuel node in
          let* ks := walk_succ fuel node in
          ret (k :: ks)
      end
  end.

Fixpoint walk_pred {K V} (fuel : nat) (node : ptr) : M K V (list K) :=
  match fuel with
  | O => timeout
  | S fuel =>
      match node with
      | None => ret []
      | Some _ =>
          let* k := RBTreeNode.key node in
          let* node := RBTreeNode.pred fuel node in
          let* ks := walk_pred fuel node in
          ret (k :: ks)
      end
  end.

Definition keys_ascending {K V} (fuel : nat) : M K V (list K) :=
  let* node := RBTree.min fuel in walk_succ fuel node.

Definition keys_descending {K V} (fuel : nat) : M K V (list K) :=
  let* node := RBTree.max fuel in walk_pred fuel node.

Section Histories.
Context {K V : Type}.
Variable compare : K → K → Z.
Implicit Types (s : RBTree K V) (live : gset ref) (t : tree).

(** One call that returns.  The second component is the set of members: the
    handles handed out and not yet removed. *)
Inductive step : mutation K V → RBTree K V * gset ref → RBTree K V * gset ref → Prop :=
| step_insert s live fuel key value p s' :
    RBTree.insert compare fuel key value s = Ret p s' →
    step (Minsert key value) (s, live) (s', handle p ∪ live)
| step_remove s live fuel x s' :
    x ∈ live → RBTree.remove fuel (Some x) s = Ret tt s' →
    step (Mremove x) (s, live) (s', live ∖ {[x]})
| step_swap s live a b s' :
    a ∈ live → b ∈ live → RBTree.swap (Some a) (Some b) s = Ret tt s' →
    step (Mswap a b) (s, live) (s', live)
| step_reverse s live fuel a b s' :
    a ∈ live → b ∈ live → RBTree.reverse fuel (Some a) (Some b) s = Ret tt s' →
    step (Mreverse a b) (s, live) (s', live).

(** The tree objects that arise from [new RBTree(compare)] by calls drawn
    from [allowed]. *)
Inductive reachable (allowed : mutation K V → Prop) : RBTree K V → gset ref → Prop :=
| reach_new : reachable allowed RBTree.new ∅
| reach_step m s live s' live' :
    reachable allowed s live → allowed m → step m (s, live) (s', live') →
    reachable allowed s' live'.

(** Built by [insert] and [remove] alone. *)
Definition built : RBTree K V → gset ref → Prop := reachable order_keeping.

Lemma tree_of_new : tree_of (@RBTree.new K V) ∅ E.
Proof.
  split; [|split].
  - split; [done|]. split; [done|constructor].
  - split; [done|]. by exists 0%nat.
  - intros x. cbn [inorder]. set_solver.
Qed.

Section Ordered.
Hypothesis Hcmp : StrictTotal compare.
Local Set Default Proof Using "Type*".

Lemma insert_outcome s live t key value fuel p s' :
  tree_of s live t → bst compare s t →
  RBTree.insert compare fuel key value s = Ret p s' →
  insert_post compare s live t key value p s'.
Proof.
  intros Ht Hs.
  apply (returns_any_fuel (λ f, RBTree.insert compare f key value) _ s (S (height t))).
  - intros f f' Hf. by apply insert_mono.
  - intros f Hf. apply (insert_wf_spec compare Hcmp); [done|done|lia].
Qed.

Lemma remove_outcome s live t x fuel u s' :
  tree_of s live t → x ∈ live →
  RBTree.remove fuel (Some x) s = Ret u s' →
  remove_post compare s live t x s'.
Proof using Type.
  intros Ht Hx.
  apply (returns_any_fuel (λ f, RBTree.remove f (Some x))
           (λ _ s', remove_post compare s live t x s') s (S (height t))).
  - intros f f' Hf. by apply remove_mono.
  - intros f Hf. apply remove_wf_spec; [done|done|lia].
Qed.

Lemma built_wf s live : built s live → wf compare s live.
Proof.
  induction 1 as [|m s live s' live' _ IH Hm Hstep].
  { exists E. split; [apply tree_of_new|constructor]. }
  destruct IH as (t & Ht & Hs).
  inversion Hstep as [? ? fuel key value p ? Hr|? ? fuel x ? Hx Hr| |]; subst;
    cbn [order_keeping] in Hm; try done.
  - destruct (insert_outcome _ _ _ _ _ _ _ _ Ht Hs Hr)
      as (y & -> & [(n & Hy & _ & _ & _ & Ht' & Hs')|(_ & _ & _ & t' & Ht' & Hs')]).
    + exists t. split; [|done]. destruct Ht' as (? & ? & Hl). split; [done|].
      split; [done|]. intros z. rewrite <- Hl. cbn [handle]. set_solver.
    + by exists t'.
  - destruct (remove_outcome _ _ _ _ _ _ _ Ht Hx Hr) as (_ & t' & Ht' & Hs').
    exists t'. auto.
Qed.

End Ordered.
End Histories.

(** * Walking the tree *)

Section Traversal.
Context {K V : Type}.
Implicit Types (s : RBTree K V) (t : tree) (xs : list ref) (ks : list K).

(** [ks] are the keys of the nodes [xs], in the same order. *)
Definition keys_at s xs ks : Prop := Forall2 (λ x k, key_of s x = Some k) xs ks.

Lemma keys_at_exist s t xs : holds s t → xs ⊆ inorder t → ∃ ks, keys_at s xs ks.
Proof.
  intros H. induction xs as [|x xs IH]; intros Hsub; [exists []; constructor|].
  destruct IH as [ks Hks]; [set_solver|].
  destruct (holds_key s t x H) as [k Hk]; [set_solver|].
  exists (k :: ks). by constructor.
Qed.

Lemma keys_at_unique s xs ks ks' : keys_at s xs ks → keys_at s xs ks' → ks = ks'.
Proof.
  intros H. revert ks'. induction H as [|x k xs ks Hk _ IH]; intros ks' H'.
  - by inversion H'.
  - inversion H' as [|? k' ? ks'' Hk' Hks']; subst. f_equal; [congruence|by apply IH].
Qed.

Lemma keys_at_elem s xs ks k : keys_at s xs ks → k ∈ ks ↔ ∃ x, x ∈ xs ∧ key_of s x = Some k.
Proof.
  induction 1 as [|x k' xs ks Hk _ IH].
  - split; [by intros ?%elem_of_nil|by intros (? & ?%elem_of_nil & _)].
  - rewrite elem_of_cons, IH. split.
    + intros [->|(y & ? & ?)]; [exists x|exists y]; split; try done; [left|by right].
    + intros (y & [->|Hy]%elem_of_cons & ?); [left; congruence|right; eauto].
Qed.

Lemma keys_at_snoc s xs x ks k :
  keys_at s xs ks → key_of s x = Some k → keys_at s (xs ++ [x]) (ks ++ [k]).
Proof. intros. apply Forall2_app; [done|]. by repeat constructor. Qed.

Lemma holds_key_step {B} s t x k (f : K → M K V B) :
  holds s t → x ∈ inorder t → key_of s x = Some k →
  bind (RBTreeNode.key (Some x)) f s = f k s.
Proof.
  intros H Hx Hk. destruct (holds_lookup s t x H Hx) as [n Hn].
  unfold RBTreeNode.key. rewrite (field_step _ _ _ _ _ Hn).
  unfold key_of in Hk. rewrite Hn in Hk. by injection Hk as ->.
Qed.

Lemma walk_succ_spec s t : holds s t → ∀ l2 l1 ks fuel,
  inorder t = l1 ++ l2 → keys_at s l2 ks → (length l2 + height t < fuel)%nat →
  walk_succ fuel (head l2) s = Ret ks s.
Proof.
  intros H. induction l2 as [|x l2 IH]; intros l1 ks fuel Hin Hks Hf.
  - destruct fuel; [lia|]. by inversion Hks.
  - destruct fuel as [|fuel]; [lia|]. cbn [length] in Hf.
    inversion Hks as [|? k ? ks' Hk Hks']; subst. cbn [walk_succ head].
    rewrite (holds_key_step s t x k); [|done|rewrite Hin; set_solver|done].
    rewrite (bind_Ret _ _ _ _ _ (succ_spec s t fuel l1 x l2 H Hin ltac:(lia))).
    rewrite (bind_Ret _ _ _ _ _ (IH (l1 ++ [x]) ks' fuel ltac:(by rewrite <- app_assoc)
                                    Hks' ltac:(lia))).
    done.
Qed.

Lemma walk_pred_spec s t : holds s t → ∀ l1 l2 ks fuel,
  inorder t = l1 ++ l2 → keys_at s l1 ks → (length l1 + height t < fuel)%nat →
  walk_pred fuel (last l1) s = Ret (reverse ks) s.
Proof.
  intros H. induction l1 as [|x l1 IH] using rev_ind; intros l2 ks fuel Hin Hks Hf.
  - destruct fuel; [lia|]. by inversion Hks.
  - destruct fuel as [|fuel]; [lia|]. rewrite length_app in Hf. cbn [length] in Hf.
    apply Forall2_app_inv_l in Hks as (ks' & kx & Hks' & Hkx & ->).
    inversion Hkx as [|? k ? ? Hk Hnil]; subst. inversion Hnil; subst.
    rewrite last_snoc, reverse_snoc. cbn [walk_pred].
    rewrite <- app_assoc in Hin. cbn [app] in Hin.
    rewrite (holds_key_step s t x k); [|done|rewrite Hin; set_solver|done].
    rewrite (bind_Ret _ _ _ _ _ (pred_spec s t fuel l1 x l2 H Hin ltac:(lia))).
    rewrite (bind_Ret _ _ _ _ _ (IH (x :: l2) ks' fuel Hin Hks' ltac:(lia))).
    done.
Qed.

Lemma keys_at_sorted (compare : K → K → Z) s xs ks :
  keys_at s xs ks → StronglySorted (key_lt compare s) xs →
  StronglySorted (λ a b, compare a b < 0) ks.
Proof.
  induction 1 as [|x k xs ks Hk Hks IH]; [constructor|].
  rewrite !StronglySorted_cons. intros [Hx Hs]. split; [|by apply IH].
  clear IH Hs. induction Hks as [|y k' xs ks Hk' _ IH]; [constructor|].
  apply Forall_cons in Hx as [(k1 & k2 & ? & ? & ?) Hx].
  constructor; [|by apply IH]. congruence.
Qed.

End Traversal.

(** * Queries and insertion on trees built by [insert] and [remove] *)

(** What [lower key] must return: the member with the greatest key that is
    not above [key], or null when every member's key is above. *)
Definition greatest_below {K V} (compare : K → K → Z) (s : RBTree K V) (live : gset ref)
    (key : K) (p : ptr) : Prop :=
  match p with
  | Some y =>
      y ∈ live ∧ ∃ ky, key_of s y = Some ky ∧ compare ky key ≤ 0 ∧
        ∀ x kx, x ∈ live → key_of s x = Some kx → compare kx key ≤ 0 → compare kx ky ≤ 0
  | None => ∀ x kx, x ∈ live → key_of s x = Some kx → 0 < compare kx key
  end.

(** What [upper key] must return: the member with the least key that is not
    below [key], or null when every member's key is below. *)
Definition least_above {K V} (compare : K → K → Z) (s : RBTree K V) (live : gset ref)
    (key : K) (p : ptr) : Prop :=
  match p with
  | Some y =>
      y ∈ live ∧ ∃ ky, key_of s y = Some ky ∧ 0 ≤ compare ky key ∧
        ∀ x kx, x ∈ live → key_of s x = Some kx → 0 ≤ compare kx key → 0 ≤ compare kx ky
  | None => ∀ x kx, x ∈ live → key_of s x = Some kx → compare kx key < 0
  end.

Section OrderedClaims.
Context {K V : Type}.
Variable compare : K → K → Z.
Hypothesis Hcmp : StrictTotal compare.
Local Set Default Proof Using "Type*".
Implicit Types (s : RBTree K V) (live : gset ref) (t : tree).

(** C2: on a tree built by [insert] and [remove], walking from [min] by [succ]
    reads the keys of the members in strictly increasing order, each stored
    key exactly once; walking from [max] by [pred] reads the same keys in
    reverse; and [empty] is true exactly when no key is left. *)
Theorem traversal_in_key_order s live :
  built compare s live →
  ∃ ks n,
    (∀ fuel, (n ≤ fuel)%nat →
       keys_ascending fuel s = Ret ks s ∧
       keys_descending fuel s = Ret (reverse ks) s) ∧
    StronglySorted (λ a b, compare a b < 0) ks ∧
    (∀ k, k ∈ ks ↔ stored s live k) ∧
    ∃ b, RBTree.empty s = Ret b s ∧ (b = true ↔ ks = []).
Proof.
  intros (t & (H & Hrb & Hlive) & Hs)%(built_wf compare Hcmp).
  destruct (keys_at_exist s t (inorder t) H) as [ks Hks]; [done|].
  exists ks, (S (length (inorder t) + height t)). split; [|split; [|split]].
  - intros fuel Hf. unfold keys_ascending, keys_descending.
    rewrite (bind_Ret _ _ _ _ _ (min_spec s t fuel H ltac:(lia))).
    rewrite (bind_Ret _ _ _ _ _ (max_spec s t fuel H ltac:(lia))).
    split.
    + apply (walk_succ_spec s t H (inorder t) []); [done|done|lia].
    + apply (walk_pred_spec s t H (inorder t) []); [by rewrite app_nil_r|done|lia].
  - by apply (keys_at_sorted compare s (inorder t)).
  - intros k. rewrite (keys_at_elem s _ _ k Hks). unfold stored.
    split; intros (x & Hx & Hk); exists x; (split; [by apply Hlive|done]).
  - exists (bool_decide (inorder t = [])). split; [by apply empty_spec|].
    rewrite bool_decide_eq_true. split.
    + intros Hnil. rewrite Hnil in Hks. by inversion Hks.
    + intros ->. by inversion Hks.
Qed.

(** C3: on a tree built by [insert] and [remove], [lower k] returns the member
    with the greatest key not above [k], or null when all keys are above [k]
    (so also on the empty tree); [upper k] returns the member with the least
    key not below [k], or null when there is none. *)
Theorem lower_upper_correct s live key :
  built compare s live →
  ∃ n, ∀ fuel, (n ≤ fuel)%nat →
    ∃ p q, RBTree.lower compare fuel key s = Ret p s ∧
           RBTree.upper compare fuel key s = Ret q s ∧
           greatest_below compare s live key p ∧
           least_above compare s live key q.
Proof.
  intros (t & (H & Hrb & Hlive) & Hs)%(built_wf compare Hcmp).
  exists (S (2 * height t)). intros fuel Hf.
  destruct (lower_spec compare s t key fuel H ltac:(lia)) as (p & Hp & Hlow).
  destruct (upper_spec compare s t key fuel H ltac:(lia)) as (q & Hq & Hup).
  exists p, q. do 2 (split; [done|]).
  apply (lower_at_sem compare Hcmp) in Hlow; [|done].
  apply (upper_at_sem compare Hcmp) in Hup; [|done].
  split.
  - destruct p as [y|]; cbn [greatest_below].
    + destruct Hlow as (Hy & ky & Hky & Hle & Hmax). split; [by apply Hlive|].
      exists ky. do 2 (split; [done|]). intros x kx Hx. apply Hmax. by apply Hlive.
    + intros x kx Hx. apply Hlow. by apply Hlive.
  - destruct q as [y|]; cbn [least_above].
    + destruct Hup as (Hy & ky & Hky & Hle & Hmin). split; [by apply Hlive|].
      exists ky. do 2 (split; [done|]). intros x kx Hx. apply Hmin. by apply Hlive.
    + intros x kx Hx. apply Hup. by apply Hlive.
Qed.

(** C8: on a tree built by [insert] and [remove], [find k] returns a member
    whose key compares equal to [k] when [k] is stored, and null when it is
    not; so it returns a node exactly when [k] is stored. *)
Theorem find_correct s live key :
  built compare s live →
  ∃ n, ∀ fuel, (n ≤ fuel)%nat →
    ∃ p, RBTree.find compare fuel key s = Ret p s ∧
         (stored s live key ↔ p ≠ None) ∧
         ∀ y, p = Some y →
              y ∈ live ∧ ∃ ky, key_of s y = Some ky ∧ compare key ky = 0.
Proof.
  intros (t & (H & Hrb & Hlive) & Hs)%(built_wf compare Hcmp).
  exists (S (height t)). intros fuel Hf.
  destruct (find_spec compare s t key fuel H ltac:(lia)) as (p & Hp & Hfound).
  exists p. split; [done|].
  apply (found_at_sem compare Hcmp) in Hfound; [|done].
  destruct p as [y|].
  - destruct Hfound as [Hy Hk]. split.
    + split; [done|]. intros _. exists y. split; [by apply Hlive|done].
    + intros ? [= <-]. split; [by apply Hlive|].
      exists key. split; [done|]. apply (cmp_refl compare Hcmp).
  - split; [|done]. split; [|done].
    intros (x & Hx & Hk). destruct (Hfound x); [by apply Hlive|done].
Qed.

(** C7: when the key is already stored at member [n], [insert] returns [n]
    and the store afterwards is the store before with the value field of [n]
    overwritten: same root, same set of nodes, and every node keeps its key,
    colour and links. *)
Theorem insert_existing_key s live n key value :
  built compare s live → n ∈ live → key_of s n = Some key →
  ∃ nn, nodes s !! n = Some nn ∧
    (∃ f0, ∀ fuel, (f0 ≤ fuel)%nat →
       RBTree.insert compare fuel key value s =
       Ret (Some n)
           (mkTree (_root s)
              (<[n := mkNode (_parent nn) (_left nn) (_right nn) (_color nn)
                             (_key nn) value]> (nodes s)))) ∧
    ∀ fuel p s', RBTree.insert compare fuel key value s = Ret p s' →
       p = Some n ∧
       s' = mkTree (_root s)
              (<[n := mkNode (_parent nn) (_left nn) (_right nn) (_color nn)
                             (_key nn) value]> (nodes s)).
Proof.
  intros (t & Ht & Hs)%(built_wf compare Hcmp) Hn Hk.
  assert (Hpost : ∀ p s', insert_post compare s live t key value p s' →
    ∃ nn, nodes s !! n = Some nn ∧ p = Some n ∧
          s' = mkTree (_root s) (<[n := with_value value nn]> (nodes s))).
  { intros p s' (y & -> & [(m & Hy & Hm & Hkm & -> & _)|(_ & Hno & _)]).
    - assert (y = n) as ->.
      { destruct Ht as (H & _ & Hlive).
        apply (bst_key_inj compare Hcmp s t); [done|by apply Hlive|by apply Hlive|..].
        - unfold key_of. rewrite Hm. eauto.
        - rewrite Hk. unfold key_of. rewrite Hm. cbn. by rewrite Hkm. }
      eauto.
    - destruct Hno. by exists n. }
  destruct Ht as (H & Hrb & Hlive).
  destruct (insert_wf_spec compare Hcmp s live t key value (S (height t)))
    as (p0 & s0 & _ & Hpost0); [done|done|lia|].
  destruct (Hpost _ _ Hpost0) as (nn & Hnn & _). exists nn. split; [done|]. split.
  - exists (S (height t)). intros fuel Hf.
    destruct (insert_wf_spec compare Hcmp s live t key value fuel)
      as (p & s' & Hr & Hp); [done|done|lia|].
    destruct (Hpost _ _ Hp) as (nn' & Hnn' & -> & ->). by simplify_eq.
  - intros fuel p s' Hr.
    pose proof (insert_outcome compare Hcmp s live t key value fuel p s'
                  ltac:(done) Hs Hr) as Hp.
    destruct (Hpost _ _ Hp) as (nn' & Hnn' & -> & ->). by simplify_eq.
Qed.

End OrderedClaims.

(** * The fix-ups never read through a null link *)

Section Safety.
Context {K V : Type}.
Variable compare : K → K → Z.
Implicit Types (s : RBTree K V) (live : gset ref) (t : tree).

(** The insertion fix-up, started at a red node whose surroundings are
    coloured as after hanging a red leaf into a red-black tree. *)
Lemma fixupInsert_safe s ctx l x r n fuel :
  holds s (plug ctx (T Red l x r)) → rb (T Red l x r) n → ctx_rb Black ctx n →
  RBTree._fixupInsert fuel (Some x) s ≠ TypeError.
Proof.
  intros H Hrb Hctx.
  eapply (never_TypeError (λ f, RBTree._fixupInsert f (Some x)) _ s (S (length ctx))).
  - intros f f' Hf. by apply fixupInsert_mono.
  - intros f Hf. apply (fixupInsert_spec f ctx s l x r n); [done|done|done|lia].
Qed.

(** The removal fix-up, started at a position that is one black node short. *)
Lemma fixupRemove_safe s ctx t n fuel :
  holds s (plug ctx t) → rb t n → color_of t = Black → ctx_rb Black ctx (S n) →
  RBTree._fixupRemove_loop fuel (root_of t) (ctx_par None ctx) s ≠ TypeError.
Proof.
  intros H Hrb Hc Hctx.
  eapply (never_TypeError
           (λ f, RBTree._fixupRemove_loop f (root_of t) (ctx_par None ctx)) _ s
           (S (length ctx))).
  - intros f f' Hf. by apply fixupRemove_loop_mono.
  - intros f Hf. apply (fixupRemove_spec f ctx s t n); [done|done|done|done|lia].
Qed.

(** C9: on a red-black tree, [insert] and [remove] of a member (and with them
    the fix-ups they run) never read a field of null, whatever the fuel, and
    with enough fuel they return. *)
Theorem fixups_never_dereference_null s live :
  colored s live →
  (∀ fuel key value, RBTree.insert compare fuel key value s ≠ TypeError) ∧
  (∀ fuel x, x ∈ live → RBTree.remove fuel (Some x) s ≠ TypeError) ∧
  ∃ n, ∀ fuel, (n ≤ fuel)%nat →
    (∀ key value, ∃ p s', RBTree.insert compare fuel key value s = Ret p s') ∧
    (∀ x, x ∈ live → ∃ s', RBTree.remove fuel (Some x) s = Ret tt s').
Proof.
  intros (t & H & Hrb & Hlive). split; [|split].
  - intros fuel key value.
    eapply (never_TypeError (λ f, RBTree.insert compare f key value) _ s (S (height t))).
    + intros f f' Hf. by apply insert_mono.
    + intros f Hf. apply (insert_spec compare key value s t f); [done|done|lia].
  - intros fuel x Hx.
    eapply (never_TypeError (λ f, RBTree.remove f (Some x)) _ s (S (height t))).
    + intros f f' Hf. by apply remove_mono.
    + intros f Hf. apply (remove_wf_spec compare s live t x f); [done|done|lia].
  - exists (S (height t)). intros fuel Hf. split.
    + intros key value.
      destruct (insert_spec compare key value s t fuel H Hrb ltac:(lia)) as (p & s' & Hr & _).
      eauto.
    + intros x Hx.
      destruct (remove_wf_spec compare s live t x fuel ltac:(done) Hx ltac:(lia))
        as ([] & s' & Hr & _).
      eauto.
Qed.

End Safety.

(** * The red-black properties, read off the store *)

Definition blackness (c : color) : nat :=
  match c with RBTREE_COLOR_BLACK => 1 | RBTREE_COLOR_RED => 0 end.

(** [black_path s p k]: following child links from [p] there is a way down to
    a null link that passes [k] black nodes. *)
Inductive black_path {K V} (s : RBTree K V) : ptr → nat → Prop :=
| black_path_null : black_path s None 0
| black_path_left x n k :
    nodes s !! x = Some n → black_path s (_left n) k →
    black_path s (Some x) (blackness (_color n) + k)
| black_path_right x n k :
    nodes s !! x = Some n → black_path s (_right n) k →
    black_path s (Some x) (blackness (_color n) + k).

(** The properties listed in the header of the source file: the root is
    black, every node is red or black, the children of a red node are black
    (a null link counts as black), and all ways down from a node pass the
    same number of black nodes. *)
Record red_black {K V} (s : RBTree K V) (live : gset ref) : Prop := {
  root_is_black :
    ∀ x, _root s = Some x → ∃ n, nodes s !! x = Some n ∧ _color n = Black;
  node_has_color :
    ∀ x, x ∈ live → ∃ n, nodes s !! x = Some n ∧ (_color n = Red ∨ _color n = Black);
  red_has_black_children :
    ∀ x n y, x ∈ live → nodes s !! x = Some n → _color n = Red →
             _left n = Some y ∨ _right n = Some y →
             ∃ m, nodes s !! y = Some m ∧ _color m = Black;
  same_black_count :
    ∀ x k1 k2, x ∈ live → black_path s (Some x) k1 → black_path s (Some x) k2 → k1 = k2
}.

Section RedBlack.
Context {K V : Type}.
Implicit Types (s : RBTree K V) (live : gset ref) (t l r : tree) (ctx : list frame).

Lemma black_path_rb s : ∀ t par n k,
  rep (nodes s) par t → rb t n → black_path s (root_of t) k → k = n.
Proof.
  induction t as [|c l IHl x r IHr]; intros par n k Hrep Hrb Hp.
  - cbn [root_of] in Hp. inversion Hp. by cbn [rb] in Hrb.
  - apply rep_T_inv in Hrep as (kx & vx & Hx & Hl & Hr). cbn [root_of] in Hp.
    destruct c; cbn [rb] in Hrb.
    + destruct Hrb as (_ & _ & Hl' & Hr').
      inversion Hp as [|? n0 k' Hn0 Hk'|? n0 k' Hn0 Hk']; subst;
        rewrite Hx in Hn0; injection Hn0 as <-; cbn in Hk' |- *.
      * by apply (IHl _ _ _ Hl Hl').
      * by apply (IHr _ _ _ Hr Hr').
    + destruct n as [|m]; [done|]. destruct Hrb as [Hl' Hr'].
      inversion Hp as [|? n0 k' Hn0 Hk'|? n0 k' Hn0 Hk']; subst;
        rewrite Hx in Hn0; injection Hn0 as <-; cbn in Hk' |- *; f_equal.
      * by apply (IHl _ _ _ Hl Hl').
      * by apply (IHr _ _ _ Hr Hr').
Qed.

Lemma tree_of_red_black s live t : tree_of s live t → red_black s live.
Proof.
  intros (H & Hrb & Hlive). split.
  - intros x Hx. pose proof H as (Hr & _). rewrite Hr in Hx.
    destruct t as [|c l y r]; [done|]. injection Hx as ->.
    destruct Hrb as [Hc _]. cbn [color_of] in Hc. subst c.
    destruct (holds_focus s [] Black l x r H) as (n & Hn & _ & _ & _ & Hcol). eauto.
  - intros x Hx. destruct (holds_lookup s t x H) as [n Hn]; [by apply Hlive|].
    exists n. split; [done|]. destruct (_color n); auto.
  - intros x n y Hx Hn Hred Hy.
    apply Hlive in Hx. destruct (in_inorder_plug _ _ Hx) as (ctx & c & l & r & ->).
    destruct (holds_focus _ _ _ _ _ _ H) as (n' & Hn' & _ & Hl & Hr & Hc).
    rewrite Hn in Hn'. injection Hn' as <-. rewrite Hred in Hc. subst c.
    destruct (rb_plug_inv _ _ Hrb) as (k & (Hcl & Hcr & _) & _).
    destruct Hy as [Hy|Hy].
    + rewrite Hl in Hy. destruct l as [|cl ll z lr]; [done|]. injection Hy as ->.
      cbn [color_of] in Hcl. subst cl.
      destruct (holds_focus s (Frame L Red x r :: ctx) Black ll y lr H)
        as (m & Hm & _ & _ & _ & Hc). eauto.
    + rewrite Hr in Hy. destruct r as [|cr rl z rr]; [done|]. injection Hy as ->.
      cbn [color_of] in Hcr. subst cr.
      destruct (holds_focus s (Frame R Red x l :: ctx) Black rl y rr H)
        as (m & Hm & _ & _ & _ & Hc). eauto.
  - intros x k1 k2 Hx H1 H2.
    apply Hlive in Hx. destruct (in_inorder_plug _ _ Hx) as (ctx & c & l & r & ->).
    destruct (rb_plug_inv _ _ Hrb) as (n & Hn & _).
    destruct H as (_ & Hrep & _). apply rep_plug in Hrep as [Hrep _].
    rewrite (black_path_rb s _ _ _ _ Hrep Hn H1).
    by rewrite (black_path_rb s _ _ _ _ Hrep Hn H2).
Qed.

End RedBlack.

(** * What [validate] checks *)

Section Validate.
Context {K V : Type}.
Implicit Types (s : RBTree K V) (live : gset ref) (t l r : tree) (ctx : list frame).

Lemma assert_strictEqual_same {A} `{EqDecision A} (a : A) s :
  @assert_strictEqual K V A _ a a s = Ret tt s.
Proof. unfold assert_strictEqual. by rewrite decide_True. Qed.

Lemma assert_step {A B} `{EqDecision A} (a : A) (k : unit → M K V B) s :
  bind (assert_strictEqual a a) k s = k tt s.
Proof. unfold bind. by rewrite assert_strictEqual_same. Qed.

Lemma rb_E_zero n : rb E n → n = 0%nat.
Proof. done. Qed.

(** On a well-coloured subtree the checks of [RBTreeNode.prototype.validate]
    all pass, and the count returned is 1 for a red and 2 for a black node. *)
Lemma node_validate_ok s : ∀ fuel c l x r par n,
  rep (nodes s) par (T c l x r) → rb (T c l x r) n →
  (height (T c l x r) ≤ fuel)%nat →
  returns (RBTreeNode.validate fuel (Some x) s)
          (λ a s', a = 1 + Z.of_nat (blackness c) ∧ s' = s).
Proof.
  induction fuel as [|fuel IH]; intros c l x r par n Hrep Hrb Hf;
    [cbn [height] in Hf; lia|].
  cbn [height] in Hf.
  assert (Hsub : ∀ c' l' y r' k (f : Z → M K V Z) Q,
    rep (nodes s) (Some x) (T c' l' y r') → rb (T c' l' y r') k →
    (height (T c' l' y r') ≤ fuel)%nat →
    (∀ a, returns (f a s) Q) →
    returns (bind (RBTreeNode.validate fuel (Some y)) f s) Q).
  { intros c' l' y r' k f Q Hrep' Hrb' Hf' Hk.
    eapply returns_bind; [by eapply IH|]. by intros ? ? [_ ->]. }
  apply rep_T_inv in Hrep as (kx & vx & Hx & Hl & Hr).
  cbn [RBTreeNode.validate].
  assert (Hfin : ∀ c', returns (Ret (1 + Z.of_nat (blackness c')) s)
                          (λ a s', a = 1 + Z.of_nat (blackness c') ∧ s' = s)).
  { intros c'. by apply returns_Ret. }
  destruct c; cbn [rb] in Hrb.
  - destruct Hrb as (Hcl & Hcr & Hl' & Hr').
    destruct l as [|cl ll y lr], r as [|cr rl z rr]; cbn [color_of] in Hcl, Hcr; subst;
      try (apply rb_E_zero in Hl'; subst n; by cbn [rb] in Hr');
      try (apply rb_E_zero in Hr'; subst n; by cbn [rb] in Hl').
    + repeat first [hstep | rewrite assert_step]. apply (Hfin Red).
    + pose proof Hl as (? & ? & Hy & _)%rep_T_inv.
      pose proof Hr as (? & ? & Hz & _)%rep_T_inv.
      cbn [height] in Hf.
      repeat first [hstep | rewrite assert_step].
      eapply Hsub; [done|done|cbn [height]; lia|intros _].
      repeat first [hstep | rewrite assert_step].
      eapply Hsub; [done|done|cbn [height]; lia|intros _].
      repeat first [hstep | rewrite assert_step]. apply (Hfin Red).
  - destruct n as [|m]; [done|]. destruct Hrb as [Hl' Hr'].
    destruct l as [|cl ll y lr], r as [|cr rl z rr]; cbn [height] in Hf.
    + repeat first [hstep | rewrite assert_step]. apply (Hfin Black).
    + pose proof Hr as (? & ? & Hz & _)%rep_T_inv.
      repeat first [hstep | rewrite assert_step].
      eapply Hsub; [done|done|cbn [height]; lia|intros _].
      repeat first [hstep | rewrite assert_step]. apply (Hfin Black).
    + pose proof Hl as (? & ? & Hy & _)%rep_T_inv.
      repeat first [hstep | rewrite assert_step].
      eapply Hsub; [done|done|cbn [height]; lia|intros _].
      repeat first [hstep | rewrite assert_step]. apply (Hfin Black).
    + pose proof Hl as (? & ? & Hy & _)%rep_T_inv.
      pose proof Hr as (? & ? & Hz & _)%rep_T_inv.
      repeat first [hstep | rewrite assert_step].
      eapply Hsub; [done|done|cbn [height]; lia|intros _].
      repeat first [hstep | rewrite assert_step].
      eapply Hsub; [done|done|cbn [height]; lia|intros _].
      repeat first [hstep | rewrite assert_step]. apply (Hfin Black).
Qed.

(** On a red-black tree [validate] completes without a failed assertion. *)
Lemma validate_complete s live :
  colored s live → ∃ n, ∀ fuel, (n ≤ fuel)%nat → RBTree.validate fuel s = Ret tt s.
Proof.
  intros (t & (Hroot & Hrep & _) & (Hc & n & Hn) & _).
  exists (height t). intros fuel Hf. unfold RBTree.validate.
  rewrite get_root_step, Hroot. destruct t as [|c l x r]; [done|].
  cbn [root_of color_of] in *. subst c.
  pose proof Hrep as (kx & vx & Hx & _)%rep_T_inv.
  rewrite (field_step _ _ _ _ _ Hx). cbn [_color].
  rewrite (bind_Ret _ _ _ _ _ (assert_strictEqual_same Black s)).
  destruct (node_validate_ok s fuel Black l x r None n Hrep Hn Hf) as (a & s' & Hr & _ & ->).
  by rewrite (bind_Ret _ _ _ _ _ Hr).
Qed.

End Validate.

(** ** Trees that are not red-black *)

Module Invalid.

(** A black root whose only child is a black left child: one way down passes
    two black nodes, the other one. *)
Definition lopsided_root : RBTreeNode Z Z := mkNode None (Some 2%nat) None Black 20 0.
Definition lopsided_leaf : RBTreeNode Z Z := mkNode (Some 1%nat) None None Black 10 0.
Definition lopsided : RBTree Z Z :=
  mkTree (Some 1%nat) (<[1%nat := lopsided_root]> (<[2%nat := lopsided_leaf]> ∅)).
Definition lopsided_shape : tree := T Black (T Black E 2%nat E) 1%nat E.

(** Black heights agree everywhere, but the red node 3 has the red right
    child 5 (its left child 4 is black). *)
Definition red_pair : RBTree Z Z :=
  mkTree (Some 1%nat)
    (<[1%nat := mkNode None (Some 2%nat) (Some 3%nat) Black 20 0]>
     (<[2%nat := mkNode (Some 1%nat) None None Black 10 0]>
     (<[3%nat := mkNode (Some 1%nat) (Some 4%nat) (Some 5%nat) Red 40 0]>
     (<[4%nat := mkNode (Some 3%nat) None None Black 30 0]>
     (<[5%nat := mkNode (Some 3%nat) (Some 6%nat) (Some 7%nat) Red 60 0]>
     (<[6%nat := mkNode (Some 5%nat) None None Black 50 0]>
     (<[7%nat := mkNode (Some 5%nat) None None Black 70 0]> ∅))))))).
Definition red_pair_shape : tree :=
  T Black (T Black E 2%nat E) 1%nat
    (T Red (T Black E 4%nat E) 3%nat
       (T Red (T Black E 6%nat E) 5%nat (T Black E 7%nat E))).

(** A red node with a right child and no left child. *)
Definition red_right_only : RBTree Z Z :=
  mkTree (Some 1%nat)
    (<[1%nat := mkNode None None (Some 3%nat) Black 20 0]>
     (<[3%nat := mkNode (Some 1%nat) None (Some 5%nat) Red 40 0]>
     (<[5%nat := mkNode (Some 3%nat) None None Black 60 0]> ∅))).

Lemma holds_lopsided : holds lopsided lopsided_shape.
Proof.
  split; [done|]. split.
  - cbn. eexists. split; [reflexivity|]. cbn. repeat split.
    eexists. split; [reflexivity|]. cbn. done.
  - cbn. repeat constructor; set_solver.
Qed.

Lemma holds_red_pair : holds red_pair red_pair_shape.
Proof.
  split; [done|]. split.
  - cbn. repeat (first [done | split | eexists; split; [reflexivity|cbn]]).
  - apply (bool_decide_unpack _). by vm_compute.
Qed.

Lemma lopsided_not_red_black : ¬ red_black lopsided {[1%nat; 2%nat]}.
Proof.
  intros [_ _ _ Hbh].
  assert (H2 : black_path lopsided (Some 1%nat) 2).
  { apply (black_path_left lopsided 1%nat lopsided_root 1); [reflexivity|].
    apply (black_path_left lopsided 2%nat lopsided_leaf 0); [reflexivity|].
    apply black_path_null. }
  assert (H1 : black_path lopsided (Some 1%nat) 1).
  { apply (black_path_right lopsided 1%nat lopsided_root 0); [reflexivity|].
    apply black_path_null. }
  specialize (Hbh 1%nat 2%nat 1%nat ltac:(set_solver) H2 H1). lia.
Qed.

Lemma red_pair_not_red_black :
  ¬ red_black red_pair (list_to_set (inorder red_pair_shape)).
Proof.
  intros [_ _ Hred _].
  destruct (Hred 3%nat (mkNode (Some 1%nat) (Some 4%nat) (Some 5%nat) Red 40 0) 5%nat)
    as (m & Hm & Hc); [cbn; set_solver|reflexivity|reflexivity|by right|].
  vm_compute in Hm. injection Hm as <-. done.
Qed.

End Invalid.

(** C5: [validate] does not check what its comments say.  The two counts it
    compares are both the constant 1, so it accepts a tree whose black
    heights differ; the check on the right child of a red node reads the
    colour of the left child, so it accepts a red node with a red right child
    and reads through null when the left child is missing. *)
Theorem validate_accepts_invalid_trees :
  (holds Invalid.lopsided Invalid.lopsided_shape ∧
   ¬ red_black Invalid.lopsided {[1%nat; 2%nat]} ∧
   ∀ fuel, (2 ≤ fuel)%nat → RBTree.validate fuel Invalid.lopsided = Ret tt Invalid.lopsided) ∧
  (holds Invalid.red_pair Invalid.red_pair_shape ∧
   ¬ red_black Invalid.red_pair (list_to_set (inorder Invalid.red_pair_shape)) ∧
   ∀ fuel, (4 ≤ fuel)%nat → RBTree.validate fuel Invalid.red_pair = Ret tt Invalid.red_pair) ∧
  ∀ fuel, (2 ≤ fuel)%nat → RBTree.validate fuel Invalid.red_right_only = TypeError.
Proof.
  split; [|split].
  - split; [apply Invalid.holds_lopsided|]. split; [apply Invalid.lopsided_not_red_black|].
    intros fuel Hf. apply (le_M_Ret _ _ _ _ _ (validate_mono 2 fuel Hf)). by vm_compute.
  - split; [apply Invalid.holds_red_pair|]. split; [apply Invalid.red_pair_not_red_black|].
    intros fuel Hf. apply (le_M_Ret _ _ _ _ _ (validate_mono 4 fuel Hf)). by vm_compute.
  - intros fuel Hf.
    rewrite (le_M_done _ _ _ (validate_mono 2 fuel Hf)); by vm_compute.
Qed.

(** * Exchanging two nodes *)

Section Adopt.
Context {K V : Type}.
Implicit Types (h : gmap ref (RBTreeNode K V)) (s : RBTree K V).
Implicit Types (t l r : tree) (ctx : list frame) (x y z q : ref) (p c par top : ptr).

(** [if (c !== null) c._parent = p], as a function on stores. *)
Definition adopt c p h : gmap ref (RBTreeNode K V) :=
  match c with
  | Some y =>
      match h !! y with
      | Some n => <[y := with_parent p n]> h
      | None => h
      end
  | None => h
  end.

(** The node above a run of frames gets a new parent only when the run is
    empty. *)
Definition retop p ctx (n : RBTreeNode K V) : RBTreeNode K V :=
  match ctx with [] => with_parent p n | _ :: _ => n end.

Lemma lookup_adopt_ne c p h z : c ≠ Some z → adopt c p h !! z = h !! z.
Proof.
  destruct c as [y|]; [|done]. intros Hne. cbn [adopt].
  destruct (h !! y); [|done]. rewrite lookup_insert_ne; [done|congruence].
Qed.

Lemma lookup_adopt_tree l p h z :
  occ z (inorder l) = 0%nat → adopt (root_of l) p h !! z = h !! z.
Proof. intros Hz. apply lookup_adopt_ne. intros Hr%root_of_occ. lia. Qed.

Lemma ctx_root_occ ctx : ∀ q w,
  ctx_root ctx (Some q) = Some w →
  w = q ∨ (1 ≤ occ w (ctx_before ctx ++ ctx_after ctx))%nat.
Proof.
  induction ctx as [|[d c y sib] ctx IH]; intros q w; cbn [ctx_root fid].
  - intros [= ->]. by left.
  - intros H. right. destruct (IH _ _ H) as [->|Hw]; try occ_norm_in Hw;
      destruct d; occ_norm; lia.
Qed.

Lemma lookup_adopt_ctx ctx q p h z :
  z ≠ q → occ z (ctx_before ctx ++ ctx_after ctx) = 0%nat →
  adopt (ctx_root ctx (Some q)) p h !! z = h !! z.
Proof.
  intros Hne Hz. apply lookup_adopt_ne. intros [->|Hw]%ctx_root_occ; [done|lia].
Qed.

Lemma lookup_adopt_focus ctx q p h :
  occ q (ctx_before ctx ++ ctx_after ctx) = 0%nat →
  adopt (ctx_root ctx (Some q)) p h !! q = retop p ctx <$> h !! q.
Proof.
  intros Hq. destruct ctx as [|f ctx]; cbn [ctx_root retop].
  - cbn [adopt]. destruct (h !! q) as [n|] eqn:E; [by rewrite lookup_insert_eq|].
    by rewrite E.
  - rewrite lookup_adopt_ne; [by destruct (h !! q)|].
    intros [->|Hw]%ctx_root_occ.
    + destruct f as [[] ? ? ?]; occ_norm_in Hq; lia.
    + destruct f as [[] ? ? ?]; occ_norm_in Hq; occ_norm_in Hw; lia.
Qed.

Lemma ptr_eq_ctx_root_ne ctx q x :
  x ≠ q → occ x (ctx_before ctx ++ ctx_after ctx) = 0%nat →
  ptr_eq (ctx_root ctx (Some q)) (Some x) = false.
Proof.
  intros Hne Hx. destruct (ctx_root_Some ctx q) as [w Hw]. rewrite Hw.
  apply ptr_eq_Some_ne. intros ->.
  apply ctx_root_occ in Hw as [->|Hw]; [done|lia].
Qed.

Lemma retop_mkNode p top ctx (pl pr : ptr) (col : color) (k : K) (v : V) :
  retop p ctx (mkNode (ctx_par top ctx) pl pr col k v) = mkNode (ctx_par p ctx) pl pr col k v.
Proof. by destruct ctx. Qed.

Lemma is_Some_insert h x n y : is_Some (h !! y) → is_Some (<[x := n]> h !! y).
Proof.
  intros H. destruct (decide (x = y)) as [->|].
  - rewrite lookup_insert_eq. eauto.
  - by rewrite lookup_insert_ne.
Qed.

Lemma is_Some_adopt h c p y : is_Some (h !! y) → is_Some (adopt c p h !! y).
Proof.
  intros H. destruct c as [x|]; [|done]. cbn [adopt].
  destruct (h !! x); [by apply is_Some_insert|done].
Qed.

Lemma rep_root_Some h par t y : rep h par t → root_of t = Some y → is_Some (h !! y).
Proof.
  destruct t as [|c l x r]; [done|]. intros (? & ? & Hx & _)%rep_T_inv [= <-]. eauto.
Qed.

Lemma repctx_root_Some h top ctx : ∀ q y,
  repctx h top ctx (Some q) → is_Some (h !! q) → ctx_root ctx (Some q) = Some y →
  is_Some (h !! y).
Proof.
  induction ctx as [|f ctx IH]; intros q y; cbn [ctx_root].
  - by intros _ ? [= <-].
  - intros (n & Hn & _ & _ & _ & _ & _ & Hc) _. apply IH; [done|eauto].
Qed.

(** Running [if (c !== null) c._parent = a], where [c] has just been stored
    in field [f] of [a]. *)
Lemma adopt_step {B} (f : RBTreeNode K V → ptr) c a (k : unit → M K V B) s n :
  nodes s !! a = Some n → f n = c → (∀ y, c = Some y → is_Some (nodes s !! y)) →
  bind (match c with
        | Some _ => bind (field f (Some a)) (λ ch, set_parent ch (Some a))
        | None => ret tt
        end) k s =
  k tt (mkTree (_root s) (adopt c (Some a) (nodes s))).
Proof.
  intros Ha Hf Hc. destruct c as [y|]; cbn [adopt].
  - destruct (Hc y eq_refl) as [ny Hy]. rewrite Hy.
    rewrite bind_assoc, (field_step _ _ _ _ _ Ha), Hf. unfold set_parent.
    by rewrite (update_step _ _ _ _ _ Hy).
  - by destruct s.
Qed.

(** A subtree whose root has been given the parent [p]. *)
Lemma rep_adopt_intro h0 h1 h' par p l :
  rep h0 par l → NoDup (inorder l) →
  (∀ z, (1 ≤ occ z (inorder l))%nat → h' !! z = adopt (root_of l) p h1 !! z) →
  (∀ z, (1 ≤ occ z (inorder l))%nat → h1 !! z = h0 !! z) →
  rep h' p l.
Proof.
  destruct l as [|c a y b]; [done|].
  intros (k & v & Hy & Ha & Hb)%rep_T_inv HND H' H1. cbn [root_of inorder] in *.
  pose proof (λ z, occ_NoDup z _ HND) as Hocc.
  assert (Hyy : (1 ≤ occ y (inorder a ++ y :: inorder b))%nat).
  { rewrite occ_app, occ_cons_eq. lia. }
  eapply rep_T_intro.
  - rewrite (H' y Hyy). cbn [adopt]. rewrite (H1 y Hyy), Hy.
    rewrite lookup_insert_eq. reflexivity.
  - eapply rep_frame; [|exact Ha]. intros z Hz.
    assert (Hzz : (1 ≤ occ z (inorder a ++ y :: inorder b))%nat).
    { rewrite occ_app. lia. }
    rewrite (H' z Hzz), lookup_adopt_ne; [by apply H1|].
    intros [= ->]. specialize (Hocc z). rewrite occ_app, occ_cons_eq in Hocc. lia.
  - eapply rep_frame; [|exact Hb]. intros z Hz.
    assert (Hzz : (1 ≤ occ z (inorder a ++ y :: inorder b))%nat).
    { rewrite occ_app, occ_cons. lia. }
    rewrite (H' z Hzz), lookup_adopt_ne; [by apply H1|].
    intros [= ->]. specialize (Hocc z). rewrite occ_app, occ_cons_eq in Hocc. lia.
Qed.

(** A run of frames below a node that now has the parent [p]. *)
Lemma repctx_retop h0 h1 h' top p ctx : ∀ q,
  repctx h0 top ctx (Some q) → NoDup (q :: ctx_before ctx ++ ctx_after ctx) →
  (∀ z, (1 ≤ occ z (ctx_before ctx ++ ctx_after ctx))%nat →
        h' !! z = adopt (ctx_root ctx (Some q)) p h1 !! z) →
  (∀ z, (1 ≤ occ z (ctx_before ctx ++ ctx_after ctx))%nat → h1 !! z = h0 !! z) →
  repctx h' p ctx (Some q).
Proof.
  induction ctx as [|[d c y sib] ctx IH]; intros q; [done|].
  intros Hrep HND H' H1.
  pose proof (λ z, occ_NoDup z _ HND) as Hocc.
  assert (Hsplit : ∀ z,
    occ z (ctx_before (Frame d c y sib :: ctx) ++ ctx_after (Frame d c y sib :: ctx)) =
    ((if decide (y = z) then 1 else 0) + occ z (inorder sib) +
     occ z (ctx_before ctx ++ ctx_after ctx))%nat).
  { intros z. destruct d; occ_norm; lia. }
  setoid_rewrite occ_cons in Hocc. setoid_rewrite Hsplit in Hocc.
  assert (Hy' : h' !! y = retop p ctx <$> h0 !! y).
  { rewrite H'; [|rewrite Hsplit, decide_True by done; lia].
    cbn [ctx_root fid]. rewrite lookup_adopt_focus.
    - rewrite H1; [done|]. rewrite Hsplit, decide_True by done. lia.
    - specialize (Hocc y). rewrite (decide_True (P := y = y)) in Hocc by done. lia. }
  assert (Hother : ∀ z, z ≠ y →
    (1 ≤ occ z (inorder sib) + occ z (ctx_before ctx ++ ctx_after ctx))%nat →
    h' !! z = adopt (ctx_root ctx (Some y)) p h1 !! z ∧ h1 !! z = h0 !! z).
  { intros z Hne Hz. split; [apply H'|apply H1]; rewrite Hsplit; lia. }
  assert (HNDc : NoDup (y :: ctx_before ctx ++ ctx_after ctx)).
  { apply NoDup_occ. intros z. specialize (Hocc z). rewrite occ_cons. lia. }
  destruct d; [apply repctx_L_inv in Hrep|apply repctx_R_inv in Hrep];
    destruct Hrep as (k & v & Hy & Hsib & Hc).
  - eapply repctx_L_intro.
    + rewrite Hy', Hy. cbn. by rewrite retop_mkNode.
    + eapply rep_frame; [|exact Hsib]. intros z Hz.
      assert (z ≠ y) as Hne.
      { intros ->. specialize (Hocc y). rewrite (decide_True (P := y = y)) in Hocc by done. lia. }
      destruct (Hother z Hne ltac:(lia)) as [-> <-].
      apply lookup_adopt_ctx; [done|]. specialize (Hocc z). lia.
    + apply IH; [done|done|..].
      * intros z Hz. apply Hother; [|lia]. intros ->.
        specialize (Hocc y). rewrite (decide_True (P := y = y)) in Hocc by done. lia.
      * intros z Hz. apply Hother; [|lia]. intros ->.
        specialize (Hocc y). rewrite (decide_True (P := y = y)) in Hocc by done. lia.
  - eapply repctx_R_intro.
    + rewrite Hy', Hy. cbn. by rewrite retop_mkNode.
    + eapply rep_frame; [|exact Hsib]. intros z Hz.
      assert (z ≠ y) as Hne.
      { intros ->. specialize (Hocc y). rewrite (decide_True (P := y = y)) in Hocc by done. lia. }
      destruct (Hother z Hne ltac:(lia)) as [-> <-].
      apply lookup_adopt_ctx; [done|]. specialize (Hocc z). lia.
    + apply IH; [done|done|..].
      * intros z Hz. apply Hother; [|lia]. intros ->.
        specialize (Hocc y). rewrite (decide_True (P := y = y)) in Hocc by done. lia.
      * intros z Hz. apply Hother; [|lia]. intros ->.
        specialize (Hocc y). rewrite (decide_True (P := y = y)) in Hocc by done. lia.
Qed.

End Adopt.

Section AdoptExec.
Context {K V : Type}.

Lemma adopt_returns {B} (f : RBTreeNode K V → ptr) (c : ptr) (a : ref)
    (k : unit → M K V B) (s : RBTree K V) (n : RBTreeNode K V)
    (Q : B → RBTree K V → Prop) :
  nodes s !! a = Some n → f n = c → (∀ y, c = Some y → is_Some (nodes s !! y)) →
  returns (k tt (mkTree (_root s) (adopt c (Some a) (nodes s)))) Q →
  returns (bind (match c with
                 | Some _ => bind (field f (Some a)) (λ ch, update ch (with_parent (Some a)))
                 | None => ret tt
                 end) k s) Q.
Proof.
  intros Ha Hf Hc Hk. pose proof (adopt_step f c a k s n Ha Hf Hc) as E.
  unfold set_parent in E. by rewrite E.
Qed.

End AdoptExec.

(** Distinctness without substituting: the equation is used to rewrite the
    one occurrence count it decides. *)
Ltac occ_prep z :=
  repeat match goal with
  | H : (1 ≤ occ z (_ ++ _))%nat |- _ => rewrite occ_app in H
  end.

Ltac fast_ne :=
  lazymatch goal with
  | Hocc : ∀ z' : ref, (_ ≤ 1)%nat |- ?a ≠ ?b =>
      let Heq := fresh "Heq" in
      let Hz := fresh "Hz" in
      intros Heq;
      first
        [ pose proof (Hocc b) as Hz;
          rewrite (decide_True (P := a = b) _ _ Heq) in Hz;
          rewrite ?(decide_True (P := b = b)) in Hz by reflexivity;
          occ_prep b; lia
        | pose proof (Hocc a) as Hz;
          rewrite (decide_True (P := b = a) _ _ (eq_sym Heq)) in Hz;
          rewrite ?(decide_True (P := a = a)) in Hz by reflexivity;
          occ_prep a; lia ]
  end.

Ltac fast_occ0 :=
  lazymatch goal with
  | Hocc : ∀ z' : ref, (_ ≤ 1)%nat |- occ ?z _ = 0%nat =>
      let Hz := fresh "Hz" in
      pose proof (Hocc z) as Hz;
      rewrite ?(decide_True (P := z = z)) in Hz by reflexivity;
      occ_prep z; rewrite ?occ_app; lia
  end.

(** Stores built from field writes and adoptions. *)
Ltac strip_layer :=
  lazymatch goal with
  | |- (<[?x := ?n]> ?h) !! ?z = _ =>
      first [ rewrite (lookup_insert_ne h x z n) by fast_ne
            | rewrite (lookup_insert_eq h z n) ]
  | |- adopt (root_of ?l) ?p ?h !! ?z = _ =>
      rewrite (lookup_adopt_tree l p h z) by fast_occ0
  | |- adopt (ctx_root ?ctx (Some ?q)) ?p ?h !! ?q = _ =>
      rewrite (lookup_adopt_focus ctx q p h) by fast_occ0
  | |- adopt (ctx_root ?ctx (Some ?q)) ?p ?h !! ?z = _ =>
      rewrite (lookup_adopt_ctx ctx q p h z) by first [fast_ne | fast_occ0]
  | |- ?g <$> ((<[?x := ?n]> ?h) !! ?z) = _ =>
      first [ rewrite (lookup_insert_ne h x z n) by fast_ne
            | rewrite (lookup_insert_eq h z n) ]
  | |- ?g <$> (adopt (root_of ?l) ?p ?h !! ?z) = _ =>
      rewrite (lookup_adopt_tree l p h z) by fast_occ0
  end.

Ltac xlookup :=
  cbn [nodes _root];
  repeat strip_layer;
  lazymatch goal with
  | |- retop _ _ <$> Some _ = _ =>
      cbn [fmap option_fmap option_map]; rewrite ?retop_mkNode; reflexivity
  | |- retop _ _ <$> (nodes ?s !! ?q) = _ =>
      lazymatch goal with
      | H : nodes s !! q = Some _ |- _ =>
          rewrite H; cbn [fmap option_fmap option_map]; rewrite ?retop_mkNode; reflexivity
      end
  | |- _ =>
      first [ eassumption | reflexivity
            | rewrite ?root_of_plug; cbn [ctx_root root_of fid];
              first [ eassumption | reflexivity ] ]
  end.

Ltac xexists :=
  let y := fresh "y" in
  let Hy := fresh "Hy" in
  intros y Hy; cbn [nodes];
  repeat first [ apply is_Some_insert | apply is_Some_adopt ];
  first
    [ eapply rep_root_Some; [|exact Hy]; eassumption
    | eapply repctx_root_Some; [| |exact Hy]; [eassumption|eexists; eassumption] ].

Ltac xcond c :=
  lazymatch c with
  | ptr_eq (ctx_root ?ctx (Some ?q)) (Some ?x) =>
      rewrite (ptr_eq_ctx_root_ne ctx q x) by first [fast_ne | fast_occ0]
  | _ => cond_simpl c
  end.

Ltac xstep :=
  cbv beta;
  lazymatch goal with
  | |- returns ?lhs _ =>
      lazymatch lhs with
      | bind (bind ?m ?f) ?g ?s => rewrite (bind_assoc m f g s)
      | bind (match ?c with
              | Some _ => bind (field ?f (Some ?a)) _
              | None => _
              end) ?k ?s =>
          eapply (adopt_returns f c a k s); [xlookup|reflexivity|xexists|]
      | bind (field ?f (Some ?x)) ?k ?s => erewrite (field_step f x k s) by xlookup
      | bind (update (Some ?x) ?g) ?k ?s => erewrite (update_step x g k s) by xlookup
      | bind (set_root ?v) ?k ?s =>
          change (bind (set_root v) k s) with (k tt (mkTree v (nodes s)))
      | bind get_root ?k ?s => change (bind get_root k s) with (k (_root s) s)
      | bind (ret ?a) ?k ?s => change (bind (ret a) k s) with (k a s)
      | bind (if ?c then _ else _) _ _ => xcond c
      | (if ?c then _ else _) _ => xcond c
      | update (Some ?x) ?g ?s => erewrite (update_Some x g s) by xlookup
      | set_root ?v ?s => change (set_root v s) with (Ret tt (mkTree v (nodes s)))
      | ret ?a ?s => change (ret a s) with (Ret a s)
      end
  end;
  hcbn.

Ltac xsteps :=
  unfold set_parent, set_left, set_right, set_color, set_value; hcbn; repeat xstep.

Ltac xframe :=
  let z := fresh "z" in
  let Hz := fresh "Hz" in
  intros z Hz; cbn [nodes]; repeat strip_layer; reflexivity.

Ltac xrep_tac :=
  lazymatch goal with
  | |- rep _ _ E => exact I
  | |- rep _ _ (T _ _ _ _) =>
      eapply rep_T_intro; [xlookup|xrep_tac..]
  | |- rep _ _ (plug _ _) => apply rep_plug; split; xrep_tac
  | |- rep _ _ _ =>
      first [ eapply rep_frame; [|eassumption]; xframe
            | eapply rep_adopt_intro; [eassumption|nodup_tac|xframe|xframe] ]
  | |- repctx _ _ [] _ => exact I
  | |- repctx _ _ (Frame L _ _ _ :: _) _ =>
      eapply repctx_L_intro; [xlookup|xrep_tac..]
  | |- repctx _ _ (Frame R _ _ _ :: _) _ =>
      eapply repctx_R_intro; [xlookup|xrep_tac..]
  | |- repctx _ _ _ _ =>
      first [ eapply repctx_frame; [|eassumption]; xframe
            | eapply repctx_retop; [eassumption|nodup_tac|xframe|xframe] ]
  | |- _ => idtac
  end.

Ltac xholds_tac :=
  apply returns_Ret;
  lazymatch goal with
  | |- holds _ (plug _ _) => apply holds_plug_intro
  | |- holds _ _ => apply (holds_plug_intro _ [])
  end;
  [cbn [_root root_of ctx_root fid]; first [assumption|reflexivity]
  |xrep_tac|xrep_tac|first [assumption|nodup_tac]].

Ltac swap_tac :=
  unfold RBTree.swap, RBTree._replaceNode;
  open_rep; rewrite ?root_of_plug in *; cbn [ctx_root root_of fid] in *;
  occ_init; xsteps; xholds_tac.

Section SwapCases.
Context {K V : Type}.
Implicit Types (s : RBTree K V) (t l r : tree) (ctx : list frame).

(** The two nodes lie in the two subtrees of a node [g]; with empty paths
    they are its children. *)
Lemma swap_apart_lr s ctx cg g actx ca al a ar bctx cb bl b br :
  holds s (plug ctx (T cg (plug actx (T ca al a ar)) g (plug bctx (T cb bl b br)))) →
  returns (RBTree.swap (Some a) (Some b) s)
    (λ _ s', holds s' (plug ctx (T cg (plug actx (T ca al b ar)) g
                                      (plug bctx (T cb bl a br))))).
Proof.
  intros (Hroot & Hrep & Hctx & HND)%holds_plug_inv.
  destruct actx as [|[[] cpa pa sa] actx1], bctx as [|[[] cpb pb sb] bctx1].
  all: swap_tac.
Qed.

Lemma swap_apart_rl s ctx cg g actx ca al a ar bctx cb bl b br :
  holds s (plug ctx (T cg (plug bctx (T cb bl b br)) g (plug actx (T ca al a ar)))) →
  returns (RBTree.swap (Some a) (Some b) s)
    (λ _ s', holds s' (plug ctx (T cg (plug bctx (T cb bl a br)) g
                                      (plug actx (T ca al b ar))))).
Proof.
  intros (Hroot & Hrep & Hctx & HND)%holds_plug_inv.
  destruct actx as [|[[] cpa pa sa] actx1], bctx as [|[[] cpb pb sb] bctx1].
  all: swap_tac.
Qed.

(** The second node lies below the first. *)
Lemma swap_below_l s ctx ca a ar bctx cb bl b br :
  holds s (plug ctx (T ca (plug bctx (T cb bl b br)) a ar)) →
  returns (RBTree.swap (Some a) (Some b) s)
    (λ _ s', holds s' (plug ctx (T ca (plug bctx (T cb bl a br)) b ar))).
Proof.
  intros (Hroot & Hrep & Hctx & HND)%holds_plug_inv.
  destruct bctx as [|[[] cq q qs] bctx1], ctx as [|[[] cp p sib] ctx'].
  all: swap_tac.
Qed.

Lemma swap_below_r s ctx ca al a bctx cb bl b br :
  holds s (plug ctx (T ca al a (plug bctx (T cb bl b br)))) →
  returns (RBTree.swap (Some a) (Some b) s)
    (λ _ s', holds s' (plug ctx (T ca al b (plug bctx (T cb bl a br))))).
Proof.
  intros (Hroot & Hrep & Hctx & HND)%holds_plug_inv.
  destruct bctx as [|[[] cq q qs] bctx1], ctx as [|[[] cp p sib] ctx'].
  all: swap_tac.
Qed.

(** The first node lies below the second. *)
Lemma swap_above_l s ctx cb b br actx ca al a ar :
  holds s (plug ctx (T cb (plug actx (T ca al a ar)) b br)) →
  returns (RBTree.swap (Some a) (Some b) s)
    (λ _ s', holds s' (plug ctx (T cb (plug actx (T ca al b ar)) a br))).
Proof.
  intros (Hroot & Hrep & Hctx & HND)%holds_plug_inv.
  destruct actx as [|[[] cq q qs] actx1], ctx as [|[[] cp p sib] ctx'].
  all: swap_tac.
Qed.

Lemma swap_above_r s ctx cb bl b actx ca al a ar :
  holds s (plug ctx (T cb bl b (plug actx (T ca al a ar)))) →
  returns (RBTree.swap (Some a) (Some b) s)
    (λ _ s', holds s' (plug ctx (T cb bl a (plug actx (T ca al b ar))))).
Proof.
  intros (Hroot & Hrep & Hctx & HND)%holds_plug_inv.
  destruct actx as [|[[] cq q qs] actx1], ctx as [|[[] cp p sib] ctx'].
  all: swap_tac.
Qed.

End SwapCases.

(** * What [swap] does to the shape *)

(** Exchanging the references [a] and [b]. *)
Definition transp (a b x : ref) : ref :=
  if decide (x = a) then b else if decide (x = b) then a else x.

(** Renaming the nodes of a tree; colours stay with the positions. *)
Fixpoint tmap (σ : ref → ref) (t : tree) : tree :=
  match t with
  | E => E
  | T c l x r => T c (tmap σ l) (σ x) (tmap σ r)
  end.

(** The two shapes differ in that [a] and [b] have changed places. *)
Inductive exchanged (a b : ref) : tree → tree → Prop :=
| exchanged_below_l ctx ca ar bctx cb bl br :
    exchanged a b (plug ctx (T ca (plug bctx (T cb bl b br)) a ar))
                  (plug ctx (T ca (plug bctx (T cb bl a br)) b ar))
| exchanged_below_r ctx ca al bctx cb bl br :
    exchanged a b (plug ctx (T ca al a (plug bctx (T cb bl b br))))
                  (plug ctx (T ca al b (plug bctx (T cb bl a br))))
| exchanged_above_l ctx cb br actx ca al ar :
    exchanged a b (plug ctx (T cb (plug actx (T ca al a ar)) b br))
                  (plug ctx (T cb (plug actx (T ca al b ar)) a br))
| exchanged_above_r ctx cb bl actx ca al ar :
    exchanged a b (plug ctx (T cb bl b (plug actx (T ca al a ar))))
                  (plug ctx (T cb bl a (plug actx (T ca al b ar))))
| exchanged_apart_lr ctx cg g actx ca al ar bctx cb bl br :
    exchanged a b
      (plug ctx (T cg (plug actx (T ca al a ar)) g (plug bctx (T cb bl b br))))
      (plug ctx (T cg (plug actx (T ca al b ar)) g (plug bctx (T cb bl a br))))
| exchanged_apart_rl ctx cg g actx ca al ar bctx cb bl br :
    exchanged a b
      (plug ctx (T cg (plug bctx (T cb bl b br)) g (plug actx (T ca al a ar))))
      (plug ctx (T cg (plug bctx (T cb bl a br)) g (plug actx (T ca al b ar)))).

Section Renaming.
Implicit Types (t l r : tree) (ctx : list frame) (σ : ref → ref).

Lemma transp_l a b : transp a b a = b.
Proof. unfold transp. by rewrite decide_True. Qed.

Lemma transp_r a b : transp a b b = a.
Proof. unfold transp. destruct (decide (b = a)); [done|by rewrite decide_True]. Qed.

Lemma transp_other a b x : x ≠ a → x ≠ b → transp a b x = x.
Proof. intros. unfold transp. by rewrite !decide_False. Qed.

Lemma transp_same a x : transp a a x = x.
Proof. unfold transp. by destruct (decide (x = a)). Qed.

Lemma transp_involutive a b x : transp a b (transp a b x) = x.
Proof. unfold transp. repeat (case_decide; subst; try done). Qed.

Lemma inorder_tmap σ t : inorder (tmap σ t) = map σ (inorder t).
Proof.
  induction t as [|c l IHl x r IHr]; [done|].
  cbn [tmap inorder]. by rewrite map_app, IHl, IHr.
Qed.

Lemma tmap_ext σ t : (∀ x, x ∈ inorder t → σ x = x) → tmap σ t = t.
Proof.
  induction t as [|c l IHl x r IHr]; [done|]. cbn [tmap inorder]. intros H.
  rewrite IHl, IHr, H; [done|set_solver..].
Qed.

Lemma tmap_plug σ ctx : ∀ t,
  (∀ x, x ∈ ctx_before ctx ++ ctx_after ctx → σ x = x) →
  tmap σ (plug ctx t) = plug ctx (tmap σ t).
Proof.
  induction ctx as [|[d c y sib] ctx IH]; intros t H; [done|].
  cbn [plug]. rewrite IH.
  - assert (σ y = y) as Hy.
    { apply H. destruct d; cbn [ctx_before ctx_after fdir fid fsib]; set_solver. }
    assert (tmap σ sib = sib) as Hs.
    { apply tmap_ext. intros z Hz. apply H.
      destruct d; cbn [ctx_before ctx_after fdir fid fsib]; set_solver. }
    f_equal. destruct d; cbn [fill fdir fid fsib fcolor tmap]; by rewrite Hy, Hs.
  - intros z Hz. apply H. destruct d; cbn [ctx_before ctx_after fdir fid fsib]; set_solver.
Qed.

Lemma color_of_tmap σ t : color_of (tmap σ t) = color_of t.
Proof. by destruct t. Qed.

Lemma rb_tmap σ t : ∀ n, rb (tmap σ t) n ↔ rb t n.
Proof.
  induction t as [|c l IHl x r IHr]; intros n; [done|].
  cbn [tmap rb]. destruct c.
  - by rewrite !color_of_tmap, IHl, IHr.
  - destruct n; [done|]. by rewrite IHl, IHr.
Qed.

Lemma is_rbtree_tmap σ t : is_rbtree (tmap σ t) ↔ is_rbtree t.
Proof.
  unfold is_rbtree. rewrite color_of_tmap. by setoid_rewrite rb_tmap.
Qed.

Lemma height_tmap σ t : height (tmap σ t) = height t.
Proof. induction t as [|c l IHl x r IHr]; [done|]. cbn [tmap height]. by rewrite IHl, IHr. Qed.

Lemma exchanged_fill a b f t t' :
  exchanged a b t t' → exchanged a b (fill f t) (fill f t').
Proof.
  intros H. change (fill f t) with (plug [f] t). change (fill f t') with (plug [f] t').
  destruct H; rewrite <- !plug_app; constructor.
Qed.

(** Two different members always stand in one of the six relations. *)
Lemma exchanged_exists a b t :
  a ∈ inorder t → b ∈ inorder t → a ≠ b → ∃ t', exchanged a b t t'.
Proof.
  induction t as [|c l IHl x r IHr]; [by intros ?%elem_of_nil|].
  cbn [inorder]. rewrite !elem_of_app, !elem_of_cons. intros Ha Hb Hne.
  destruct Ha as [Ha|[->|Ha]], Hb as [Hb|[->|Hb]]; try done.
  - destruct (IHl Ha Hb Hne) as [l' Hl]. exists (T c l' x r).
    apply (exchanged_fill a b (Frame L c x r) _ _ Hl).
  - destruct (in_inorder_plug _ _ Ha) as (actx & ca & al & ar & ->).
    eexists. apply (exchanged_above_l _ _ []).
  - destruct (in_inorder_plug _ _ Ha) as (actx & ca & al & ar & ->).
    destruct (in_inorder_plug _ _ Hb) as (bctx & cb & bl & br & ->).
    eexists. apply (exchanged_apart_lr _ _ []).
  - destruct (in_inorder_plug _ _ Hb) as (bctx & cb & bl & br & ->).
    eexists. apply (exchanged_below_l _ _ []).
  - destruct (in_inorder_plug _ _ Hb) as (bctx & cb & bl & br & ->).
    eexists. apply (exchanged_below_r _ _ []).
  - destruct (in_inorder_plug _ _ Ha) as (actx & ca & al & ar & ->).
    destruct (in_inorder_plug _ _ Hb) as (bctx & cb & bl & br & ->).
    eexists. apply (exchanged_apart_rl _ _ []).
  - destruct (in_inorder_plug _ _ Ha) as (actx & ca & al & ar & ->).
    eexists. apply (exchanged_above_r _ _ []).
  - destruct (IHr Ha Hb Hne) as [r' Hr]. exists (T c l x r').
    apply (exchanged_fill a b (Frame R c x l) _ _ Hr).
Qed.

End Renaming.

Ltac untouched_tac :=
  let x := fresh "x" in
  let Hx := fresh "Hx" in
  intros x Hx%occ_elem; apply transp_other; fast_ne.

Section SwapSpec.
Context {K V : Type}.
Implicit Types (s : RBTree K V) (t l r : tree) (ctx : list frame).

(** Exchanged shapes are renamings of one another. *)
Lemma exchanged_tmap a b t t' :
  exchanged a b t t' → NoDup (inorder t) → t' = tmap (transp a b) t.
Proof.
  intros H HND. destruct H; occ_init;
    repeat first
      [ rewrite tmap_plug by untouched_tac
      | rewrite tmap_ext by untouched_tac
      | rewrite transp_l
      | rewrite transp_r
      | rewrite transp_other by fast_ne
      | progress cbn [tmap] ];
    reflexivity.
Qed.

Lemma exchanged_swap s a b t t' :
  exchanged a b t t' → holds s t →
  returns (RBTree.swap (Some a) (Some b) s) (λ _ s', holds s' t').
Proof.
  intros H Hs. destruct H.
  - by apply swap_below_l.
  - by apply swap_below_r.
  - by apply swap_above_l.
  - by apply swap_above_r.
  - by apply swap_apart_lr.
  - by apply swap_apart_rl.
Qed.

(** [swap] on two members: the store afterwards holds the same shape with
    the two nodes exchanged, and no key or value has moved. *)
Lemma swap_spec s t a b :
  holds s t → a ∈ inorder t → b ∈ inorder t →
  returns (RBTree.swap (Some a) (Some b) s)
    (λ _ s', holds s' (tmap (transp a b) t) ∧ kv_same s s').
Proof.
  intros Hs Ha Hb. destruct (decide (a = b)) as [<-|Hne].
  - unfold RBTree.swap. rewrite ptr_eq_refl. apply returns_Ret.
    split; [|apply kv_same_refl].
    rewrite tmap_ext; [done|]. intros x _. apply transp_same.
  - destruct (exchanged_exists a b t Ha Hb Hne) as [t' Ht'].
    destruct (exchanged_swap s a b t t' Ht' Hs) as (u & s' & Hr & Hs').
    exists u, s'. split; [done|]. split.
    + by rewrite <- (exchanged_tmap a b t t' Ht' (holds_NoDup _ _ Hs)).
    + by eapply pres_swap.
Qed.

End SwapSpec.

(** * Reversing a range *)

(** The same positions and colours, holding the same nodes in another
    arrangement. *)
Definition rearranged (t t' : tree) : Prop :=
  ∃ σ, t' = tmap σ t ∧ inorder t' ≡ₚ inorder t.

Section Rearranged.
Implicit Types (t l r : tree).

Lemma tmap_compose σ τ t : tmap σ (tmap τ t) = tmap (σ ∘ τ) t.
Proof. induction t as [|c l IHl x r IHr]; [done|]. cbn [tmap]. by rewrite IHl, IHr. Qed.

Lemma rearranged_refl t : rearranged t t.
Proof. exists id. split; [|done]. symmetry. by apply tmap_ext. Qed.

Lemma rearranged_trans t1 t2 t3 : rearranged t1 t2 → rearranged t2 t3 → rearranged t1 t3.
Proof.
  intros (σ & -> & H1) (τ & -> & H2). exists (τ ∘ σ). split; [by rewrite tmap_compose|].
  by rewrite H2.
Qed.

Lemma rearranged_rbtree t t' : rearranged t t' → is_rbtree t → is_rbtree t'.
Proof. intros (σ & -> & _). by rewrite is_rbtree_tmap. Qed.

Lemma rearranged_height t t' : rearranged t t' → height t' = height t.
Proof. intros (σ & -> & _). apply height_tmap. Qed.

Lemma rearranged_elem t t' x : rearranged t t' → x ∈ inorder t' ↔ x ∈ inorder t.
Proof. intros (σ & -> & Hp). by rewrite Hp. Qed.

Lemma map_transp_other a b (xs : list ref) :
  a ∉ xs → b ∉ xs → map (transp a b) xs = xs.
Proof.
  induction xs as [|x xs IH]; [done|]. rewrite !not_elem_of_cons.
  intros [? ?] [? ?]. cbn [map]. by rewrite transp_other, IH.
Qed.

(** Exchanging the two ends of a stretch of the in-order sequence. *)
Lemma map_transp_ends a b (P M S : list ref) :
  NoDup (P ++ a :: M ++ b :: S) →
  map (transp a b) (P ++ a :: M ++ b :: S) = P ++ b :: M ++ a :: S.
Proof.
  intros HND. assert (Hocc := λ z, occ_NoDup z _ HND).
  assert (Ha : ∀ L, L = P ∨ L = M ∨ L = S → a ∉ L ∧ b ∉ L).
  { intros L HL. split; intros Hx%occ_elem.
    - specialize (Hocc a). rewrite occ_app, occ_cons_eq, occ_app, occ_cons in Hocc.
      destruct HL as [-> | [-> | ->]]; lia.
    - specialize (Hocc b). rewrite occ_app, occ_cons, occ_app, occ_cons_eq in Hocc.
      destruct HL as [-> | [-> | ->]]; lia. }
  rewrite map_app. cbn [map]. rewrite map_app. cbn [map].
  rewrite transp_l, transp_r.
  destruct (Ha P) as [? ?]; [auto|]. destruct (Ha M) as [? ?]; [auto|].
  destruct (Ha S) as [? ?]; [auto|]. by rewrite !map_transp_other.
Qed.

Lemma swap_rearranged t a b :
  NoDup (inorder t) → a ∈ inorder t → b ∈ inorder t →
  rearranged t (tmap (transp a b) t).
Proof.
  intros HND Ha Hb. exists (transp a b). split; [done|].
  rewrite inorder_tmap. destruct (decide (a = b)) as [<-|Hne].
  { rewrite (map_ext _ id); [by rewrite map_id|]. intros x. apply transp_same. }
  apply NoDup_Permutation; [|done|].
  - apply NoDup_fmap_2; [|done]. intros x y Hxy.
    by rewrite <- (transp_involutive a b x), Hxy, transp_involutive.
  - intros x. rewrite list_elem_of_fmap. split.
    + intros (y & -> & Hy). unfold transp. repeat case_decide; by subst.
    + intros Hx. exists (transp a b x). rewrite transp_involutive. split; [done|].
      unfold transp. repeat case_decide; by subst.
Qed.

End Rearranged.

Section Reverse.
Context {K V : Type}.
Implicit Types (s : RBTree K V) (t l r : tree) (P M R S : list ref).

Lemma holds_rearranged_swap s t a b :
  holds s t → a ∈ inorder t → b ∈ inorder t →
  returns (RBTree.swap (Some a) (Some b) s)
    (λ _ s', holds s' (tmap (transp a b) t) ∧ kv_same s s' ∧
             rearranged t (tmap (transp a b) t)).
Proof.
  intros H Ha Hb. eapply returns_mono; [by apply swap_spec|].
  intros _ s' [? ?]. do 2 (split; [done|]).
  apply swap_rearranged; [by eapply holds_NoDup|done|done].
Qed.

(** [reverse] on the two ends of a stretch [R] of the in-order sequence: the
    stretch is reversed, what lies before and after stays. *)
Lemma reverse_spec fuel : ∀ s t P R S x y,
  holds s t → inorder t = P ++ R ++ S → head R = Some x → last R = Some y →
  (length R + height t < fuel)%nat →
  returns (RBTree.reverse fuel (Some x) (Some y) s)
    (λ _ s', ∃ t', holds s' t' ∧ rearranged t t' ∧
                   inorder t' = P ++ reverse R ++ S ∧ kv_same s s').
Proof.
  induction fuel as [|fuel IH]; intros s t P R S x y H Hin Hx Hy Hf; [lia|].
  cbn [RBTree.reverse].
  destruct R as [|x' R']; [done|]. injection Hx as ->.
  destruct R' as [|m R''] using rev_ind.
  { (* a single node *)
    injection Hy as ->. rewrite ptr_eq_refl. apply returns_Ret.
    exists t. split; [done|]. split; [apply rearranged_refl|].
    split; [done|apply kv_same_refl]. }
  clear IHR''. rewrite last_cons, last_snoc in Hy. injection Hy as ->.
  rename R'' into M. cbn [length] in Hf. rewrite length_app in Hf. cbn [length] in Hf.
  assert (Hin' : inorder t = P ++ x :: M ++ y :: S).
  { rewrite Hin. cbn [app]. by rewrite <- !app_assoc. }
  assert (HND' : NoDup (P ++ x :: M ++ y :: S)).
  { rewrite <- Hin'. by eapply holds_NoDup. }
  assert (Hxy : x ≠ y).
  { intros ->. apply NoDup_app in HND' as (_ & _ & HND').
    apply NoDup_cons in HND' as [Hn _]. apply Hn. set_solver. }
  rewrite (ptr_eq_Some_ne _ _ Hxy).
  rewrite (bind_Ret _ _ _ _ _ (succ_spec s t fuel P x (M ++ y :: S) H Hin' ltac:(lia))).
  assert (Hin'' : inorder t = (P ++ x :: M) ++ y :: S).
  { rewrite Hin'. by rewrite <- app_assoc. }
  rewrite (bind_Ret _ _ _ _ _ (pred_spec s t fuel (P ++ x :: M) y S H Hin'' ltac:(lia))).
  eapply returns_bind.
  { apply (holds_rearranged_swap s t x y H); rewrite Hin'; set_solver. }
  intros _ s1 (H1 & Hkv1 & Hre1). cbv beta.
  assert (Hin1 : inorder (tmap (transp x y) t) = P ++ y :: M ++ x :: S).
  { by rewrite inorder_tmap, Hin', map_transp_ends. }
  assert (Hfinal : (P ++ [y]) ++ reverse M ++ x :: S = P ++ reverse (x :: M ++ [y]) ++ S).
  { rewrite reverse_cons, reverse_snoc. cbn [app]. by rewrite <- !app_assoc. }
  destruct M as [|m1 M'].
  - (* the two ends are neighbours *)
    cbn [app last]. rewrite last_snoc, ptr_eq_refl. apply returns_Ret.
    eexists. split; [done|]. split; [done|]. split; [|done].
    rewrite Hin1. cbn [app] in Hfinal |- *. rewrite <- Hfinal.
    cbn [reverse app]. by rewrite <- app_assoc.
  - assert (∃ mk, last (P ++ x :: m1 :: M') = Some mk ∧ last (m1 :: M') = Some mk)
      as (mk & Hlast & Hmk).
    { destruct (last (m1 :: M')) as [mk|] eqn:E.
      - exists mk. split; [|done]. rewrite last_app, last_cons, E. done.
      - by apply last_None_nil in E. }
    rewrite Hlast. cbn [app head].
    assert (Hne : x ≠ mk).
    { intros ->. apply NoDup_app in HND' as (_ & _ & HND').
      apply NoDup_cons in HND' as [Hn _]. apply Hn.
      apply elem_of_app. left. by apply last_Some_elem_of. }
    rewrite (ptr_eq_Some_ne _ _ Hne).
    eapply returns_mono.
    { apply (IH s1 (tmap (transp x y) t) (P ++ [y]) (m1 :: M') (x :: S) m1 mk H1).
      - rewrite Hin1. by rewrite <- !app_assoc.
      - done.
      - done.
      - rewrite height_tmap. cbn [length] in *. lia. }
    intros _ s' (t' & H' & Hre' & Hin2 & Hkv'). exists t'.
    split; [done|]. split; [by eapply rearranged_trans|].
    split; [|by eapply kv_same_trans].
    by rewrite Hin2, Hfinal.
Qed.

(** A handle that is null or a member. *)
Definition member_or_null t (p : ptr) : Prop :=
  match p with Some x => x ∈ inorder t | None => True end.

Lemma succ_result s t fuel x p s' :
  holds s t → x ∈ inorder t → RBTreeNode.succ fuel (Some x) s = Ret p s' →
  s' = s ∧ member_or_null t p.
Proof.
  intros H Hx Hr. destruct (list_elem_of_split _ _ Hx) as (l1 & l2 & Hin).
  set (F := (fuel `max` S (height t))%nat).
  assert (height t < F)%nat as HF by (unfold F; lia).
  assert (fuel ≤ F)%nat as HF' by (unfold F; lia).
  pose proof (succ_spec s t F l1 x l2 H Hin HF) as Hs.
  rewrite (le_M_Ret _ _ _ _ _ (succ_mono fuel F (Some x) HF') Hr) in Hs.
  injection Hs as -> ->. split; [done|].
  destruct l2 as [|z l2]; [done|]. cbn. rewrite Hin. set_solver.
Qed.

Lemma pred_result s t fuel x p s' :
  holds s t → x ∈ inorder t → RBTreeNode.pred fuel (Some x) s = Ret p s' →
  s' = s ∧ member_or_null t p.
Proof.
  intros H Hx Hr. destruct (list_elem_of_split _ _ Hx) as (l1 & l2 & Hin).
  set (F := (fuel `max` S (height t))%nat).
  assert (height t < F)%nat as HF by (unfold F; lia).
  assert (fuel ≤ F)%nat as HF' by (unfold F; lia).
  pose proof (pred_spec s t F l1 x l2 H Hin HF) as Hs.
  rewrite (le_M_Ret _ _ _ _ _ (pred_mono fuel F (Some x) HF') Hr) in Hs.
  injection Hs as -> ->. split; [done|].
  destruct (last l1) as [z|] eqn:E; [|done]. cbn. rewrite Hin.
  apply last_Some_elem_of in E. set_solver.
Qed.

(** Whatever two members [reverse] is given, if it returns it has only
    exchanged nodes. *)
Lemma reverse_returns fuel : ∀ s t first last u s',
  holds s t → member_or_null t first → member_or_null t last →
  RBTree.reverse fuel first last s = Ret u s' →
  ∃ t', holds s' t' ∧ rearranged t t' ∧ kv_same s s'.
Proof.
  induction fuel as [|fuel IH]; intros s t first last u s' H Hfirst Hlast Hr; [done|].
  cbn [RBTree.reverse] in Hr.
  destruct (ptr_eq first last).
  { injection Hr as _ <-. exists t. split; [done|].
    split; [apply rearranged_refl|apply kv_same_refl]. }
  apply bind_inv in Hr as (sp & s1 & Hsucc & Hr).
  destruct first as [x|]; [|done]. cbn in Hfirst.
  destruct (succ_result s t fuel x sp s1 H Hfirst Hsucc) as [-> Hsp].
  apply bind_inv in Hr as (pp & s1 & Hpred & Hr).
  destruct last as [y|]; [|done]. cbn in Hlast.
  destruct (pred_result s t fuel y pp s1 H Hlast Hpred) as [-> Hpp].
  apply bind_inv in Hr as (u1 & s1 & Hswap & Hr).
  destruct (holds_rearranged_swap s t x y H Hfirst Hlast)
    as (u1' & s1' & Hswap' & H1 & Hkv1 & Hre1).
  rewrite Hswap in Hswap'. injection Hswap' as <- <-.
  destruct (ptr_eq (Some x) pp).
  { injection Hr as _ <-. eauto. }
  destruct (IH s1 (tmap (transp x y) t) sp pp u s' H1) as (t' & H' & Hre' & Hkv'); [..|done|].
  - destruct sp; [|done]. cbn in *. by apply (rearranged_elem t).
  - destruct pp; [|done]. cbn in *. by apply (rearranged_elem t).
  - exists t'. split; [done|].
    split; [by eapply rearranged_trans|by eapply kv_same_trans].
Qed.

End Reverse.

(** * Links of a renamed tree *)

Definition cmap (σ : ref → ref) (ctx : list frame) : list frame :=
  map (λ f, Frame (fdir f) (fcolor f) (σ (fid f)) (tmap σ (fsib f))) ctx.

Section Links.
Context {K V : Type}.
Implicit Types (s : RBTree K V) (t l r : tree) (ctx : list frame) (σ : ref → ref).

Lemma tmap_plug_cmap σ ctx : ∀ t, tmap σ (plug ctx t) = plug (cmap σ ctx) (tmap σ t).
Proof.
  induction ctx as [|[[] c y sib] ctx IH]; intros t; [done|..];
    cbn [plug cmap map fill fdir fid fsib fcolor]; by rewrite IH.
Qed.

Lemma root_of_tmap σ t : root_of (tmap σ t) = σ <$> root_of t.
Proof. by destruct t. Qed.

Lemma ctx_par_cmap σ ctx : ctx_par None (cmap σ ctx) = σ <$> ctx_par None ctx.
Proof. by destruct ctx. Qed.

(** In a store that holds the renamed tree, node [σ x] carries the links
    that [x] had, renamed, and the colour that [x] had. *)
Lemma holds_tmap_links s s' t σ x n :
  holds s t → holds s' (tmap σ t) → x ∈ inorder t → nodes s !! x = Some n →
  ∃ n', nodes s' !! σ x = Some n' ∧
        _parent n' = σ <$> _parent n ∧ _left n' = σ <$> _left n ∧
        _right n' = σ <$> _right n ∧ _color n' = _color n.
Proof.
  intros H H' Hx Hn. destruct (in_inorder_plug _ _ Hx) as (ctx & c & l & r & ->).
  destruct (holds_focus _ _ _ _ _ _ H) as (n0 & Hn0 & Hp & Hl & Hr & Hc).
  rewrite Hn in Hn0. injection Hn0 as <-.
  rewrite tmap_plug_cmap in H'. cbn [tmap] in H'.
  destruct (holds_focus _ _ _ _ _ _ H') as (n' & Hn' & Hp' & Hl' & Hr' & Hc').
  exists n'. split; [done|].
  rewrite Hp', Hl', Hr', Hc', Hp, Hl, Hr, Hc, ctx_par_cmap, !root_of_tmap. done.
Qed.

(** Every child points back at its parent. *)
Lemma holds_backlinks s t x n y :
  holds s t → x ∈ inorder t → nodes s !! x = Some n →
  _left n = Some y ∨ _right n = Some y →
  y ∈ inorder t ∧ ∃ m, nodes s !! y = Some m ∧ _parent m = Some x.
Proof.
  intros H Hx Hn Hy. destruct (in_inorder_plug _ _ Hx) as (ctx & c & l & r & ->).
  destruct (holds_focus _ _ _ _ _ _ H) as (n0 & Hn0 & _ & Hl & Hr & _).
  rewrite Hn in Hn0. injection Hn0 as <-.
  destruct Hy as [Hy|Hy].
  - rewrite Hl in Hy. destruct l as [|cl ll z lr]; [done|]. injection Hy as ->.
    destruct (holds_focus s (Frame L c x r :: ctx) cl ll y lr H) as (m & Hm & Hp & _).
    split; [|eauto]. rewrite inorder_plug. cbn [inorder]. set_solver.
  - rewrite Hr in Hy. destruct r as [|cr rl z rr]; [done|]. injection Hy as ->.
    destruct (holds_focus s (Frame R c x l :: ctx) cr rl y rr H) as (m & Hm & Hp & _).
    split; [|eauto]. rewrite inorder_plug. cbn [inorder]. set_solver.
Qed.

End Links.

(** * Swap, reverse and the colouring *)

Section SwapClaims.
Context {K V : Type}.
Implicit Types (s : RBTree K V) (live : gset ref) (t l r : tree) (ctx : list frame).

(** C4: for two members [a] and [b] of a well-formed tree, [swap] returns;
    with [a = b] nothing changes; otherwise the store holds the same shape
    with [a] and [b] exchanged, so each of the two carries the parent, the
    children and the colour the other had (renamed where the two were
    adjacent), every node keeps its key and value, every child points back at
    its parent, and the in-order sequence is the old one with [a] and [b]
    exchanged. *)
Theorem swap_exchanges_positions s t a b :
  holds s t → a ∈ inorder t → b ∈ inorder t →
  ∃ s', RBTree.swap (Some a) (Some b) s = Ret tt s' ∧
    (a = b → s' = s) ∧
    holds s' (tmap (transp a b) t) ∧
    inorder (tmap (transp a b) t) = map (transp a b) (inorder t) ∧
    kv_same s s' ∧
    (∀ x n, x ∈ inorder t → nodes s !! x = Some n →
       ∃ n', nodes s' !! transp a b x = Some n' ∧
             _parent n' = transp a b <$> _parent n ∧
             _left n' = transp a b <$> _left n ∧
             _right n' = transp a b <$> _right n ∧
             _color n' = _color n) ∧
    (∀ x n y, x ∈ inorder t → nodes s' !! x = Some n →
       _left n = Some y ∨ _right n = Some y →
       ∃ m, nodes s' !! y = Some m ∧ _parent m = Some x).
Proof.
  intros H Ha Hb.
  destruct (swap_spec s t a b H Ha Hb) as ([] & s' & Hr & H' & Hkv).
  exists s'. split; [done|]. split; [|split; [done|split; [apply inorder_tmap|split; [done|split]]]].
  - intros <-. unfold RBTree.swap in Hr. rewrite ptr_eq_refl in Hr. by injection Hr.
  - intros x n Hx Hn. by apply (holds_tmap_links s s' t).
  - intros x n y Hx Hn Hy.
    destruct (holds_backlinks s' _ x n y H') as (_ & m & Hm); [|done|done|eauto].
    apply (rearranged_elem t); [|done].
    apply swap_rearranged; [by eapply holds_NoDup|done|done].
Qed.

(** What [swap] leaves behind when the two nodes are the children of [p]. *)
Definition siblings_swapped s s' ctx cp p ca al a ar cb bl b br : Prop :=
  holds s' (plug ctx (T cp (T ca al b ar) p (T cb bl a br))) ∧ kv_same s s' ∧
  ∃ np np', nodes s !! p = Some np ∧ nodes s' !! p = Some np' ∧
            _parent np' = _parent np ∧ _left np' = Some b ∧ _right np' = Some a ∧
            _color np' = _color np.

(** C10: two children [a] (left) and [b] (right) of one node [p] have the
    same parent field, so [swap] takes the branch for equal parents; in
    either order of the arguments it returns a well-formed store in which
    [p] has [b] as left and [a] as right child and is otherwise untouched,
    and each of the two nodes has the colour and the subtrees the other had. *)
Theorem swap_siblings s ctx cp p ca al a ar cb bl b br :
  holds s (plug ctx (T cp (T ca al a ar) p (T cb bl b br))) →
  field _parent (Some a) s = Ret (Some p) s ∧
  field _parent (Some b) s = Ret (Some p) s ∧
  a ≠ b ∧
  (∃ s', RBTree.swap (Some a) (Some b) s = Ret tt s' ∧
         siblings_swapped s s' ctx cp p ca al a ar cb bl b br) ∧
  (∃ s', RBTree.swap (Some b) (Some a) s = Ret tt s' ∧
         siblings_swapped s s' ctx cp p ca al a ar cb bl b br).
Proof.
  intros H.
  pose proof (field_parent_holds s (Frame L cp p (T cb bl b br) :: ctx) ca al a ar H) as Hpa.
  pose proof (field_parent_holds s (Frame R cp p (T ca al a ar) :: ctx) cb bl b br H) as Hpb.
  assert (Hne : a ≠ b).
  { pose proof (holds_NoDup _ _ H) as HND. rewrite inorder_plug in HND. cbn [inorder] in HND.
    intros ->. apply NoDup_app in HND as (_ & _ & HND).
    apply NoDup_app in HND as (HND & _ & _).
    rewrite <- app_assoc in HND. apply NoDup_app in HND as (_ & _ & HND).
    apply NoDup_cons in HND as [Hn _]. apply Hn. set_solver. }
  do 3 (split; [done|]).
  assert (Hpost : ∀ s', holds s' (plug ctx (T cp (T ca al b ar) p (T cb bl a br))) →
                        kv_same s s' →
                        siblings_swapped s s' ctx cp p ca al a ar cb bl b br).
  { intros s' H' Hkv. split; [done|]. split; [done|].
    destruct (holds_focus _ _ _ _ _ _ H) as (np & Hnp & Hp & _ & _ & Hc).
    destruct (holds_focus _ _ _ _ _ _ H') as (np' & Hnp' & Hp' & Hl' & Hr' & Hc').
    exists np, np'. cbn [root_of] in *. rewrite Hp, Hp', Hc, Hc'. done. }
  split.
  - destruct (swap_apart_lr s ctx cp p [] ca al a ar [] cb bl b br H) as ([] & s' & Hr & H').
    exists s'. split; [done|]. apply Hpost; [done|]. by eapply pres_swap.
  - destruct (swap_apart_rl s ctx cp p [] cb bl b br [] ca al a ar H) as ([] & s' & Hr & H').
    exists s'. split; [done|]. apply Hpost; [done|]. by eapply pres_swap.
Qed.

End SwapClaims.

Section ColourClaims.
Context {K V : Type}.
Variable compare : K → K → Z.
Local Set Default Proof Using "Type compare".
Implicit Types (s : RBTree K V) (live : gset ref) (t l r : tree) (ctx : list frame).

Lemma insert_colored s live fuel key value p s' :
  colored s live → RBTree.insert compare fuel key value s = Ret p s' →
  colored s' (handle p ∪ live).
Proof.
  intros (t & H & Hrb & Hlive). revert fuel p s'.
  apply (returns_any_fuel (λ f, RBTree.insert compare f key value)
           (λ p s', colored s' (handle p ∪ live)) s (S (height t))).
  - intros f f' Hf. by apply insert_mono.
  - intros f Hf. eapply returns_mono.
    { apply (insert_spec compare key value s t f H Hrb). lia. }
    intros q s1 (y & -> & [(ctx & c & l & r & n & -> & _ & Hn & _ & ->)|
                            (ctx & t' & -> & _ & Hkv & H' & Hrb' & Hin)]).
    + exists (plug ctx (T c l y r)). split; [by apply holds_set_value|]. split; [done|].
      intros z. rewrite <- Hlive. cbn [handle].
      assert (y ∈ live). { apply Hlive. rewrite inorder_plug. cbn [inorder]. set_solver. }
      set_solver.
    + exists t'. split; [done|]. split; [done|].
      intros z. rewrite Hin. cbn [handle]. rewrite elem_of_union, elem_of_singleton, Hlive.
      rewrite !inorder_plug. cbn [inorder app]. rewrite !elem_of_app, elem_of_cons. tauto.
Qed.

Lemma remove_colored s live fuel x u s' :
  colored s live → x ∈ live → RBTree.remove fuel (Some x) s = Ret u s' →
  colored s' (live ∖ {[x]}).
Proof.
  intros (t & Ht) Hx Hr.
  destruct (remove_outcome compare s live t x fuel u s' Ht Hx Hr) as (_ & t' & Ht' & _).
  by exists t'.
Qed.

Lemma rearranged_colored s s' live t t' :
  tree_of s live t → holds s' t' → rearranged t t' → colored s' live.
Proof.
  intros (H & Hrb & Hlive) H' Hre. exists t'. split; [done|].
  split; [by eapply rearranged_rbtree|].
  intros z. by rewrite Hlive, (rearranged_elem t t').
Qed.

Lemma swap_colored s live a b u s' :
  colored s live → a ∈ live → b ∈ live → RBTree.swap (Some a) (Some b) s = Ret u s' →
  colored s' live.
Proof.
  intros (t & Ht) Ha Hb Hr. pose proof Ht as (H & _ & Hlive).
  apply Hlive in Ha, Hb.
  destruct (holds_rearranged_swap s t a b H Ha Hb) as (u' & s1 & Hr' & H1 & _ & Hre).
  rewrite Hr in Hr'. injection Hr' as <- <-. by eapply rearranged_colored.
Qed.

Lemma reverse_colored s live fuel a b u s' :
  colored s live → a ∈ live → b ∈ live →
  RBTree.reverse fuel (Some a) (Some b) s = Ret u s' → colored s' live.
Proof.
  intros (t & Ht) Ha Hb Hr. pose proof Ht as (H & _ & Hlive).
  apply Hlive in Ha, Hb.
  destruct (reverse_returns fuel s t (Some a) (Some b) u s' H Ha Hb Hr) as (t' & H' & Hre & _).
  by eapply rearranged_colored.
Qed.

Lemma reachable_colored allowed s live :
  reachable compare allowed s live → colored s live.
Proof.
  induction 1 as [|m s live s' live' _ IH _ Hstep].
  { exists E. apply tree_of_new. }
  inversion Hstep; subst.
  - eapply insert_colored; eassumption.
  - eapply remove_colored; eassumption.
  - eapply swap_colored; [exact IH| | |eassumption]; assumption.
  - eapply reverse_colored; [exact IH| | |eassumption]; assumption.
Qed.

(** C1: after any sequence of [insert], [remove], [swap] and [reverse] calls
    that all return, started on the empty tree, the red-black properties
    hold: the root is black, every member is red or black, a red node has no
    red child, and all ways down from a member to a null link pass the same
    number of black nodes. *)
Theorem mutations_keep_red_black s live :
  reachable compare any_mutation s live → red_black s live.
Proof.
  intros (t & Ht)%reachable_colored. by eapply tree_of_red_black.
Qed.

End ColourClaims.

Section ReverseClaim.
Context {K V : Type}.
Implicit Types (s : RBTree K V) (live : gset ref) (t : tree) (P R S : list ref).

Lemma keys_at_same s s' (xs : list ref) (ks : list K) :
  kv_same s s' → keys_at s xs ks → keys_at s' xs ks.
Proof.
  intros Hkv Hks. eapply Forall2_impl; [exact Hks|].
  intros x k Hk. cbv beta. by destruct (Hkv x) as [-> _].
Qed.

Lemma keys_at_head s (xs : list ref) (ks : list K) x k :
  keys_at s xs ks → head xs = Some x → key_of s x = Some k → head ks = Some k.
Proof. destruct 1 as [|? ? ? ? Hk _]; [done|]. intros [= ->] Hx. cbn. congruence. Qed.

Lemma keys_at_last s (xs : list ref) (ks : list K) x k :
  keys_at s xs ks → last xs = Some x → key_of s x = Some k → last ks = Some k.
Proof.
  intros H Hl Hx. apply last_Some_split in Hl as [xs' ->].
  apply Forall2_app_inv_l in H as (ks' & kx & _ & Hkx & ->).
  inversion Hkx as [|? k' ? ? Hk Hnil]; subst. inversion Hnil; subst.
  rewrite last_snoc. congruence.
Qed.

Lemma keys_ascending_spec s t (ks : list K) fuel :
  holds s t → keys_at s (inorder t) ks → (length (inorder t) + height t < fuel)%nat →
  keys_ascending fuel s = Ret ks s.
Proof.
  intros H Hks Hf. unfold keys_ascending.
  rewrite (bind_Ret _ _ _ _ _ (min_spec s t fuel H ltac:(lia))).
  by apply (walk_succ_spec s t H (inorder t) []).
Qed.

(** Walking the tree before and after [reverse] on a stretch [R] of the
    in-order sequence. *)
Lemma reverse_walk s t P R S lo hi (ksP ksR ksS : list K) fuel :
  holds s t → inorder t = P ++ R ++ S → head R = Some lo → last R = Some hi →
  keys_at s P ksP → keys_at s R ksR → keys_at s S ksS →
  (length (inorder t) + height t < fuel)%nat →
  keys_ascending fuel s = Ret (ksP ++ ksR ++ ksS) s ∧
  ∃ s' t', RBTree.reverse fuel (Some lo) (Some hi) s = Ret tt s' ∧
           holds s' t' ∧ rearranged t t' ∧ inorder t' = P ++ reverse R ++ S ∧
           kv_same s s' ∧
           keys_ascending fuel s' = Ret (ksP ++ reverse ksR ++ ksS) s'.
Proof.
  intros H Hin Hfirst Hlast HP HR HS Hf. split.
  { apply (keys_ascending_spec s t); [done| |done].
    rewrite Hin. apply Forall2_app; [done|]. by apply Forall2_app. }
  assert (length R ≤ length (inorder t))%nat as Hlen.
  { rewrite Hin, !length_app. lia. }
  destruct (reverse_spec fuel s t P R S lo hi H Hin Hfirst Hlast ltac:(lia))
    as ([] & s' & Hr & t' & H' & Hre & Hin' & Hkv).
  exists s', t'. do 5 (split; [done|]).
  apply (keys_ascending_spec s' t'); [done|..].
  - rewrite Hin'. apply (keys_at_same s s' _ _ Hkv).
    apply Forall2_app; [done|]. apply Forall2_app; [|done]. by apply Forall2_reverse.
  - rewrite (rearranged_height t t' Hre).
    destruct Hre as (σ & _ & Hp). by rewrite Hp.
Qed.

Variable compare : K → K → Z.
Hypothesis Hcmp : StrictTotal compare.

(** In a search tree a member with the smaller key stands first. *)
Lemma range_between s t lo hi kf kl :
  bst compare s t → lo ∈ inorder t → hi ∈ inorder t →
  key_of s lo = Some kf → key_of s hi = Some kl → compare kf kl ≤ 0 →
  ∃ P R S, inorder t = P ++ R ++ S ∧ head R = Some lo ∧ last R = Some hi.
Proof using Hcmp.
  intros Hs Hf Hl Hkf Hkl Hle.
  destruct (list_elem_of_split _ _ Hf) as (l1 & l2 & Hin).
  unfold bst in Hs. rewrite Hin in Hs, Hl.
  apply elem_of_app in Hl as [Hl|Hl].
  { destruct (StronglySorted_app_1_elem_of _ _ _ hi lo Hs Hl) as (k1 & k2 & ? & ? & Hlt);
      [left|]. simplify_eq. apply (cmp_flip compare Hcmp) in Hlt. lia. }
  apply elem_of_cons in Hl as [->|Hl].
  { exists l1, [lo], l2. by rewrite Hin. }
  destruct (list_elem_of_split _ _ Hl) as (m & S & ->).
  exists l1, (lo :: m ++ [hi]), S. split; [|split; [done|]].
  - rewrite Hin. cbn [app]. by rewrite <- !app_assoc.
  - by rewrite last_cons, last_snoc.
Qed.

(** C6: in a search tree, for members [lo] and [hi] with the key of
    [lo] not above the key of [hi], [reverse] returns when given enough
    fuel; a walk from [min] by [succ] before the call reads the keys
    [ksP ++ ksR ++ ksS], where [ksR] runs from the key of [lo] to the key
    of [hi], and after the call it reads [ksP ++ reverse ksR ++ ksS]; no
    node's key or value has changed, and the tree is still red-black. *)
Theorem reverse_reverses_range s live lo hi kf kl :
  wf compare s live → lo ∈ live → hi ∈ live →
  key_of s lo = Some kf → key_of s hi = Some kl → compare kf kl ≤ 0 →
  ∃ (ksP ksR ksS : list K) n,
    head ksR = Some kf ∧ last ksR = Some kl ∧
    ∀ fuel, (n ≤ fuel)%nat →
      keys_ascending fuel s = Ret (ksP ++ ksR ++ ksS) s ∧
      ∃ s', RBTree.reverse fuel (Some lo) (Some hi) s = Ret tt s' ∧
            keys_ascending fuel s' = Ret (ksP ++ reverse ksR ++ ksS) s' ∧
            kv_same s s' ∧ colored s' live.
Proof using Hcmp.
  intros (t & Ht & Hs) Hf Hl Hkf Hkl Hle. pose proof Ht as (H & Hrb & Hlive).
  apply Hlive in Hf, Hl.
  destruct (range_between s t lo hi kf kl Hs Hf Hl Hkf Hkl Hle)
    as (P & R & S & Hin & Hfirst & Hlast).
  destruct (keys_at_exist s t P H) as [ksP HP]; [rewrite Hin; set_solver|].
  destruct (keys_at_exist s t R H) as [ksR HR]; [rewrite Hin; set_solver|].
  destruct (keys_at_exist s t S H) as [ksS HS]; [rewrite Hin; set_solver|].
  exists ksP, ksR, ksS, (Datatypes.S (length (inorder t) + height t)).
  split; [by eapply keys_at_head|]. split; [by eapply keys_at_last|].
  intros fuel Hfuel.
  destruct (reverse_walk s t P R S lo hi ksP ksR ksS fuel H Hin Hfirst Hlast HP HR HS
              ltac:(lia)) as (Hbefore & s' & t' & Hr & H' & Hre & _ & Hkv & Hafter).
  split; [done|]. exists s'. do 3 (split; [done|]).
  by eapply rearranged_colored.
Qed.

End ReverseClaim.

(** * A concrete tree

    The comparator of the test suite ([compare(a, b) = a - b]) on integer
    keys, and the tree obtained from the empty one by inserting the keys
    5, 3, 8, 1, 4, 7, 9 in that order.  The theorems above are instantiated
    on it. *)

Module Sample.

Definition compare (a b : Z) : Z := a - b.

(** One call [tree.insert(k, 10 * k)], recording the handle it returns. *)
Definition grow (st : RBTree Z Z * gset ref) (k : Z) : RBTree Z Z * gset ref :=
  match RBTree.insert compare 10 k (10 * k) st.1 with
  | Ret p s' => (s', handle p ∪ st.2)
  | _ => st
  end.

Definition run (keys : list Z) : RBTree Z Z * gset ref :=
  foldl grow (RBTree.new, ∅) keys.

Definition seven : RBTree Z Z :=
  mkTree (Some 0%nat)
    (<[0%nat := mkNode None (Some 1%nat) (Some 2%nat) Black 5 50]>
     (<[1%nat := mkNode (Some 0%nat) (Some 3%nat) (Some 4%nat) Black 3 30]>
     (<[2%nat := mkNode (Some 0%nat) (Some 5%nat) (Some 6%nat) Black 8 80]>
     (<[3%nat := mkNode (Some 1%nat) None None Red 1 10]>
     (<[4%nat := mkNode (Some 1%nat) None None Red 4 40]>
     (<[5%nat := mkNode (Some 2%nat) None None Red 7 70]>
     (<[6%nat := mkNode (Some 2%nat) None None Red 9 90]> ∅))))))).

Definition seven_live : gset ref := list_to_set (seq 0 7).

Definition seven_shape : tree :=
  T Black (T Black (T Red E 3%nat E) 1%nat (T Red E 4%nat E)) 0%nat
          (T Black (T Red E 5%nat E) 2%nat (T Red E 6%nat E)).

Lemma compare_strict : StrictTotal compare.
Proof. split; unfold compare; intros; lia. Qed.

Lemma grow_reachable allowed st k :
  (∀ key value, allowed (Minsert key value)) →
  reachable compare allowed st.1 st.2 →
  reachable compare allowed (grow st k).1 (grow st k).2.
Proof.
  intros Hall H. unfold grow.
  destruct (RBTree.insert compare 10 k (10 * k) st.1) as [p s'| | |] eqn:E; try done.
  cbn. apply (reach_step compare allowed (Minsert k (10 * k)) st.1 st.2); [exact H|apply Hall|].
  by apply step_insert with (fuel := 10%nat).
Qed.

Lemma run_reachable allowed keys :
  (∀ key value, allowed (Minsert key value)) →
  reachable compare allowed (run keys).1 (run keys).2.
Proof.
  intros Hall. unfold run.
  set (st0 := (@RBTree.new Z Z, ∅ : gset ref)).
  assert (H : reachable compare allowed st0.1 st0.2) by exact (reach_new compare allowed).
  clearbody st0. revert st0 H.
  induction keys as [|k keys IH]; intros st H; [done|].
  cbn [foldl]. apply IH. by apply grow_reachable.
Qed.

Lemma run_seven : run [5; 3; 8; 1; 4; 7; 9] = (seven, seven_live).
Proof. by vm_compute. Qed.

Lemma seven_built : built compare seven seven_live.
Proof.
  pose proof (run_reachable order_keeping [5; 3; 8; 1; 4; 7; 9]) as H.
  rewrite run_seven in H. by apply H.
Qed.

Lemma seven_reachable : reachable compare any_mutation seven seven_live.
Proof.
  pose proof (run_reachable any_mutation [5; 3; 8; 1; 4; 7; 9]) as H.
  rewrite run_seven in H. by apply H.
Qed.

Lemma seven_holds : holds seven seven_shape.
Proof.
  split; [done|]. split.
  - cbn. repeat (first [done | split | eexists; split; [reflexivity|cbn]]).
  - apply (bool_decide_unpack _). by vm_compute.
Qed.

Lemma seven_member (x : ref) : (x < 7)%nat → x ∈ seven_live.
Proof.
  intros Hx. apply elem_of_list_to_set, elem_of_seq. lia.
Qed.

(** Exchanging the leaf holding 1 and the inner node holding 8. *)
Definition exchanged38 : RBTree Z Z :=
  match RBTree.swap (Some 3%nat) (Some 2%nat) seven with
  | Ret _ s' => s'
  | _ => seven
  end.

Lemma swap_seven : RBTree.swap (Some 3%nat) (Some 2%nat) seven = Ret tt exchanged38.
Proof. by vm_compute. Qed.

Lemma exchanged38_reachable : reachable compare any_mutation exchanged38 seven_live.
Proof.
  apply (reach_step compare any_mutation (Mswap 3%nat 2%nat) seven seven_live);
    [exact seven_reachable|exact I|].
  apply step_swap; [apply seven_member; lia|apply seven_member; lia|exact swap_seven].
Qed.

End Sample.

Lemma traversal_in_key_order_witness :
  built Sample.compare Sample.seven Sample.seven_live ∧
  ∃ ks n,
    (∀ fuel, (n ≤ fuel)%nat →
       keys_ascending fuel Sample.seven = Ret ks Sample.seven ∧
       keys_descending fuel Sample.seven = Ret (reverse ks) Sample.seven) ∧
    StronglySorted (λ a b, Sample.compare a b < 0) ks ∧
    (∀ k, k ∈ ks ↔ stored Sample.seven Sample.seven_live k) ∧
    ∃ b, RBTree.empty Sample.seven = Ret b Sample.seven ∧ (b = true ↔ ks = []).
Proof.
  split; [exact Sample.seven_built|].
  exact (traversal_in_key_order Sample.compare Sample.compare_strict
           Sample.seven Sample.seven_live Sample.seven_built).
Defined.

Lemma lower_upper_correct_witness :
  built Sample.compare Sample.seven Sample.seven_live ∧
  ∃ n, ∀ fuel, (n ≤ fuel)%nat →
    ∃ p q,
      RBTree.lower Sample.compare fuel 6 Sample.seven = Ret p Sample.seven ∧
      RBTree.upper Sample.compare fuel 6 Sample.seven = Ret q Sample.seven ∧
      greatest_below Sample.compare Sample.seven Sample.seven_live 6 p ∧
      least_above Sample.compare Sample.seven Sample.seven_live 6 q.
Proof.
  split; [exact Sample.seven_built|].
  exact (lower_upper_correct Sample.compare Sample.compare_strict
           Sample.seven Sample.seven_live 6 Sample.seven_built).
Defined.

Lemma find_correct_witness :
  built Sample.compare Sample.seven Sample.seven_live ∧
  ∃ n, ∀ fuel, (n ≤ fuel)%nat →
    ∃ p,
      RBTree.find Sample.compare fuel 4 Sample.seven = Ret p Sample.seven ∧
      (stored Sample.seven Sample.seven_live 4 ↔ p ≠ None) ∧
      ∀ y, p = Some y →
        y ∈ Sample.seven_live ∧
        ∃ ky, key_of Sample.seven y = Some ky ∧ Sample.compare 4 ky = 0.
Proof.
  split; [exact Sample.seven_built|].
  exact (find_correct Sample.compare Sample.compare_strict
           Sample.seven Sample.seven_live 4 Sample.seven_built).
Defined.

Lemma insert_existing_key_witness :
  (built Sample.compare Sample.seven Sample.seven_live ∧
   4%nat ∈ Sample.seven_live ∧ key_of Sample.seven 4%nat = Some 4) ∧
  ∃ nn,
    nodes Sample.seven !! 4%nat = Some nn ∧
    (∃ f0, ∀ fuel, (f0 ≤ fuel)%nat →
       RBTree.insert Sample.compare fuel 4 41 Sample.seven =
       Ret (Some 4%nat)
         (mkTree (_root Sample.seven)
            (<[4%nat := mkNode (_parent nn) (_left nn) (_right nn) (_color nn) (_key nn) 41]>
               (nodes Sample.seven)))) ∧
    ∀ fuel p s',
      RBTree.insert Sample.compare fuel 4 41 Sample.seven = Ret p s' →
      p = Some 4%nat ∧
      s' = mkTree (_root Sample.seven)
             (<[4%nat := mkNode (_parent nn) (_left nn) (_right nn) (_color nn) (_key nn) 41]>
                (nodes Sample.seven)).
Proof.
  assert (H1 : (4%nat : ref) ∈ Sample.seven_live) by (apply Sample.seven_member; lia).
  assert (H2 : key_of Sample.seven 4%nat = Some 4) by reflexivity.
  split; [exact (conj Sample.seven_built (conj H1 H2))|].
  exact (insert_existing_key Sample.compare Sample.compare_strict
           Sample.seven Sample.seven_live 4%nat 4 41 Sample.seven_built H1 H2).
Defined.

Lemma fixups_never_dereference_null_witness :
  colored Sample.seven Sample.seven_live ∧
  (∀ fuel key value,
     RBTree.insert Sample.compare fuel key value Sample.seven ≠ TypeError) ∧
  (∀ fuel x, x ∈ Sample.seven_live →
     RBTree.remove fuel (Some x) Sample.seven ≠ TypeError) ∧
  ∃ n, ∀ fuel, (n ≤ fuel)%nat →
    (∀ key value, ∃ p s',
       RBTree.insert Sample.compare fuel key value Sample.seven = Ret p s') ∧
    (∀ x, x ∈ Sample.seven_live →
       ∃ s', RBTree.remove fuel (Some x) Sample.seven = Ret tt s').
Proof.
  assert (H : colored Sample.seven Sample.seven_live).
  { exists Sample.seven_shape. split; [exact Sample.seven_holds|]. split.
    - split; [reflexivity|]. exists 2%nat. cbn. repeat split.
    - intros x. unfold Sample.seven_live. rewrite elem_of_list_to_set, elem_of_seq.
      cbn. rewrite !elem_of_cons, elem_of_nil. lia. }
  split; [exact H|].
  exact (fixups_never_dereference_null Sample.compare Sample.seven Sample.seven_live H).
Defined.

Lemma mutations_keep_red_black_witness :
  reachable Sample.compare any_mutation Sample.exchanged38 Sample.seven_live ∧
  red_black Sample.exchanged38 Sample.seven_live.
Proof.
  split; [exact Sample.exchanged38_reachable|].
  exact (mutations_keep_red_black Sample.compare Sample.exchanged38 Sample.seven_live
           Sample.exchanged38_reachable).
Defined.

Lemma swap_exchanges_positions_witness :
  (holds Sample.seven Sample.seven_shape ∧
   3%nat ∈ inorder Sample.seven_shape ∧ 2%nat ∈ inorder Sample.seven_shape) ∧
  ∃ s', RBTree.swap (Some 3%nat) (Some 2%nat) Sample.seven = Ret tt s' ∧
        holds s' (tmap (transp 3%nat 2%nat) Sample.seven_shape) ∧
        kv_same Sample.seven s'.
Proof.
  assert (H1 : 3%nat ∈ inorder Sample.seven_shape) by (apply (bool_decide_unpack _); by vm_compute).
  assert (H2 : 2%nat ∈ inorder Sample.seven_shape) by (apply (bool_decide_unpack _); by vm_compute).
  split; [exact (conj Sample.seven_holds (conj H1 H2))|].
  destruct (swap_exchanges_positions Sample.seven Sample.seven_shape 3%nat 2%nat
              Sample.seven_holds H1 H2) as (s' & Hs & _ & Hh & _ & Hkv & _).
  exists s'. exact (conj Hs (conj Hh Hkv)).
Defined.

Lemma swap_siblings_witness :
  holds Sample.seven Sample.seven_shape ∧
  ∃ s', RBTree.swap (Some 1%nat) (Some 2%nat) Sample.seven = Ret tt s' ∧
        siblings_swapped Sample.seven s' [] Black 0%nat
          Black (T Red E 3%nat E) 1%nat (T Red E 4%nat E)
          Black (T Red E 5%nat E) 2%nat (T Red E 6%nat E).
Proof.
  split; [exact Sample.seven_holds|].
  exact (proj1 (proj2 (proj2 (proj2
           (swap_siblings Sample.seven [] Black 0%nat
              Black (T Red E 3%nat E) 1%nat (T Red E 4%nat E)
              Black (T Red E 5%nat E) 2%nat (T Red E 6%nat E) Sample.seven_holds))))).
Defined.

Lemma reverse_reverses_range_witness :
  (wf Sample.compare Sample.seven Sample.seven_live ∧
   1%nat ∈ Sample.seven_live ∧ 2%nat ∈ Sample.seven_live ∧
   key_of Sample.seven 1%nat = Some 3 ∧ key_of Sample.seven 2%nat = Some 8 ∧
   Sample.compare 3 8 ≤ 0) ∧
  ∃ (ksP ksR ksS : list Z) n,
    head ksR = Some 3 ∧ last ksR = Some 8 ∧
    ∀ fuel, (n ≤ fuel)%nat →
      keys_ascending fuel Sample.seven = Ret (ksP ++ ksR ++ ksS) Sample.seven ∧
      ∃ s', RBTree.reverse fuel (Some 1%nat) (Some 2%nat) Sample.seven = Ret tt s' ∧
            keys_ascending fuel s' = Ret (ksP ++ reverse ksR ++ ksS) s' ∧
            kv_same Sample.seven s' ∧ colored s' Sample.seven_live.
Proof.
  assert (H0 : wf Sample.compare Sample.seven Sample.seven_live)
    by exact (built_wf Sample.compare Sample.compare_strict _ _ Sample.seven_built).
  assert (H1 : (1%nat : ref) ∈ Sample.seven_live) by (apply Sample.seven_member; lia).
  assert (H2 : (2%nat : ref) ∈ Sample.seven_live) by (apply Sample.seven_member; lia).
  assert (H3 : key_of Sample.seven 1%nat = Some 3) by reflexivity.
  assert (H4 : key_of Sample.seven 2%nat = Some 8) by reflexivity.
  assert (H5 : Sample.compare 3 8 ≤ 0) by (unfold Sample.compare; lia).
  split; [exact (conj H0 (conj H1 (conj H2 (conj H3 (conj H4 H5)))))|].
  exact (reverse_reverses_range Sample.compare Sample.compare_strict
           Sample.seven Sample.seven_live 1%nat 2%nat 3 8 H0 H1 H2 H3 H4 H5).
Defined.

(** * Further properties of the operations *)

(** ** Rotations *)

Section Rotations.
Context {K V : Type}.
Implicit Types (s : RBTree K V) (t l r a b d : tree) (ctx : list frame) (x y : ref).

(** X1: [_rotateLeft(x)] on a node [x] with a right child [y] returns; [y]
    takes the place of [x], [x] becomes the left child of [y] and the former
    left subtree of [y] the right subtree of [x].  No colour changes, the
    nodes are met in the same order as before, and no key or value moves. *)
Theorem rotateLeft_lifts_right_child s ctx cx cy a x b y d :
  holds s (plug ctx (T cx a x (T cy b y d))) →
  ∃ s', RBTree._rotateLeft (Some x) s = Ret tt s' ∧
        holds s' (plug ctx (T cy (T cx a x b) y d)) ∧
        inorder (plug ctx (T cy (T cx a x b) y d)) =
          inorder (plug ctx (T cx a x (T cy b y d))) ∧
        kv_same s s'.
Proof.
  intros H. destruct (rotateLeft_holds _ _ _ _ _ _ _ _ _ H) as ([] & s' & Hr & H').
  exists s'. split; [exact Hr|]. split; [exact H'|]. split.
  - rewrite !inorder_plug. cbn [inorder]. rewrite <- !app_assoc. cbn [app].
    by rewrite <- ?app_assoc.
  - by apply (pres_rotateLeft (Some x) s tt s').
Qed.

(** X2: [_rotateRight(x)] on a node [x] with a left child [y] is the mirror
    image. *)
Theorem rotateRight_lifts_left_child s ctx cx cy a y b x d :
  holds s (plug ctx (T cx (T cy a y b) x d)) →
  ∃ s', RBTree._rotateRight (Some x) s = Ret tt s' ∧
        holds s' (plug ctx (T cy a y (T cx b x d))) ∧
        inorder (plug ctx (T cy a y (T cx b x d))) =
          inorder (plug ctx (T cx (T cy a y b) x d)) ∧
        kv_same s s'.
Proof.
  intros H. destruct (rotateRight_holds _ _ _ _ _ _ _ _ _ H) as ([] & s' & Hr & H').
  exists s'. split; [exact Hr|]. split; [exact H'|]. split.
  - rewrite !inorder_plug. cbn [inorder]. rewrite <- !app_assoc. cbn [app].
    by rewrite <- ?app_assoc.
  - by apply (pres_rotateRight (Some x) s tt s').
Qed.

(** X3: a right rotation at the node that a left rotation has lifted puts
    every node back where it was. *)
Theorem rotateRight_undoes_rotateLeft s ctx cx cy a x b y d :
  holds s (plug ctx (T cx a x (T cy b y d))) →
  ∃ s' s'', RBTree._rotateLeft (Some x) s = Ret tt s' ∧
            RBTree._rotateRight (Some y) s' = Ret tt s'' ∧
            holds s'' (plug ctx (T cx a x (T cy b y d))) ∧
            kv_same s s''.
Proof.
  intros H. destruct (rotateLeft_holds _ _ _ _ _ _ _ _ _ H) as ([] & s' & Hr & H').
  destruct (rotateRight_holds _ _ _ _ _ _ _ _ _ H') as ([] & s'' & Hr' & H'').
  exists s', s''. split; [exact Hr|]. split; [exact Hr'|]. split; [exact H''|].
  eapply kv_same_trans; [by apply (pres_rotateLeft (Some x) s tt s')|].
  by apply (pres_rotateRight (Some y) s' tt s'').
Qed.

(** X4: a rotation needs its pivot.  On a node without right child
    [_rotateLeft] reads a field of [null] and throws, and so does
    [_rotateRight] on a node without left child. *)
Theorem rotation_without_pivot_throws s ctx c a x d :
  holds s (plug ctx (T c a x d)) →
  (d = E → RBTree._rotateLeft (Some x) s = TypeError) ∧
  (a = E → RBTree._rotateRight (Some x) s = TypeError).
Proof.
  intros H. split; intros ->.
  - unfold RBTree._rotateLeft.
    by rewrite (bind_Ret _ _ _ _ _ (field_right_holds _ _ _ _ _ _ H)).
  - unfold RBTree._rotateRight.
    by rewrite (bind_Ret _ _ _ _ _ (field_left_holds _ _ _ _ _ _ H)).
Qed.

End Rotations.

(** ** Null handles *)

Section NullHandles.
Context {K V : Type}.
Implicit Types (s : RBTree K V).

(** X5: the operations that take node handles do not test them for [null]:
    [remove(null)], [swap] with exactly one [null] argument and the [succ]
    and [pred] getters read from [null] throw, in every state; [swap(null,
    null)] and [reverse(null, null)] compare their arguments first and
    return without touching the tree. *)
Theorem null_handles s fuel x :
  RBTree.remove fuel None s = TypeError ∧
  RBTree.swap None (Some x) s = TypeError ∧
  RBTree.swap (Some x) None s = TypeError ∧
  RBTreeNode.succ fuel None s = TypeError ∧
  RBTreeNode.pred fuel None s = TypeError ∧
  RBTree.swap None None s = Ret tt s ∧
  RBTree.reverse (S fuel) None None s = Ret tt s.
Proof.
  repeat split; try reflexivity.
  unfold RBTree.swap. rewrite ptr_eq_Some_None. unfold bind at 1.
  unfold field at 1. by destruct (nodes s !! x).
Qed.

End NullHandles.

(** ** Moving through the tree *)

Section Navigation.
Context {K V : Type}.
Implicit Types (s : RBTree K V) (t : tree) (x y : ref).

(** X6: in a well-formed tree whose nodes are, from left to right,
    [l1 ++ x :: l2], the [succ] getter of [x] returns the first node of [l2]
    and the [pred] getter the last node of [l1]; each returns [null] when
    there is none.  Neither changes the tree. *)
Theorem succ_pred_are_neighbours s t (l1 : list ref) x (l2 : list ref) :
  holds s t → inorder t = l1 ++ x :: l2 →
  ∃ n, ∀ fuel, (n ≤ fuel)%nat →
    RBTreeNode.succ fuel (Some x) s = Ret (head l2) s ∧
    RBTreeNode.pred fuel (Some x) s = Ret (last l1) s.
Proof.
  intros H Hin. exists (S (height t)). intros fuel Hf. split.
  - apply (succ_spec s t fuel l1 x l2 H Hin). lia.
  - apply (pred_spec s t fuel l1 x l2 H Hin). lia.
Qed.

(** X7: [pred] undoes [succ] and [succ] undoes [pred]: whenever the getter
    of a member [x] returns a node, the opposite getter of that node returns
    [x]. *)
Theorem succ_pred_inverse s t x :
  holds s t → x ∈ inorder t →
  ∃ n, ∀ fuel, (n ≤ fuel)%nat →
    ∃ p q,
      RBTreeNode.succ fuel (Some x) s = Ret p s ∧
      RBTreeNode.pred fuel (Some x) s = Ret q s ∧
      (∀ y, p = Some y → RBTreeNode.pred fuel (Some y) s = Ret (Some x) s) ∧
      (∀ y, q = Some y → RBTreeNode.succ fuel (Some y) s = Ret (Some x) s).
Proof.
  intros H Hx. apply list_elem_of_split in Hx as (l1 & l2 & Hin).
  exists (S (height t)). intros fuel Hf.
  exists (head l2), (last l1).
  split; [apply (succ_spec s t fuel l1 x l2 H Hin); lia|].
  split; [apply (pred_spec s t fuel l1 x l2 H Hin); lia|]. split.
  - intros y Hy. destruct l2 as [|y' l2]; [done|]. injection Hy as ->.
    assert (Hin' : inorder t = (l1 ++ [x]) ++ y :: l2) by (by rewrite <- app_assoc).
    rewrite (pred_spec s t fuel (l1 ++ [x]) y l2 H Hin') by lia.
    by rewrite last_snoc.
  - intros y Hy. apply last_Some in Hy as (l1' & ->).
    assert (Hin' : inorder t = l1' ++ y :: (x :: l2)) by (by rewrite Hin, <- app_assoc).
    by rewrite (succ_spec s t fuel l1' y (x :: l2) H Hin') by lia.
Qed.

(** X8: the [min] getter returns the leftmost and the [max] getter the
    rightmost node of a well-formed tree, [null] for both when it has no
    nodes; the node [min] returns has no predecessor and the node [max]
    returns has no successor. *)
Theorem min_max_are_the_ends s t :
  holds s t →
  ∃ n, ∀ fuel, (n ≤ fuel)%nat →
    RBTree.min fuel s = Ret (head (inorder t)) s ∧
    RBTree.max fuel s = Ret (last (inorder t)) s ∧
    (∀ x, head (inorder t) = Some x → RBTreeNode.pred fuel (Some x) s = Ret None s) ∧
    (∀ x, last (inorder t) = Some x → RBTreeNode.succ fuel (Some x) s = Ret None s).
Proof.
  intros H. exists (S (height t)). intros fuel Hf.
  split; [apply min_spec; [done|lia]|]. split; [apply max_spec; [done|lia]|]. split.
  - intros x Hx. destruct (inorder t) as [|x' l2] eqn:Hin; [done|]. injection Hx as ->.
    by rewrite (pred_spec s t fuel [] x l2 H Hin) by lia.
  - intros x Hx. apply last_Some in Hx as (l1 & Hin).
    assert (Hin' : inorder t = l1 ++ x :: []) by done.
    by rewrite (succ_spec s t fuel l1 x [] H Hin') by lia.
Qed.

End Navigation.

(** ** Queries do not write *)

Definition readonly {K V A} (m : M K V A) : Prop :=
  ∀ s a s', m s = Ret a s' → s' = s.

Section ReadOnly.
Context {K V : Type}.
Variable compare : K → K → Z.
Implicit Types (s : RBTree K V) (p : ptr).

Lemma readonly_ret {A} (a : A) : readonly (@ret K V A a).
Proof. by intros s a' s' [= _ <-]. Qed.

Lemma readonly_bind {A B} (m : M K V A) (k : A → M K V B) :
  readonly m → (∀ a, readonly (k a)) → readonly (bind m k).
Proof.
  intros Hm Hk s b s' H. apply bind_inv in H as (a & s1 & H1 & H2).
  apply Hm in H1 as ->. by apply Hk in H2.
Qed.

Lemma readonly_field {A} (f : RBTreeNode K V → A) p : readonly (field f p).
Proof.
  intros s a s'. unfold field. destruct p as [x|]; [|done].
  destruct (nodes s !! x); [|done]. by intros [= _ <-].
Qed.

Lemma readonly_get_root : readonly (@get_root K V).
Proof. by intros s a s' [= _ <-]. Qed.

Lemma readonly_timeout {A} : readonly (@timeout K V A).
Proof. by intros s a s'. Qed.

Lemma readonly_assert {A} `{EqDecision A} (a b : A) :
  readonly (@assert_strictEqual K V A _ a b).
Proof. intros s u s'. unfold assert_strictEqual. destruct (decide (a = b)); [|done]. by intros [= <-]. Qed.

Ltac ro_tac :=
  repeat first
    [ apply readonly_ret | apply readonly_field | apply readonly_get_root
    | apply readonly_timeout | apply readonly_assert
    | assumption
    | lazymatch goal with
      | |- readonly (bind _ _) => apply readonly_bind; [|intros ?]
      | |- readonly (match ?x with _ => _ end) => destruct x
      end ].

Lemma readonly_descend_left fuel : ∀ a, readonly (@RBTreeNode.descend_left K V fuel a).
Proof. induction fuel as [|fuel IH]; intros a; cbn [RBTreeNode.descend_left]; ro_tac. apply IH. Qed.

Lemma readonly_descend_right fuel : ∀ a, readonly (@RBTreeNode.descend_right K V fuel a).
Proof. induction fuel as [|fuel IH]; intros a; cbn [RBTreeNode.descend_right]; ro_tac. apply IH. Qed.

Lemma readonly_climb_right fuel : ∀ a b, readonly (@RBTreeNode.climb_right K V fuel a b).
Proof. induction fuel as [|fuel IH]; intros a b; cbn [RBTreeNode.climb_right]; ro_tac. apply IH. Qed.

Lemma readonly_climb_left fuel : ∀ a b, readonly (@RBTreeNode.climb_left K V fuel a b).
Proof. induction fuel as [|fuel IH]; intros a b; cbn [RBTreeNode.climb_left]; ro_tac. apply IH. Qed.

Lemma readonly_succ fuel a : readonly (@RBTreeNode.succ K V fuel a).
Proof.
  unfold RBTreeNode.succ. ro_tac; first [apply readonly_descend_left|apply readonly_climb_right].
Qed.

Lemma readonly_pred fuel a : readonly (@RBTreeNode.pred K V fuel a).
Proof.
  unfold RBTreeNode.pred. ro_tac; first [apply readonly_descend_right|apply readonly_climb_left].
Qed.

Lemma readonly_find_loop fuel key : ∀ a, readonly (RBTree.find_loop (V:=V) compare fuel key a).
Proof. induction fuel as [|fuel IH]; intros a; cbn [RBTree.find_loop]; ro_tac; apply IH. Qed.

Lemma readonly_lower_loop fuel key : ∀ a, readonly (RBTree.lower_loop (V:=V) compare fuel key a).
Proof.
  induction fuel as [|fuel IH]; intros a; cbn [RBTree.lower_loop]; ro_tac;
    first [apply IH|apply readonly_pred].
Qed.

Lemma readonly_upper_loop fuel key : ∀ a, readonly (RBTree.upper_loop (V:=V) compare fuel key a).
Proof.
  induction fuel as [|fuel IH]; intros a; cbn [RBTree.upper_loop]; ro_tac;
    first [apply IH|apply readonly_succ].
Qed.

Lemma readonly_node_validate fuel : ∀ a, readonly (@RBTreeNode.validate K V fuel a).
Proof.
  induction fuel as [|fuel IH]; intros a; cbn [RBTreeNode.validate]; ro_tac; apply IH.
Qed.

(** X9: the getters and the searches never write: whenever [empty], [min],
    [max], [find], [lower], [upper], a node's [succ], [pred], [key] or
    [value], or [validate] returns, the tree and all its nodes are exactly
    as before the call, whatever state they were called in. *)
Theorem queries_leave_the_tree_unchanged fuel key p :
  readonly (@RBTree.empty K V) ∧
  readonly (@RBTree.min K V fuel) ∧
  readonly (@RBTree.max K V fuel) ∧
  readonly (RBTree.find (V:=V) compare fuel key) ∧
  readonly (RBTree.lower (V:=V) compare fuel key) ∧
  readonly (RBTree.upper (V:=V) compare fuel key) ∧
  readonly (@RBTreeNode.succ K V fuel p) ∧
  readonly (@RBTreeNode.pred K V fuel p) ∧
  readonly (@RBTreeNode.key K V p) ∧
  readonly (@RBTreeNode.value K V p) ∧
  readonly (@RBTree.validate K V fuel).
Proof.
  repeat split.
  - unfold RBTree.empty. ro_tac.
  - unfold RBTree.min. ro_tac. apply readonly_descend_left.
  - unfold RBTree.max. ro_tac. apply readonly_descend_right.
  - unfold RBTree.find. ro_tac. apply readonly_find_loop.
  - unfold RBTree.lower. ro_tac. apply readonly_lower_loop.
  - unfold RBTree.upper. ro_tac. apply readonly_upper_loop.
  - apply readonly_succ.
  - apply readonly_pred.
  - apply readonly_field.
  - apply readonly_field.
  - unfold RBTree.validate. ro_tac. apply readonly_node_validate.
Qed.

End ReadOnly.

(** ** Searching, inserting and removing in a search tree *)

Section SearchTree.
Context {K V : Type}.
Variable compare : K → K → Z.
Hypothesis Hcmp : StrictTotal compare.
Local Set Default Proof Using "Type*".
Implicit Types (s : RBTree K V) (live : gset ref) (t : tree) (x y : ref).

Lemma cmp_antisym a b : compare a b ≤ 0 → compare b a ≤ 0 → a = b.
Proof.
  intros H1 H2. apply (cmp_eq compare Hcmp).
  destruct (decide (compare a b = 0)) as [|Hne]; [done|].
  assert (compare a b < 0) as Hlt%(cmp_flip compare Hcmp) by lia. lia.
Qed.

Lemma cmp_antisym_ge a b : 0 ≤ compare a b → 0 ≤ compare b a → a = b.
Proof.
  intros H1 H2. apply (cmp_eq compare Hcmp).
  destruct (decide (compare a b = 0)) as [|Hne]; [done|].
  assert (0 < compare a b) as Hlt%(cmp_flip compare Hcmp) by lia. lia.
Qed.

(** X10: for a key that is stored, [find], [lower] and [upper] agree: all
    three return the member that holds the key. *)
Theorem searches_agree_on_stored_key s live x key :
  wf compare s live → x ∈ live → key_of s x = Some key →
  ∃ n, ∀ fuel, (n ≤ fuel)%nat →
    RBTree.find compare fuel key s = Ret (Some x) s ∧
    RBTree.lower compare fuel key s = Ret (Some x) s ∧
    RBTree.upper compare fuel key s = Ret (Some x) s.
Proof.
  intros (t & (H & Hrb & Hlive) & Hs) Hx Hk. apply Hlive in Hx.
  exists (S (2 * height t)). intros fuel Hf.
  destruct (find_spec compare s t key fuel H ltac:(lia)) as (p & Hp & Hfound).
  destruct (lower_spec compare s t key fuel H ltac:(lia)) as (q & Hq & Hlow).
  destruct (upper_spec compare s t key fuel H ltac:(lia)) as (r & Hr & Hup).
  apply (found_at_sem compare Hcmp) in Hfound; [|done].
  apply (lower_at_sem compare Hcmp) in Hlow; [|done].
  apply (upper_at_sem compare Hcmp) in Hup; [|done].
  pose proof (cmp_refl compare Hcmp key) as Hkk.
  assert (Hsame : ∀ y ky, y ∈ inorder t → key_of s y = Some ky →
                          compare ky key ≤ 0 → compare key ky ≤ 0 → y = x).
  { intros y ky Hy Hky H1 H2. rewrite (cmp_antisym ky key H1 H2) in Hky.
    apply (bst_key_inj compare Hcmp s t y x Hs Hy Hx); [by eexists|congruence]. }
  split; [|split].
  - destruct p as [y|].
    + destruct Hfound as [Hy Hky]. rewrite Hp. do 2 f_equal.
      apply (Hsame y key Hy Hky); lia.
    + by destruct (Hfound x Hx).
  - destruct q as [y|].
    + destruct Hlow as (Hy & ky & Hky & Hle & Hmax). rewrite Hq. do 2 f_equal.
      apply (Hsame y ky Hy Hky Hle). apply (Hmax x key Hx Hk). lia.
    + specialize (Hlow x key Hx Hk). lia.
  - destruct r as [y|].
    + destruct Hup as (Hy & ky & Hky & Hle & Hmin). rewrite Hr. do 2 f_equal.
      specialize (Hmin x key Hx Hk ltac:(lia)).
      assert (ky = key) as -> by (by apply cmp_antisym_ge).
      apply (Hsame y key Hy Hky); lia.
    + specialize (Hup x key Hx Hk). lia.
Qed.

(** X11: inserting a key that is not stored returns a node that was not a
    member before; afterwards that node holds the key and the value, every
    other node holds the key and the value it held, the stored keys are the
    old ones and the new one, and the tree is again a red-black search
    tree. *)
Theorem insert_new_key s live key value :
  wf compare s live → ¬ stored s live key →
  ∃ n, ∀ fuel, (n ≤ fuel)%nat →
    ∃ y s',
      RBTree.insert compare fuel key value s = Ret (Some y) s' ∧
      y ∉ live ∧
      key_of s' y = Some key ∧ value_of s' y = Some value ∧
      (∀ z, z ≠ y → key_of s' z = key_of s z ∧ value_of s' z = value_of s z) ∧
      (∀ k, stored s' ({[y]} ∪ live) k ↔ k = key ∨ stored s live k) ∧
      wf compare s' ({[y]} ∪ live).
Proof.
  intros (t & Ht & Hs) Hnew. exists (S (height t)). intros fuel Hf.
  destruct (insert_wf_spec compare Hcmp s live t key value fuel Ht Hs ltac:(lia))
    as (p & s' & Hr & y & -> & [(n & Hy & Hn & Hkey & _)|(Hy & _ & Hkv & t' & Ht' & Hs')]).
  { exfalso. apply Hnew. exists y. split; [done|]. unfold key_of. by rewrite Hn; cbn; f_equal. }
  destruct Hkv as (Hfresh & Hk & Hv & Hrest).
  exists y, s'. do 4 (split; [done|]). split; [exact Hrest|]. split; [|by exists t'].
  intros k. unfold stored. split.
  - intros (z & [->%elem_of_singleton|Hz]%elem_of_union & Hkz).
    + left. congruence.
    + right. exists z. split; [done|]. destruct (Hrest z) as [<- _]; [|done].
      intros ->. done.
  - intros [->|(z & Hz & Hkz)].
    + exists y. split; [set_solver|done].
    + exists z. split; [set_solver|]. destruct (Hrest z) as [-> _]; [|done].
      intros ->. done.
Qed.

(** X12: what [insert] stores, [find] finds: after [insert(key, value)] has
    returned a node, [find(key)] returns that node, and the node holds the
    key and the value. *)
Theorem find_after_insert s live key value fuel p s' :
  wf compare s live →
  RBTree.insert compare fuel key value s = Ret p s' →
  ∃ y, p = Some y ∧ key_of s' y = Some key ∧ value_of s' y = Some value ∧
    ∃ n, ∀ fuel', (n ≤ fuel')%nat → RBTree.find compare fuel' key s' = Ret (Some y) s'.
Proof.
  intros (t & Ht & Hs) Hr.
  pose proof (insert_outcome compare Hcmp s live t key value fuel p s' Ht Hs Hr)
    as (y & -> & Hcase).
  assert (∃ live' t', tree_of s' live' t' ∧ bst compare s' t' ∧ y ∈ live' ∧
                      key_of s' y = Some key ∧ value_of s' y = Some value)
    as (live' & t' & (H' & Hrb' & Hlive') & Hs' & Hy' & Hk & Hv).
  { destruct Hcase as [(n & Hy & Hn & Hkey & -> & Ht' & Hs')|(Hy & _ & Hkv & t' & Ht' & Hs')].
    - exists live, t. do 3 (split; [done|]).
      unfold key_of, value_of. cbn [nodes]. rewrite lookup_insert_eq. cbn. by rewrite Hkey.
    - destruct Hkv as (_ & Hk & Hv & _). exists ({[y]} ∪ live), t'.
      do 2 (split; [done|]). split; [set_solver|done]. }
  exists y. do 3 (split; [done|]). exists (S (height t')). intros fuel' Hf.
  destruct (find_spec compare s' t' key fuel' H' ltac:(lia)) as (q & Hq & Hfound).
  apply (found_at_sem compare Hcmp) in Hfound; [|done]. apply Hlive' in Hy'.
  destruct q as [z|].
  - destruct Hfound as [Hz Hkz]. rewrite Hq. do 2 f_equal.
    apply (bst_key_inj compare Hcmp s' t' z y Hs' Hz Hy'); [by eexists|congruence].
  - by destruct (Hfound y Hy').
Qed.

(** X13: removing a member of a red-black search tree returns; the other
    members stay, with their keys and values; the removed key is no longer
    found, every other stored key is still found at the node that held it,
    and the tree is again a red-black search tree. *)
Theorem find_after_remove s live x key :
  wf compare s live → x ∈ live → key_of s x = Some key →
  ∃ n, ∀ fuel, (n ≤ fuel)%nat →
    ∃ s', RBTree.remove fuel (Some x) s = Ret tt s' ∧
          kv_same s s' ∧
          wf compare s' (live ∖ {[x]}) ∧
          ∃ n', ∀ fuel', (n' ≤ fuel')%nat →
            RBTree.find compare fuel' key s' = Ret None s' ∧
            ∀ y ky, y ∈ live → y ≠ x → key_of s y = Some ky →
                    RBTree.find compare fuel' ky s' = Ret (Some y) s'.
Proof.
  intros (t & Ht & Hs) Hx Hk. exists (S (height t)). intros fuel Hf.
  destruct (remove_wf_spec compare s live t x fuel Ht Hx ltac:(lia))
    as ([] & s' & Hr & Hkv & t' & (H' & Hrb' & Hlive') & Hs').
  specialize (Hs' Hs).
  exists s'. do 2 (split; [done|]). split; [by exists t'|].
  exists (S (height t')). intros fuel' Hf'.
  destruct Ht as (H & Hrb & Hlive).
  assert (Hinj : ∀ y z, y ∈ live → z ∈ live → is_Some (key_of s y) →
                        key_of s y = key_of s z → y = z).
  { intros y z Hy Hz. apply (bst_key_inj compare Hcmp s t y z Hs); by apply Hlive. }
  split.
  - destruct (find_spec compare s' t' key fuel' H' ltac:(lia)) as (q & Hq & Hfound).
    apply (found_at_sem compare Hcmp) in Hfound; [|done].
    destruct q as [z|]; [|done]. exfalso.
    destruct Hfound as [Hz Hkz]. apply Hlive' in Hz.
    apply elem_of_difference in Hz as [Hz Hne]. apply Hne, elem_of_singleton.
    destruct (Hkv z) as [Hkz' _]. rewrite Hkz in Hkz'.
    apply (Hinj z x Hz Hx); [by eexists|congruence].
  - intros y ky Hy Hne Hky.
    destruct (find_spec compare s' t' ky fuel' H' ltac:(lia)) as (q & Hq & Hfound).
    apply (found_at_sem compare Hcmp) in Hfound; [|done].
    assert (Hy' : y ∈ inorder t') by (apply Hlive'; set_solver).
    destruct (Hkv y) as [Hky' _]. rewrite Hky in Hky'.
    destruct q as [z|].
    + destruct Hfound as [Hz Hkz]. rewrite Hq. do 2 f_equal.
      apply (bst_key_inj compare Hcmp s' t' z y Hs' Hz Hy'); [by eexists|congruence].
    + by destruct (Hfound y Hy').
Qed.

End SearchTree.

(** ** What [remove] takes out *)

Section Removal.
Context {K V : Type}.
Implicit Types (s : RBTree K V) (live : gset ref) (t : tree) (x y : ref).

(** X14: [remove] takes exactly one node out of a red-black tree: when the
    nodes are [l1 ++ x :: l2] from left to right, [remove(x)] returns, the
    nodes are then [l1 ++ l2] in that order, the tree has a red-black shape
    again, and no key or value has moved to another node (the successor is
    relinked, not copied). *)
Theorem remove_takes_out_one_node s t (l1 : list ref) x (l2 : list ref) :
  holds s t → is_rbtree t → inorder t = l1 ++ x :: l2 →
  ∃ n, ∀ fuel, (n ≤ fuel)%nat →
    ∃ s' t', RBTree.remove fuel (Some x) s = Ret tt s' ∧
             holds s' t' ∧ is_rbtree t' ∧ inorder t' = l1 ++ l2 ∧ kv_same s s'.
Proof.
  intros H Hrb Hin. exists (S (height t)). intros fuel Hf.
  assert (Hx : x ∈ inorder t) by (rewrite Hin; set_solver).
  destruct (in_inorder_plug _ _ Hx) as (ctx & c & l & r & ->).
  destruct (remove_spec s fuel ctx c l x r H Hrb ltac:(lia))
    as ([] & s' & Hr & t' & H' & Hrb' & Hin').
  exists s', t'. do 3 (split; [done|]). split; [|by eapply pres_remove].
  pose proof (holds_NoDup _ _ H) as HND. rewrite Hin in HND.
  assert (Heq : l1 ++ x :: l2 =
                (ctx_before ctx ++ inorder l) ++ x :: (inorder r ++ ctx_after ctx)).
  { rewrite <- Hin, inorder_plug. cbn [inorder]. by rewrite <- !app_assoc. }
  destruct (NoDup_split_eq _ _ _ _ _ HND Heq) as [-> ->].
  rewrite Hin'. by rewrite <- !app_assoc.
Qed.

End Removal.

Section InsertRemove.
Context {K V : Type}.
Variable compare : K → K → Z.
Hypothesis Hcmp : StrictTotal compare.
Local Set Default Proof Using "Type*".
Implicit Types (s : RBTree K V) (live : gset ref) (t : tree) (x y : ref).

Lemma keys_at_agree s s' (xs : list ref) (ks : list K) :
  keys_at s xs ks → (∀ z, z ∈ xs → key_of s' z = key_of s z) → keys_at s' xs ks.
Proof using Type.
  induction 1 as [|x k xs ks Hk Hks IH]; intros Hsame; [constructor|].
  constructor; [rewrite Hsame; [done|left]|]. apply IH. intros z Hz. apply Hsame. by right.
Qed.

(** X15: removing the node that [insert] has just created for a new key
    gives back the sequence of keys the tree had: the walk from [min] by
    [succ] reads the same keys before the insertion and after the removal,
    the members keep their keys and values, and the tree is a red-black
    search tree over the same members (its shape may differ). *)
Theorem remove_undoes_insert s live key value :
  wf compare s live → ¬ stored s live key →
  ∃ (ks : list K) n, ∀ fuel, (n ≤ fuel)%nat →
    ∃ y s' s'',
      RBTree.insert compare fuel key value s = Ret (Some y) s' ∧
      RBTree.remove fuel (Some y) s' = Ret tt s'' ∧
      keys_ascending fuel s = Ret ks s ∧
      keys_ascending fuel s'' = Ret ks s'' ∧
      (∀ z, z ∈ live → key_of s'' z = key_of s z ∧ value_of s'' z = value_of s z) ∧
      wf compare s'' live.
Proof.
  intros (t & (H & Hrb & Hlive) & Hs) Hnew.
  destruct (keys_at_exist s t (inorder t) H) as [ks Hks]; [done|].
  (* the insertion, at the least fuel that is sure to do *)
  destruct (insert_spec compare key value s t (S (height t)) H Hrb ltac:(lia))
    as (p & s' & Hr & y & -> & [(ctx & c & l & r & n & -> & _ & Hn & Hz & _)|
                                (ctx & t' & -> & _ & Hkv & H' & Hrb' & Hin')]).
  { exfalso. apply Hnew. exists y. split.
    - apply Hlive. rewrite inorder_plug. cbn [inorder]. set_solver.
    - unfold key_of. rewrite Hn. cbn. f_equal. symmetry. by apply (cmp_eq compare Hcmp). }
  destruct Hkv as (Hfresh & Hk & Hv & Hrest).
  assert (Hy : y ∈ inorder t').
  { rewrite Hin', inorder_plug. cbn [inorder]. set_solver. }
  assert (Hynot : y ∉ inorder (plug ctx E)).
  { intros Hy'. destruct (holds_lookup _ _ _ H Hy') as [? ?]. congruence. }
  destruct (in_inorder_plug _ _ Hy) as (ctx' & c' & l' & r' & ->).
  (* the removal *)
  destruct (remove_spec s' (S (height (plug ctx' (T c' l' y r')))) ctx' c' l' y r' H' Hrb'
              ltac:(lia))
    as ([] & s'' & Hr' & t'' & H'' & Hrb'' & Hin'').
  assert (Hsame : inorder t'' = inorder (plug ctx E)).
  { pose proof (holds_NoDup _ _ H') as HND.
    assert (Heq : (ctx_before ctx' ++ inorder l') ++ y :: (inorder r' ++ ctx_after ctx') =
                  ctx_before ctx ++ y :: ctx_after ctx).
    { rewrite <- app_assoc. transitivity (inorder (plug ctx' (T c' l' y r'))).
      - rewrite inorder_plug. cbn [inorder]. by rewrite <- !app_assoc.
      - rewrite Hin', inorder_plug. by cbn [inorder app]. }
    assert (HND' : NoDup ((ctx_before ctx' ++ inorder l') ++ y :: (inorder r' ++ ctx_after ctx'))).
    { rewrite inorder_plug in HND. cbn [inorder] in HND.
      by rewrite <- !app_assoc in HND |- *. }
    destruct (NoDup_split_eq _ _ _ _ _ HND' Heq) as [E1 E2].
    rewrite Hin'', inorder_plug. cbn [inorder app]. rewrite <- E1, <- E2.
    by rewrite <- !app_assoc. }
  assert (Hkv'' : kv_same s' s'') by (by eapply pres_remove).
  assert (Hold : ∀ z, z ∈ inorder (plug ctx E) →
                      key_of s'' z = key_of s z ∧ value_of s'' z = value_of s z).
  { intros z Hz. destruct (Hkv'' z) as [-> ->]. apply Hrest. by intros ->. }
  exists ks, (S (Nat.max (length (inorder (plug ctx E)) + height (plug ctx E))
                         (Nat.max (height (plug ctx' (T c' l' y r')))
                                  (length (inorder t'') + height t'')))).
  intros fuel Hf. exists y, s', s''.
  split; [apply (le_M_Ret _ _ _ _ _ (insert_mono compare (S (height (plug ctx E))) fuel key value
                                       ltac:(lia)) Hr)|].
  split; [apply (le_M_Ret _ _ _ _ _ (remove_mono (S (height (plug ctx' (T c' l' y r'))))
                                       fuel (Some y) ltac:(lia)) Hr')|].
  split; [apply (keys_ascending_spec s (plug ctx E)); [done|done|lia]|].
  split; [|split].
  - apply (keys_ascending_spec s'' t''); [done| |lia]. rewrite Hsame.
    apply (keys_at_agree s s'' _ _ Hks). intros z Hz. by destruct (Hold z Hz).
  - intros z Hz. apply Hold. by apply Hlive.
  - exists t''. split; [split; [done|split; [done|]]|].
    + intros z. by rewrite Hsame.
    + unfold bst. rewrite Hsame. apply (bst_keys compare s s''); [|done].
      intros z Hz. by destruct (Hold z Hz).
Qed.

End InsertRemove.

(** ** What [validate] checks *)

(** The checks [RBTreeNode.prototype.validate] makes at a node: a red node
    must not have a red left child, and a red node with a right child must
    have a left child (whose colour is the one examined for the right
    side). *)
Fixpoint checks_pass (t : tree) : bool :=
  match t with
  | E => true
  | T c l _ r =>
      match c, l, r with
      | Red, T Red _ _ _, _ => false
      | Red, E, T _ _ _ _ => false
      | _, _, _ => true
      end && checks_pass l && checks_pass r
  end.

Section ValidateExact.
Context {K V : Type}.
Implicit Types (s : RBTree K V) (live : gset ref) (t l r : tree).

Ltac rewrite_hyp_eq :=
  match goal with
  | H : nodes _ !! _ = Some _ |- _ => rewrite H
  | H : RBTreeNode.validate _ _ _ = _ |- _ => rewrite H
  end.

Ltac vrun :=
  cbn [RBTreeNode.validate]; unfold bind, field, ret, assert_strictEqual;
  repeat (first [ rewrite_hyp_eq ]; simpl);
  reflexivity.

Lemma node_validate_exact s : ∀ fuel c l x r par,
  rep (nodes s) par (T c l x r) → (height (T c l x r) ≤ fuel)%nat →
  if checks_pass (T c l x r)
  then RBTreeNode.validate fuel (Some x) s = Ret (1 + Z.of_nat (blackness c)) s
  else RBTreeNode.validate fuel (Some x) s = AssertionError ∨
       RBTreeNode.validate fuel (Some x) s = TypeError.
Proof.
  induction fuel as [|fuel IH]; intros c l x r par Hrep Hf; [cbn [height] in Hf; lia|].
  cbn [height] in Hf.
  apply rep_T_inv in Hrep as (kx & vx & Hx & Hl & Hr).
  assert (Hsub : ∀ t', rep (nodes s) (Some x) t' → (height t' ≤ fuel)%nat →
            match t' with
            | E => True
            | T c' _ y _ =>
                if checks_pass t'
                then RBTreeNode.validate fuel (Some y) s = Ret (1 + Z.of_nat (blackness c')) s
                else RBTreeNode.validate fuel (Some y) s = AssertionError ∨
                     RBTreeNode.validate fuel (Some y) s = TypeError
            end).
  { intros [|c' l' y r'] Hrep' Hf'; [done|]. by eapply IH. }
  pose proof (Hsub l Hl ltac:(lia)) as IHl.
  pose proof (Hsub r Hr ltac:(lia)) as IHr.
  clear IH Hsub.
  assert (Hy : ∀ c' l' y r', l = T c' l' y r' →
            ∃ k v, nodes s !! y = Some (mkNode (Some x) (root_of l') (root_of r') c' k v)).
  { intros c' l' y r' ->. apply rep_T_inv in Hl as (k & v & ? & _). eauto. }
  assert (Hz : ∀ c' l' z r', r = T c' l' z r' →
            ∃ k v, nodes s !! z = Some (mkNode (Some x) (root_of l') (root_of r') c' k v)).
  { intros c' l' z r' ->. apply rep_T_inv in Hr as (k & v & ? & _). eauto. }
  destruct l as [|cl ll y lr]; [|destruct (Hy _ _ _ _ eq_refl) as (ky & vy & Hy')];
    (destruct r as [|cr rl z rr]; [|destruct (Hz _ _ _ _ eq_refl) as (kz & vz & Hz')]);
    clear Hy Hz Hl Hr; cbn [root_of] in Hx;
    destruct c; try destruct cl;
    cbn [checks_pass andb] in *;
    repeat match goal with
    | H : if ?b then _ else _ |- _ => destruct b; [|destruct H as [H|H]]
    | H : True |- _ => clear H
    end;
    cbn [andb].
  all: first [ solve [vrun] | left; solve [vrun] | right; solve [vrun] ].
Qed.

(** X16: what [validate] accepts.  On a well-formed tree it returns
    normally exactly when the root is black (or the tree is empty), no red
    node has a red left child, and every red node with a right child has a
    left child; in every other case it fails with an assertion error or a
    type error.  The colour of a right child and the numbers of black nodes
    on the ways down play no part. *)
Theorem validate_checks_exactly s t fuel :
  holds s t → (height t ≤ fuel)%nat →
  (RBTree.validate fuel s = Ret tt s ↔ color_of t = Black ∧ checks_pass t = true) ∧
  (RBTree.validate fuel s = Ret tt s ∨
   RBTree.validate fuel s = AssertionError ∨
   RBTree.validate fuel s = TypeError).
Proof.
  intros (Hroot & Hrep & _) Hf. unfold RBTree.validate.
  rewrite get_root_step, Hroot. destruct t as [|c l x r]; cbn [root_of color_of].
  { split; [by split|by left]. }
  pose proof Hrep as (kx & vx & Hx & _)%rep_T_inv.
  rewrite (field_step _ _ _ _ _ Hx). cbn [_color].
  destruct c.
  { split; [|right; by left]. split; [done|by intros [? _]]. }
  rewrite assert_step.
  pose proof (node_validate_exact s fuel Black l x r None Hrep Hf) as Hv.
  destruct (checks_pass (T Black l x r)).
  - rewrite (bind_Ret _ _ _ _ _ Hv). split; [by split|by left].
  - destruct Hv as [Hv|Hv].
    + assert (Hb : bind (RBTreeNode.validate fuel (Some x)) (λ _, ret tt) s = AssertionError)
        by (unfold bind; by rewrite Hv).
      rewrite !Hb. split; [|right; by left]. split; [done|by intros [_ ?]].
    + assert (Hb : bind (RBTreeNode.validate fuel (Some x)) (λ _, ret tt) s = TypeError)
        by (unfold bind; by rewrite Hv).
      rewrite !Hb. split; [|right; by right]. split; [done|by intros [_ ?]].
Qed.

End ValidateExact.

Section ValidateHistory.
Context {K V : Type}.
Variable compare : K → K → Z.
Implicit Types (s : RBTree K V) (live : gset ref).

(** X17: after any sequence of [insert], [remove], [swap] and [reverse]
    calls on members, starting from the empty tree, [validate] returns
    without a failed assertion and leaves the tree as it is. *)
Theorem validate_succeeds_after_mutations s live :
  reachable compare any_mutation s live →
  ∃ n, ∀ fuel, (n ≤ fuel)%nat → RBTree.validate fuel s = Ret tt s.
Proof using Type.
  intros H. apply (validate_complete s live). by eapply reachable_colored.
Qed.

End ValidateHistory.

(** ** Exchanging nodes twice *)

Section SwapReverseTwice.
Context {K V : Type}.
Implicit Types (s : RBTree K V) (t : tree) (a b x y : ref).

Lemma transp_sym a b x : transp a b x = transp b a x.
Proof. unfold transp. repeat (case_decide; subst; try done). Qed.

Lemma tmap_transp_twice a b t : tmap (transp a b) (tmap (transp a b) t) = t.
Proof.
  rewrite tmap_compose. apply tmap_ext. intros x _. apply transp_involutive.
Qed.

Lemma elem_of_tmap_transp a b t x :
  x ∈ inorder t → transp a b x ∈ inorder (tmap (transp a b) t).
Proof. intros Hx. rewrite inorder_tmap. apply list_elem_of_fmap. eauto. Qed.

(** X18: [swap] is its own inverse: exchanging two members and then
    exchanging them again, with the arguments in the same or in the opposite
    order, puts every node back in its place with its colour; keys and
    values never move. *)
Theorem swap_twice_restores s t a b :
  holds s t → a ∈ inorder t → b ∈ inorder t →
  ∃ s', RBTree.swap (Some a) (Some b) s = Ret tt s' ∧
    (∃ s'', RBTree.swap (Some a) (Some b) s' = Ret tt s'' ∧ holds s'' t ∧ kv_same s s'') ∧
    (∃ s'', RBTree.swap (Some b) (Some a) s' = Ret tt s'' ∧ holds s'' t ∧ kv_same s s'').
Proof.
  intros H Ha Hb.
  destruct (swap_spec s t a b H Ha Hb) as ([] & s' & Hr & H' & Hkv).
  exists s'. split; [exact Hr|].
  assert (Ha' : a ∈ inorder (tmap (transp a b) t)).
  { rewrite <- (transp_r a b) at 1. by apply elem_of_tmap_transp. }
  assert (Hb' : b ∈ inorder (tmap (transp a b) t)).
  { rewrite <- (transp_l a b) at 1. by apply elem_of_tmap_transp. }
  split.
  - destruct (swap_spec s' _ a b H' Ha' Hb') as ([] & s'' & Hr' & H'' & Hkv').
    exists s''. split; [exact Hr'|]. rewrite tmap_transp_twice in H''.
    split; [exact H''|]. by eapply kv_same_trans.
  - destruct (swap_spec s' _ b a H' Hb' Ha') as ([] & s'' & Hr' & H'' & Hkv').
    exists s''. split; [exact Hr'|].
    rewrite (tmap_compose (transp b a)) in H''.
    rewrite tmap_ext in H''; [|intros x _; cbn; rewrite (transp_sym b a); apply transp_involutive].
    split; [exact H''|]. by eapply kv_same_trans.
Qed.

(** X19: [reverse] is undone by [reverse]: after [reverse(x, y)] on a range
    that runs from [x] to [y], the range runs from [y] to [x], and
    [reverse(y, x)] restores the order in which the nodes are met. *)
Theorem reverse_twice_restores s t (P R Q : list ref) x y :
  holds s t → inorder t = P ++ R ++ Q → head R = Some x → last R = Some y →
  ∃ n, ∀ fuel, (n ≤ fuel)%nat →
    ∃ s' s'' t'',
      RBTree.reverse fuel (Some x) (Some y) s = Ret tt s' ∧
      RBTree.reverse fuel (Some y) (Some x) s' = Ret tt s'' ∧
      holds s'' t'' ∧ inorder t'' = inorder t ∧ kv_same s s''.
Proof.
  intros H Hin Hx Hy. exists (S (length R + height t)). intros fuel Hf.
  destruct (reverse_spec fuel s t P R Q x y H Hin Hx Hy ltac:(lia))
    as ([] & s' & Hr & t' & H' & Hre & Hin' & Hkv).
  assert (Hx' : head (reverse R) = Some y) by (by rewrite head_reverse).
  assert (Hy' : last (reverse R) = Some x) by (by rewrite last_reverse).
  destruct (reverse_spec fuel s' t' P (reverse R) Q y x H' Hin' Hx' Hy')
    as ([] & s'' & Hr' & t'' & H'' & _ & Hin'' & Hkv').
  { rewrite length_reverse, (rearranged_height t t' Hre). lia. }
  exists s', s'', t''. split; [exact Hr|]. split; [exact Hr'|]. split; [exact H''|].
  split; [by rewrite Hin'', reverse_involutive, Hin|by eapply kv_same_trans].
Qed.

(** X20: [reverse] never leaves a damaged tree behind.  For any two handles
    that are members or [null] (in particular for a first node that comes
    after the last one, where the call may also throw), whenever the call
    returns, the store holds a well-formed tree made of the same nodes in the
    same shape and with the same colours per position, and every node has
    kept its key and value. *)
Theorem reverse_keeps_the_tree_well_formed fuel s t (first last : ptr) u s' :
  holds s t → member_or_null t first → member_or_null t last →
  RBTree.reverse fuel first last s = Ret u s' →
  ∃ t', holds s' t' ∧ rearranged t t' ∧ height t' = height t ∧
        (is_rbtree t → is_rbtree t') ∧ kv_same s s'.
Proof.
  intros H Hf Hl Hr.
  destruct (reverse_returns fuel s t first last u s' H Hf Hl Hr) as (t' & H' & Hre & Hkv).
  exists t'. split; [exact H'|]. split; [exact Hre|].
  split; [by apply rearranged_height|]. split; [by apply rearranged_rbtree|exact Hkv].
Qed.

(** X21: no operation other than [insert] writes a key or a value: whenever
    [remove], [swap], [reverse] or a rotation returns, every node object
    holds the key and the value it held before, in whatever state the call
    was made.  In particular [remove] relinks the successor of a node with
    two children instead of copying its key, so handles to other nodes stay
    valid. *)
Theorem restructuring_keeps_keys_and_values fuel (p q : ptr) :
  pres (@RBTree.remove K V fuel p) ∧
  pres (@RBTree.swap K V p q) ∧
  pres (@RBTree.reverse K V fuel p q) ∧
  pres (@RBTree._rotateLeft K V p) ∧
  pres (@RBTree._rotateRight K V p) ∧
  pres (@RBTree._replaceNode K V p q).
Proof.
  split; [apply pres_remove|]. split; [apply pres_swap|].
  split; [apply pres_reverse|]. split; [apply pres_rotateLeft|].
  split; [apply pres_rotateRight|apply pres_replaceNode].
Qed.

End SwapReverseTwice.

(** ** Balance *)

(** [null_path s p k]: following child links from [p] there is a way down to
    a null link that passes [k] nodes. *)
Inductive null_path {K V} (s : RBTree K V) : ptr → nat → Prop :=
| null_path_null : null_path s None 0
| null_path_left x n k :
    nodes s !! x = Some n → null_path s (_left n) k → null_path s (Some x) (S k)
| null_path_right x n k :
    nodes s !! x = Some n → null_path s (_right n) k → null_path s (Some x) (S k).

Section Balance.
Context {K V : Type}.
Implicit Types (s : RBTree K V) (live : gset ref) (t l r : tree).

Lemma rb_height t : ∀ n, rb t n → (height t ≤ 2 * n + (1 - blackness (color_of t)))%nat.
Proof.
  induction t as [|c l IHl x r IHr]; intros n Hrb; [cbn; lia|].
  destruct c; cbn [rb] in Hrb; cbn [height color_of blackness].
  - destruct Hrb as (Hcl & Hcr & Hl & Hr).
    apply IHl in Hl. apply IHr in Hr. rewrite Hcl in Hl. rewrite Hcr in Hr.
    cbn [blackness] in Hl, Hr. lia.
  - destruct n as [|m]; [done|]. destruct Hrb as [Hl Hr].
    apply IHl in Hl. apply IHr in Hr.
    destruct (color_of l), (color_of r); cbn [blackness] in Hl, Hr; lia.
Qed.

Lemma rb_size t : ∀ n, rb t n → (2 ^ n ≤ length (inorder t) + 1)%nat.
Proof.
  induction t as [|c l IHl x r IHr]; intros n Hrb.
  - cbn [rb] in Hrb. subst n. cbn. lia.
  - cbn [inorder]. rewrite length_app. cbn [length].
    destruct c; cbn [rb] in Hrb.
    + destruct Hrb as (_ & _ & Hl & Hr). apply IHl in Hl. lia.
    + destruct n as [|m]; [done|]. destruct Hrb as [Hl Hr].
      apply IHl in Hl. apply IHr in Hr. rewrite Nat.pow_succ_r'. lia.
Qed.

Lemma rbtree_height_log t :
  is_rbtree t → (height t ≤ 2 * Nat.log2 (length (inorder t) + 1))%nat.
Proof.
  intros (Hc & n & Hrb). pose proof (rb_height t n Hrb) as Hh.
  rewrite Hc in Hh. cbn [blackness] in Hh.
  pose proof (rb_size t n Hrb) as Hs.
  apply Nat.log2_le_pow2 in Hs; lia.
Qed.

Lemma tree_of_size s live t : tree_of s live t → size live = length (inorder t).
Proof.
  intros (H & _ & Hlive). rewrite <- (size_list_to_set (C := gset ref) (inorder t)).
  - f_equal. apply set_eq. intros x. by rewrite elem_of_list_to_set.
  - by eapply holds_NoDup.
Qed.

Lemma null_path_rb s : ∀ t par n k,
  rep (nodes s) par t → rb t n → null_path s (root_of t) k →
  (n ≤ k ∧ k ≤ 2 * n + (1 - blackness (color_of t)))%nat.
Proof.
  induction t as [|c l IHl x r IHr]; intros par n k Hrep Hrb Hp.
  - cbn [root_of] in Hp. inversion Hp. cbn [rb] in Hrb. subst. cbn. lia.
  - apply rep_T_inv in Hrep as (kx & vx & Hx & Hl & Hr). cbn [root_of] in Hp.
    cbn [color_of].
    destruct c; cbn [rb] in Hrb; cbn [blackness].
    + destruct Hrb as (Hcl & Hcr & Hl' & Hr').
      inversion Hp as [|? n0 k' Hn0 Hk'|? n0 k' Hn0 Hk']; subst;
        rewrite Hx in Hn0; injection Hn0 as <-; cbn in Hk'.
      * destruct (IHl _ _ _ Hl Hl' Hk') as [? Hu]. rewrite Hcl in Hu.
        cbn [blackness] in Hu. lia.
      * destruct (IHr _ _ _ Hr Hr' Hk') as [? Hu]. rewrite Hcr in Hu.
        cbn [blackness] in Hu. lia.
    + destruct n as [|m]; [done|]. destruct Hrb as [Hl' Hr'].
      inversion Hp as [|? n0 k' Hn0 Hk'|? n0 k' Hn0 Hk']; subst;
        rewrite Hx in Hn0; injection Hn0 as <-; cbn in Hk'.
      * destruct (IHl _ _ _ Hl Hl' Hk') as [? Hu].
        destruct (color_of l); cbn [blackness] in Hu; lia.
      * destruct (IHr _ _ _ Hr Hr' Hk') as [? Hu].
        destruct (color_of r); cbn [blackness] in Hu; lia.
Qed.

(** X22: the balance promised in the header of the source file.  In a tree
    with a red-black shape, in particular after any sequence of mutations,
    the longest way from the root down to a null link passes at most twice
    as many nodes as the shortest. *)
Theorem farthest_leaf_at_most_twice_nearest s live k1 k2 :
  colored s live →
  null_path s (_root s) k1 → null_path s (_root s) k2 → (k1 ≤ 2 * k2)%nat.
Proof.
  intros (t & ((Hroot & Hrep & _) & (Hc & n & Hrb) & _)) H1 H2.
  rewrite Hroot in H1, H2.
  destruct (null_path_rb s t None n k1 Hrep Hrb H1) as [_ Hu].
  destruct (null_path_rb s t None n k2 Hrep Hrb H2) as [Hl _].
  rewrite Hc in Hu. cbn [blackness] in Hu. lia.
Qed.

Variable compare : K → K → Z.

(** X23: searching is logarithmic.  On a tree with a red-black shape and
    [n] members, [find] is done after at most [2 * log2 (n + 1) + 1] passes
    through its loop, the last of which meets the null link or the key. *)
Theorem find_takes_logarithmic_steps s live key fuel :
  colored s live → (2 * Nat.log2 (size live + 1) < fuel)%nat →
  ∃ p, RBTree.find compare fuel key s = Ret p s.
Proof using Type.
  intros (t & Ht) Hf. pose proof Ht as (H & Hrb & _).
  rewrite (tree_of_size s live t Ht) in Hf.
  pose proof (rbtree_height_log t Hrb) as Hh.
  destruct (find_spec compare s t key fuel H ltac:(lia)) as (p & Hp & _). eauto.
Qed.

End Balance.

(** ** Keys along the tree *)

Section KeyOrder.
Context {K V : Type}.
Variable compare : K → K → Z.
Hypothesis Hcmp : StrictTotal compare.
Local Set Default Proof Using "Type*".
Implicit Types (s : RBTree K V) (live : gset ref) (t l r : tree) (x y z : ref).

(** The store determines the shape it holds. *)
Lemma rep_unique (h : gmap ref (RBTreeNode K V)) : ∀ t1 t2 par1 par2,
  rep h par1 t1 → rep h par2 t2 → root_of t1 = root_of t2 → t1 = t2.
Proof using Type.
  induction t1 as [|c l IHl x r IHr]; intros [|c' l' x' r'] par1 par2 H1 H2 Hr; try done.
  cbn [root_of] in Hr. injection Hr as <-.
  apply rep_T_inv in H1 as (k1 & v1 & Hx1 & Hl1 & Hr1).
  apply rep_T_inv in H2 as (k2 & v2 & Hx2 & Hl2 & Hr2).
  rewrite Hx1 in Hx2. injection Hx2 as _ Hl Hr Hc _ _.
  by rewrite Hc, (IHl l' _ _ Hl1 Hl2 Hl), (IHr r' _ _ Hr1 Hr2 Hr).
Qed.

Lemma holds_unique s t1 t2 : holds s t1 → holds s t2 → t1 = t2.
Proof using Type.
  intros (Hr1 & H1 & _) (Hr2 & H2 & _). eapply rep_unique; [done|done|congruence].
Qed.

Lemma sorted_around (R : ref → ref → Prop) (l1 : list ref) x (l2 : list ref) :
  StronglySorted R (l1 ++ x :: l2) →
  (∀ z, z ∈ l1 → R z x) ∧ (∀ z, z ∈ l2 → R x z).
Proof using Type.
  intros (H1 & _ & H2)%StronglySorted_app. apply StronglySorted_cons in H2 as [H2 _].
  split.
  - intros z Hz. apply (H1 z x Hz). by left.
  - intros z Hz. rewrite Forall_forall in H2. by apply H2.
Qed.

Lemma key_lt_of s x y kx ky :
  key_lt compare s x y → key_of s x = Some kx → key_of s y = Some ky → compare kx ky < 0.
Proof using Type. intros (? & ? & ? & ? & ?) ? ?. congruence. Qed.

(** X24: in a red-black search tree [min] returns the member with the least
    key and [max] the member with the greatest key; both return [null]
    exactly when the tree has no members. *)
Theorem min_max_hold_extreme_keys s live :
  wf compare s live →
  ∃ n, ∀ fuel, (n ≤ fuel)%nat →
    ∃ p q,
      RBTree.min fuel s = Ret p s ∧ RBTree.max fuel s = Ret q s ∧
      (p = None ↔ live = ∅) ∧ (q = None ↔ live = ∅) ∧
      (∀ x, p = Some x →
         x ∈ live ∧ ∃ kx, key_of s x = Some kx ∧
           ∀ z kz, z ∈ live → key_of s z = Some kz → compare kx kz ≤ 0) ∧
      (∀ y, q = Some y →
         y ∈ live ∧ ∃ ky, key_of s y = Some ky ∧
           ∀ z kz, z ∈ live → key_of s z = Some kz → compare kz ky ≤ 0).
Proof.
  intros (t & (H & Hrb & Hlive) & Hs). exists (height t). intros fuel Hf.
  exists (head (inorder t)), (last (inorder t)).
  split; [by apply min_spec|]. split; [by apply max_spec|].
  assert (Hemp : inorder t = [] ↔ live = ∅).
  { split.
    - intros Hnil. apply set_eq. intros z. rewrite Hlive, Hnil. set_solver.
    - intros ->. destruct (inorder t) as [|z ?] eqn:E; [done|].
      exfalso. apply (not_elem_of_empty (C := gset ref) z), Hlive. left. }
  split; [exact (iff_trans (head_None (inorder t)) Hemp)|].
  split; [exact (iff_trans (last_None (inorder t)) Hemp)|]. split.
  - intros x Hx. apply head_Some in Hx as [l2 Hin].
    assert (Hxin : x ∈ inorder t) by (rewrite Hin; left).
    split; [by apply Hlive|].
    destruct (holds_key s t x H Hxin) as [kx Hkx]. exists kx. split; [done|].
    intros z kz Hz Hkz. apply Hlive in Hz. rewrite Hin in Hz.
    apply elem_of_cons in Hz as [-> |Hz].
    + assert (kz = kx) as -> by congruence. rewrite (cmp_refl compare Hcmp). lia.
    + unfold bst in Hs. rewrite Hin in Hs.
      destruct (sorted_around _ [] x l2 Hs) as [_ Hafter].
      pose proof (key_lt_of s x z kx kz (Hafter z Hz) Hkx Hkz). lia.
  - intros y Hy. apply last_Some in Hy as (l1 & Hin).
    assert (Hyin : y ∈ inorder t) by (rewrite Hin; set_solver).
    split; [by apply Hlive|].
    destruct (holds_key s t y H Hyin) as [ky Hky]. exists ky. split; [done|].
    intros z kz Hz Hkz. apply Hlive in Hz. rewrite Hin in Hz.
    apply elem_of_app in Hz as [Hz| ->%list_elem_of_singleton].
    + unfold bst in Hs. rewrite Hin in Hs.
      destruct (sorted_around _ l1 y [] Hs) as [Hbefore _].
      pose proof (key_lt_of s z y kz ky (Hbefore z Hz) Hkz Hky). lia.
    + assert (kz = ky) as -> by congruence. rewrite (cmp_refl compare Hcmp). lia.
Qed.

(** X25: in a red-black search tree the [succ] getter of a member returns
    the member with the next greater key, and [null] when the member holds
    the greatest key; the [pred] getter returns the member with the next
    smaller key, and [null] at the least key. *)
Theorem succ_pred_hold_adjacent_keys s live x k :
  wf compare s live → x ∈ live → key_of s x = Some k →
  ∃ n, ∀ fuel, (n ≤ fuel)%nat →
    ∃ p q,
      RBTreeNode.succ fuel (Some x) s = Ret p s ∧
      RBTreeNode.pred fuel (Some x) s = Ret q s ∧
      match p with
      | Some y => y ∈ live ∧ ∃ ky, key_of s y = Some ky ∧ compare k ky < 0 ∧
          ∀ z kz, z ∈ live → key_of s z = Some kz → compare k kz < 0 → compare ky kz ≤ 0
      | None => ∀ z kz, z ∈ live → key_of s z = Some kz → compare kz k ≤ 0
      end ∧
      match q with
      | Some y => y ∈ live ∧ ∃ ky, key_of s y = Some ky ∧ compare ky k < 0 ∧
          ∀ z kz, z ∈ live → key_of s z = Some kz → compare kz k < 0 → compare kz ky ≤ 0
      | None => ∀ z kz, z ∈ live → key_of s z = Some kz → compare k kz ≤ 0
      end.
Proof.
  intros (t & (H & Hrb & Hlive) & Hs) Hx Hk. apply Hlive in Hx.
  apply list_elem_of_split in Hx as (l1 & l2 & Hin).
  exists (S (height t)). intros fuel Hf.
  exists (head l2), (last l1).
  split; [apply (succ_spec s t fuel l1 x l2 H Hin); lia|].
  split; [apply (pred_spec s t fuel l1 x l2 H Hin); lia|].
  unfold bst in Hs. rewrite Hin in Hs.
  destruct (sorted_around _ l1 x l2 Hs) as [Hbefore Hafter].
  pose proof (cmp_refl compare Hcmp k) as Hkk.
  assert (Hle_before : ∀ z kz, z ∈ l1 → key_of s z = Some kz → compare kz k < 0).
  { intros z kz Hz Hkz. by apply (key_lt_of s z x kz k (Hbefore z Hz)). }
  assert (Hle_after : ∀ z kz, z ∈ l2 → key_of s z = Some kz → compare k kz < 0).
  { intros z kz Hz Hkz. by apply (key_lt_of s x z k kz (Hafter z Hz)). }
  assert (Hcases : ∀ z, z ∈ live → z ∈ l1 ∨ z = x ∨ z ∈ l2).
  { intros z Hz. apply Hlive in Hz. rewrite Hin in Hz. set_solver. }
  assert (Hflip : ∀ a b, compare a b < 0 → ¬ compare b a < 0).
  { intros a b H1 H2. apply (cmp_flip compare Hcmp) in H1. lia. }
  split.
  - destruct l2 as [|y l2']; cbn [head].
    + intros z kz Hz Hkz. destruct (Hcases z Hz) as [Hz'|[-> |Hz']].
      * pose proof (Hle_before z kz Hz' Hkz). lia.
      * assert (kz = k) as -> by congruence. lia.
      * by apply elem_of_nil in Hz'.
    + assert (Hy : y ∈ inorder t) by (rewrite Hin; set_solver).
      split; [by apply Hlive|].
      destruct (holds_key s t y H Hy) as [ky Hky]. exists ky. split; [done|].
      split; [apply (Hle_after y ky); [left|done]|].
      intros z kz Hz Hkz Hlt. destruct (Hcases z Hz) as [Hz'|[-> |Hz']].
      * exfalso. by apply (Hflip _ _ Hlt), Hle_before with z.
      * assert (kz = k) as -> by congruence. lia.
      * apply elem_of_cons in Hz' as [-> |Hz'].
        -- assert (kz = ky) as -> by congruence. rewrite (cmp_refl compare Hcmp). lia.
        -- apply StronglySorted_app in Hs as (_ & _ & Hs).
           apply StronglySorted_cons in Hs as [_ Hs].
           destruct (sorted_around _ [] y l2' Hs) as [_ Hafter'].
           pose proof (key_lt_of s y z ky kz (Hafter' z Hz') Hky Hkz). lia.
  - destruct (last l1) as [y|] eqn:Hlast.
    + apply last_Some in Hlast as (l1' & ->).
      assert (Hy : y ∈ inorder t) by (rewrite Hin; set_solver).
      split; [by apply Hlive|].
      destruct (holds_key s t y H Hy) as [ky Hky]. exists ky. split; [done|].
      split; [apply (Hle_before y ky); [set_solver|done]|].
      intros z kz Hz Hkz Hlt. destruct (Hcases z Hz) as [Hz'|[-> |Hz']].
      * apply elem_of_app in Hz' as [Hz'| ->%list_elem_of_singleton].
        -- rewrite <- app_assoc in Hs. cbn [app] in Hs.
           destruct (sorted_around _ l1' y (x :: l2) Hs) as [Hbefore' _].
           pose proof (key_lt_of s z y kz ky (Hbefore' z Hz') Hkz Hky). lia.
        -- assert (kz = ky) as -> by congruence. rewrite (cmp_refl compare Hcmp). lia.
      * assert (kz = k) as -> by congruence. lia.
      * exfalso. by apply (Hflip _ _ Hlt), Hle_after with z.
    + apply last_None in Hlast as ->.
      intros z kz Hz Hkz. destruct (Hcases z Hz) as [Hz'|[-> |Hz']].
      * by apply elem_of_nil in Hz'.
      * assert (kz = k) as -> by congruence. lia.
      * pose proof (Hle_after z kz Hz' Hkz). lia.
Qed.

(** X26: [swap] moves nodes, not keys, so it does not keep the keys in
    order: after exchanging two different members of a red-black search
    tree the tree still has a red-black shape, but it is no longer a search
    tree. *)
Theorem swap_breaks_key_order s live a b :
  wf compare s live → a ∈ live → b ∈ live → a ≠ b →
  ∃ s', RBTree.swap (Some a) (Some b) s = Ret tt s' ∧
        colored s' live ∧ ¬ wf compare s' live.
Proof.
  intros (t & (H & Hrb & Hlive) & Hs) Ha Hb Hne.
  pose proof Ha as Ha'. pose proof Hb as Hb'. apply Hlive in Ha', Hb'.
  destruct (swap_spec s t a b H Ha' Hb') as ([] & s' & Hr & H' & Hkv).
  exists s'. split; [exact Hr|]. split.
  { eapply (rearranged_colored compare s s' live t); [done|exact H'|].
    apply swap_rearranged; [by eapply holds_NoDup|done|done]. }
  intros (t2 & (H2 & _) & Hs2).
  rewrite <- (holds_unique s' _ _ H' H2) in Hs2. clear H2 t2.
  unfold bst in Hs, Hs2. rewrite inorder_tmap in Hs2.
  destruct (holds_key s t a H Ha') as [ka Hka].
  destruct (holds_key s t b H Hb') as [kb Hkb].
  assert (Hka' : key_of s' a = Some ka) by (by destruct (Hkv a) as [-> _]).
  assert (Hkb' : key_of s' b = Some kb) by (by destruct (Hkv b) as [-> _]).
  assert (Hflip : ∀ k1 k2, compare k1 k2 < 0 → ¬ compare k2 k1 < 0).
  { intros k1 k2 H1 H2. apply (cmp_flip compare Hcmp) in H1. lia. }
  assert (Hgen : ∀ a b ka kb (l1 l2 : list ref),
            inorder t = l1 ++ a :: l2 → b ∈ l2 →
            key_of s a = Some ka → key_of s b = Some kb →
            key_of s' a = Some ka → key_of s' b = Some kb →
            StronglySorted (key_lt compare s') (map (transp a b) (inorder t)) → False).
  { clear dependent a. clear dependent b. clear ka kb.
    intros a b ka kb l1 l2 Hin Hbl Hka Hkb Hka' Hkb' Hs2.
    rewrite Hin in Hs, Hs2.
    destruct (sorted_around _ l1 a l2 Hs) as [_ Hafter].
    pose proof (key_lt_of s a b ka kb (Hafter b Hbl) Hka Hkb) as Hlt.
    rewrite map_app in Hs2. cbn [map] in Hs2. rewrite transp_l in Hs2.
    destruct (sorted_around _ _ b _ Hs2) as [_ Hafter'].
    assert (Hin' : a ∈ map (transp a b) l2).
    { rewrite <- (transp_r a b) at 1. apply list_elem_of_fmap. eauto. }
    pose proof (key_lt_of s' b a kb ka (Hafter' a Hin') Hkb' Hka') as Hlt'.
    by apply (Hflip _ _ Hlt). }
  pose proof Ha' as Hsplit. apply list_elem_of_split in Hsplit as (l1 & l2 & Hin).
  assert (Hb2 : b ∈ l1 ∨ b ∈ l2) by (rewrite Hin in Hb'; set_solver).
  destruct Hb2 as [Hb1|Hb2].
  - apply list_elem_of_split in Hb1 as (l0 & l1' & ->).
    rewrite <- app_assoc in Hin. cbn [app] in Hin.
    apply (Hgen b a kb ka l0 (l1' ++ a :: l2) Hin); [set_solver|done..|].
    rewrite (map_ext _ (transp a b)); [done|]. intros z. apply transp_sym.
  - by apply (Hgen a b ka kb l1 l2 Hin).
Qed.

End KeyOrder.

(** * The further properties on the concrete tree *)

Module SampleMore.
Import Sample.

Definition left_part : tree := T Black (T Red E 3%nat E) 1%nat (T Red E 4%nat E).
Definition right_part : tree := T Black (T Red E 5%nat E) 2%nat (T Red E 6%nat E).

(** The state after [insert(6, 60)]. *)
Definition with6 : RBTree Z Z :=
  match RBTree.insert compare 10 6 60 seven with
  | Ret _ s' => s'
  | _ => seven
  end.

Lemma insert6 : RBTree.insert compare 10 6 60 seven = Ret (Some 7%nat) with6.
Proof. by vm_compute. Qed.

(** The state after [reverse] called with a first node (holding 7) that
    comes after the last node (holding 4). *)
Definition crossed : RBTree Z Z :=
  match RBTree.reverse 10 (Some 5%nat) (Some 4%nat) seven with
  | Ret _ s' => s'
  | _ => seven
  end.

Lemma reverse_crossed : RBTree.reverse 10 (Some 5%nat) (Some 4%nat) seven = Ret tt crossed.
Proof. by vm_compute. Qed.

Lemma seven_wf : wf compare seven seven_live.
Proof. exact (built_wf compare compare_strict _ _ seven_built). Qed.

Lemma seven_colored : colored seven seven_live.
Proof. exact (reachable_colored compare _ _ _ seven_built). Qed.

Lemma seven_rbtree : is_rbtree seven_shape.
Proof. split; [reflexivity|]. exists 2%nat. cbn. repeat split. Qed.

Lemma six_not_stored : ¬ stored seven seven_live 6.
Proof.
  intros (x & Hx & Hk). apply elem_of_list_to_set, elem_of_seq in Hx.
  do 7 (destruct x as [|x]; [by vm_compute in Hk|]). lia.
Qed.

Lemma seven_inorder : inorder seven_shape = [3; 1; 4; 0; 5; 2; 6]%nat.
Proof. reflexivity. Qed.

End SampleMore.

Lemma rotateLeft_lifts_right_child_witness :
  holds Sample.seven (plug [] (T Black SampleMore.left_part 0%nat
                                 (T Black (T Red E 5%nat E) 2%nat (T Red E 6%nat E)))) ∧
  ∃ s', RBTree._rotateLeft (Some 0%nat) Sample.seven = Ret tt s' ∧
        holds s' (T Black (T Black SampleMore.left_part 0%nat (T Red E 5%nat E)) 2%nat
                    (T Red E 6%nat E)) ∧
        kv_same Sample.seven s'.
Proof.
  split; [exact Sample.seven_holds|].
  destruct (rotateLeft_lifts_right_child Sample.seven [] Black Black SampleMore.left_part
              0%nat (T Red E 5%nat E) 2%nat (T Red E 6%nat E) Sample.seven_holds)
    as (s' & Hr & H' & _ & Hkv).
  exists s'. exact (conj Hr (conj H' Hkv)).
Defined.

Lemma rotateRight_lifts_left_child_witness :
  holds Sample.seven (plug [] (T Black (T Black (T Red E 3%nat E) 1%nat (T Red E 4%nat E))
                                 0%nat SampleMore.right_part)) ∧
  ∃ s', RBTree._rotateRight (Some 0%nat) Sample.seven = Ret tt s' ∧
        holds s' (T Black (T Red E 3%nat E) 1%nat
                    (T Black (T Red E 4%nat E) 0%nat SampleMore.right_part)) ∧
        kv_same Sample.seven s'.
Proof.
  split; [exact Sample.seven_holds|].
  destruct (rotateRight_lifts_left_child Sample.seven [] Black Black (T Red E 3%nat E)
              1%nat (T Red E 4%nat E) 0%nat SampleMore.right_part Sample.seven_holds)
    as (s' & Hr & H' & _ & Hkv).
  exists s'. exact (conj Hr (conj H' Hkv)).
Defined.

Lemma rotateRight_undoes_rotateLeft_witness :
  holds Sample.seven Sample.seven_shape ∧
  ∃ s' s'', RBTree._rotateLeft (Some 0%nat) Sample.seven = Ret tt s' ∧
            RBTree._rotateRight (Some 2%nat) s' = Ret tt s'' ∧
            holds s'' Sample.seven_shape ∧ kv_same Sample.seven s''.
Proof.
  split; [exact Sample.seven_holds|].
  exact (rotateRight_undoes_rotateLeft Sample.seven [] Black Black SampleMore.left_part
           0%nat (T Red E 5%nat E) 2%nat (T Red E 6%nat E) Sample.seven_holds).
Defined.

Lemma rotation_without_pivot_throws_witness :
  holds Sample.seven
    (plug [Frame L Black 1%nat (T Red E 4%nat E); Frame L Black 0%nat SampleMore.right_part]
       (T Red E 3%nat E)) ∧
  RBTree._rotateLeft (Some 3%nat) Sample.seven = TypeError ∧
  RBTree._rotateRight (Some 3%nat) Sample.seven = TypeError.
Proof.
  split; [exact Sample.seven_holds|].
  destruct (rotation_without_pivot_throws Sample.seven
              [Frame L Black 1%nat (T Red E 4%nat E); Frame L Black 0%nat SampleMore.right_part]
              Red E 3%nat E Sample.seven_holds) as [Hl Hr].
  exact (conj (Hl eq_refl) (Hr eq_refl)).
Defined.

Lemma succ_pred_are_neighbours_witness :
  (holds Sample.seven Sample.seven_shape ∧
   inorder Sample.seven_shape = [3; 1; 4]%nat ++ 0%nat :: [5; 2; 6]%nat) ∧
  ∃ n, ∀ fuel, (n ≤ fuel)%nat →
    RBTreeNode.succ fuel (Some 0%nat) Sample.seven = Ret (Some 5%nat) Sample.seven ∧
    RBTreeNode.pred fuel (Some 0%nat) Sample.seven = Ret (Some 4%nat) Sample.seven.
Proof.
  split; [exact (conj Sample.seven_holds eq_refl)|].
  exact (succ_pred_are_neighbours Sample.seven Sample.seven_shape [3; 1; 4]%nat 0%nat
           [5; 2; 6]%nat Sample.seven_holds eq_refl).
Defined.

Lemma succ_pred_inverse_witness :
  (holds Sample.seven Sample.seven_shape ∧ 4%nat ∈ inorder Sample.seven_shape) ∧
  ∃ n, ∀ fuel, (n ≤ fuel)%nat →
    ∃ p q,
      RBTreeNode.succ fuel (Some 4%nat) Sample.seven = Ret p Sample.seven ∧
      RBTreeNode.pred fuel (Some 4%nat) Sample.seven = Ret q Sample.seven ∧
      (∀ y, p = Some y → RBTreeNode.pred fuel (Some y) Sample.seven = Ret (Some 4%nat) Sample.seven) ∧
      (∀ y, q = Some y → RBTreeNode.succ fuel (Some y) Sample.seven = Ret (Some 4%nat) Sample.seven).
Proof.
  assert (H1 : 4%nat ∈ inorder Sample.seven_shape)
    by (apply (bool_decide_unpack _); by vm_compute).
  split; [exact (conj Sample.seven_holds H1)|].
  exact (succ_pred_inverse Sample.seven Sample.seven_shape 4%nat Sample.seven_holds H1).
Defined.

Lemma min_max_are_the_ends_witness :
  holds Sample.seven Sample.seven_shape ∧
  ∃ n, ∀ fuel, (n ≤ fuel)%nat →
    RBTree.min fuel Sample.seven = Ret (Some 3%nat) Sample.seven ∧
    RBTree.max fuel Sample.seven = Ret (Some 6%nat) Sample.seven.
Proof.
  split; [exact Sample.seven_holds|].
  destruct (min_max_are_the_ends Sample.seven Sample.seven_shape Sample.seven_holds)
    as (n & Hn).
  exists n. intros fuel Hf. destruct (Hn fuel Hf) as (Hmin & Hmax & _).
  exact (conj Hmin Hmax).
Defined.

Lemma searches_agree_on_stored_key_witness :
  (wf Sample.compare Sample.seven Sample.seven_live ∧
   4%nat ∈ Sample.seven_live ∧ key_of Sample.seven 4%nat = Some 4) ∧
  ∃ n, ∀ fuel, (n ≤ fuel)%nat →
    RBTree.find Sample.compare fuel 4 Sample.seven = Ret (Some 4%nat) Sample.seven ∧
    RBTree.lower Sample.compare fuel 4 Sample.seven = Ret (Some 4%nat) Sample.seven ∧
    RBTree.upper Sample.compare fuel 4 Sample.seven = Ret (Some 4%nat) Sample.seven.
Proof.
  assert (H1 : (4%nat : ref) ∈ Sample.seven_live) by (apply Sample.seven_member; lia).
  assert (H2 : key_of Sample.seven 4%nat = Some 4) by reflexivity.
  split; [exact (conj SampleMore.seven_wf (conj H1 H2))|].
  exact (searches_agree_on_stored_key Sample.compare Sample.compare_strict Sample.seven
           Sample.seven_live 4%nat 4 SampleMore.seven_wf H1 H2).
Defined.

Lemma insert_new_key_witness :
  (wf Sample.compare Sample.seven Sample.seven_live ∧
   ¬ stored Sample.seven Sample.seven_live 6) ∧
  ∃ n, ∀ fuel, (n ≤ fuel)%nat →
    ∃ y s',
      RBTree.insert Sample.compare fuel 6 60 Sample.seven = Ret (Some y) s' ∧
      y ∉ Sample.seven_live ∧
      key_of s' y = Some 6 ∧ value_of s' y = Some 60 ∧
      wf Sample.compare s' ({[y]} ∪ Sample.seven_live).
Proof.
  split; [exact (conj SampleMore.seven_wf SampleMore.six_not_stored)|].
  destruct (insert_new_key Sample.compare Sample.compare_strict Sample.seven
              Sample.seven_live 6 60 SampleMore.seven_wf SampleMore.six_not_stored)
    as (n & Hn).
  exists n. intros fuel Hf.
  destruct (Hn fuel Hf) as (y & s' & Hr & Hy & Hk & Hv & _ & _ & Hwf).
  exists y, s'. exact (conj Hr (conj Hy (conj Hk (conj Hv Hwf)))).
Defined.

Lemma find_after_insert_witness :
  (wf Sample.compare Sample.seven Sample.seven_live ∧
   RBTree.insert Sample.compare 10 6 60 Sample.seven = Ret (Some 7%nat) SampleMore.with6) ∧
  ∃ y, Some 7%nat = Some y ∧
    key_of SampleMore.with6 y = Some 6 ∧ value_of SampleMore.with6 y = Some 60 ∧
    ∃ n, ∀ fuel', (n ≤ fuel')%nat →
      RBTree.find Sample.compare fuel' 6 SampleMore.with6 = Ret (Some y) SampleMore.with6.
Proof.
  split; [exact (conj SampleMore.seven_wf SampleMore.insert6)|].
  exact (find_after_insert Sample.compare Sample.compare_strict Sample.seven Sample.seven_live
           6 60 10%nat (Some 7%nat) SampleMore.with6 SampleMore.seven_wf SampleMore.insert6).
Defined.

Lemma find_after_remove_witness :
  (wf Sample.compare Sample.seven Sample.seven_live ∧
   1%nat ∈ Sample.seven_live ∧ key_of Sample.seven 1%nat = Some 3) ∧
  ∃ n, ∀ fuel, (n ≤ fuel)%nat →
    ∃ s', RBTree.remove fuel (Some 1%nat) Sample.seven = Ret tt s' ∧
          kv_same Sample.seven s' ∧
          wf Sample.compare s' (Sample.seven_live ∖ {[1%nat]}) ∧
          ∃ n', ∀ fuel', (n' ≤ fuel')%nat →
            RBTree.find Sample.compare fuel' 3 s' = Ret None s'.
Proof.
  assert (H1 : (1%nat : ref) ∈ Sample.seven_live) by (apply Sample.seven_member; lia).
  assert (H2 : key_of Sample.seven 1%nat = Some 3) by reflexivity.
  split; [exact (conj SampleMore.seven_wf (conj H1 H2))|].
  destruct (find_after_remove Sample.compare Sample.compare_strict Sample.seven
              Sample.seven_live 1%nat 3 SampleMore.seven_wf H1 H2) as (n & Hn).
  exists n. intros fuel Hf. destruct (Hn fuel Hf) as (s' & Hr & Hkv & Hwf & n' & Hn').
  exists s'. split; [exact Hr|]. split; [exact Hkv|]. split; [exact Hwf|].
  exists n'. intros fuel' Hf'. exact (proj1 (Hn' fuel' Hf')).
Defined.

Lemma remove_takes_out_one_node_witness :
  (holds Sample.seven Sample.seven_shape ∧ is_rbtree Sample.seven_shape ∧
   inorder Sample.seven_shape = [3; 1; 4]%nat ++ 0%nat :: [5; 2; 6]%nat) ∧
  ∃ n, ∀ fuel, (n ≤ fuel)%nat →
    ∃ s' t', RBTree.remove fuel (Some 0%nat) Sample.seven = Ret tt s' ∧
             holds s' t' ∧ is_rbtree t' ∧
             inorder t' = [3; 1; 4]%nat ++ [5; 2; 6]%nat ∧ kv_same Sample.seven s'.
Proof.
  split; [exact (conj Sample.seven_holds (conj SampleMore.seven_rbtree eq_refl))|].
  exact (remove_takes_out_one_node Sample.seven Sample.seven_shape [3; 1; 4]%nat 0%nat
           [5; 2; 6]%nat Sample.seven_holds SampleMore.seven_rbtree eq_refl).
Defined.

Lemma remove_undoes_insert_witness :
  (wf Sample.compare Sample.seven Sample.seven_live ∧
   ¬ stored Sample.seven Sample.seven_live 6) ∧
  ∃ (ks : list Z) n, ∀ fuel, (n ≤ fuel)%nat →
    ∃ y s' s'',
      RBTree.insert Sample.compare fuel 6 60 Sample.seven = Ret (Some y) s' ∧
      RBTree.remove fuel (Some y) s' = Ret tt s'' ∧
      keys_ascending fuel Sample.seven = Ret ks Sample.seven ∧
      keys_ascending fuel s'' = Ret ks s'' ∧
      wf Sample.compare s'' Sample.seven_live.
Proof.
  split; [exact (conj SampleMore.seven_wf SampleMore.six_not_stored)|].
  destruct (remove_undoes_insert Sample.compare Sample.compare_strict Sample.seven
              Sample.seven_live 6 60 SampleMore.seven_wf SampleMore.six_not_stored)
    as (ks & n & Hn).
  exists ks, n. intros fuel Hf.
  destruct (Hn fuel Hf) as (y & s' & s'' & Hi & Hr & Hk & Hk' & _ & Hwf).
  exists y, s', s''. exact (conj Hi (conj Hr (conj Hk (conj Hk' Hwf)))).
Defined.

Lemma validate_checks_exactly_witness :
  (holds Invalid.red_pair Invalid.red_pair_shape ∧
   (height Invalid.red_pair_shape ≤ 4)%nat) ∧
  (RBTree.validate 4 Invalid.red_pair = Ret tt Invalid.red_pair ↔
   color_of Invalid.red_pair_shape = Black ∧ checks_pass Invalid.red_pair_shape = true).
Proof.
  assert (H1 : (height Invalid.red_pair_shape ≤ 4)%nat) by (vm_compute; lia).
  split; [exact (conj Invalid.holds_red_pair H1)|].
  exact (proj1 (validate_checks_exactly Invalid.red_pair Invalid.red_pair_shape 4%nat
                  Invalid.holds_red_pair H1)).
Defined.

Lemma validate_succeeds_after_mutations_witness :
  reachable Sample.compare any_mutation Sample.exchanged38 Sample.seven_live ∧
  ∃ n, ∀ fuel, (n ≤ fuel)%nat →
    RBTree.validate fuel Sample.exchanged38 = Ret tt Sample.exchanged38.
Proof.
  split; [exact Sample.exchanged38_reachable|].
  exact (validate_succeeds_after_mutations Sample.compare Sample.exchanged38
           Sample.seven_live Sample.exchanged38_reachable).
Defined.

Lemma swap_twice_restores_witness :
  (holds Sample.seven Sample.seven_shape ∧
   3%nat ∈ inorder Sample.seven_shape ∧ 2%nat ∈ inorder Sample.seven_shape) ∧
  ∃ s', RBTree.swap (Some 3%nat) (Some 2%nat) Sample.seven = Ret tt s' ∧
    (∃ s'', RBTree.swap (Some 3%nat) (Some 2%nat) s' = Ret tt s'' ∧
            holds s'' Sample.seven_shape ∧ kv_same Sample.seven s'') ∧
    (∃ s'', RBTree.swap (Some 2%nat) (Some 3%nat) s' = Ret tt s'' ∧
            holds s'' Sample.seven_shape ∧ kv_same Sample.seven s'').
Proof.
  assert (H1 : 3%nat ∈ inorder Sample.seven_shape)
    by (apply (bool_decide_unpack _); by vm_compute).
  assert (H2 : 2%nat ∈ inorder Sample.seven_shape)
    by (apply (bool_decide_unpack _); by vm_compute).
  split; [exact (conj Sample.seven_holds (conj H1 H2))|].
  exact (swap_twice_restores Sample.seven Sample.seven_shape 3%nat 2%nat
           Sample.seven_holds H1 H2).
Defined.

Lemma reverse_twice_restores_witness :
  (holds Sample.seven Sample.seven_shape ∧
   inorder Sample.seven_shape = [3]%nat ++ [1; 4; 0; 5; 2]%nat ++ [6]%nat ∧
   head [1; 4; 0; 5; 2]%nat = Some 1%nat ∧ last [1; 4; 0; 5; 2]%nat = Some 2%nat) ∧
  ∃ n, ∀ fuel, (n ≤ fuel)%nat →
    ∃ s' s'' t'',
      RBTree.reverse fuel (Some 1%nat) (Some 2%nat) Sample.seven = Ret tt s' ∧
      RBTree.reverse fuel (Some 2%nat) (Some 1%nat) s' = Ret tt s'' ∧
      holds s'' t'' ∧ inorder t'' = inorder Sample.seven_shape ∧ kv_same Sample.seven s''.
Proof.
  split; [exact (conj Sample.seven_holds (conj eq_refl (conj eq_refl eq_refl)))|].
  exact (reverse_twice_restores Sample.seven Sample.seven_shape [3]%nat [1; 4; 0; 5; 2]%nat
           [6]%nat 1%nat 2%nat Sample.seven_holds eq_refl eq_refl eq_refl).
Defined.

Lemma reverse_keeps_the_tree_well_formed_witness :
  (holds Sample.seven Sample.seven_shape ∧
   member_or_null Sample.seven_shape (Some 5%nat) ∧
   member_or_null Sample.seven_shape (Some 4%nat) ∧
   RBTree.reverse 10 (Some 5%nat) (Some 4%nat) Sample.seven = Ret tt SampleMore.crossed) ∧
  ∃ t', holds SampleMore.crossed t' ∧ rearranged Sample.seven_shape t' ∧
        height t' = height Sample.seven_shape ∧
        (is_rbtree Sample.seven_shape → is_rbtree t') ∧
        kv_same Sample.seven SampleMore.crossed.
Proof.
  assert (H1 : member_or_null Sample.seven_shape (Some 5%nat))
    by (cbn [member_or_null]; apply (bool_decide_unpack _); by vm_compute).
  assert (H2 : member_or_null Sample.seven_shape (Some 4%nat))
    by (cbn [member_or_null]; apply (bool_decide_unpack _); by vm_compute).
  split; [exact (conj Sample.seven_holds (conj H1 (conj H2 SampleMore.reverse_crossed)))|].
  exact (reverse_keeps_the_tree_well_formed 10%nat Sample.seven Sample.seven_shape
           (Some 5%nat) (Some 4%nat) tt SampleMore.crossed
           Sample.seven_holds H1 H2 SampleMore.reverse_crossed).
Defined.

Lemma farthest_leaf_at_most_twice_nearest_witness :
  (colored Sample.seven Sample.seven_live ∧
   null_path Sample.seven (_root Sample.seven) 3 ∧
   null_path Sample.seven (_root Sample.seven) 3) ∧
  (3 ≤ 2 * 3)%nat.
Proof.
  assert (H1 : null_path Sample.seven (_root Sample.seven) 3).
  { eapply null_path_left; [reflexivity|].
    eapply null_path_left; [reflexivity|].
    eapply null_path_right; [reflexivity|]. apply null_path_null. }
  split; [exact (conj SampleMore.seven_colored (conj H1 H1))|].
  exact (farthest_leaf_at_most_twice_nearest Sample.seven Sample.seven_live 3%nat 3%nat
           SampleMore.seven_colored H1 H1).
Defined.

Lemma find_takes_logarithmic_steps_witness :
  (colored Sample.seven Sample.seven_live ∧
   (2 * Nat.log2 (size Sample.seven_live + 1) < 7)%nat) ∧
  ∃ p, RBTree.find Sample.compare 7 9 Sample.seven = Ret p Sample.seven.
Proof.
  assert (H1 : (2 * Nat.log2 (size Sample.seven_live + 1) < 7)%nat) by (vm_compute; lia).
  split; [exact (conj SampleMore.seven_colored H1)|].
  exact (find_takes_logarithmic_steps Sample.compare Sample.seven Sample.seven_live 9 7%nat
           SampleMore.seven_colored H1).
Defined.

Lemma min_max_hold_extreme_keys_witness :
  wf Sample.compare Sample.seven Sample.seven_live ∧
  ∃ n, ∀ fuel, (n ≤ fuel)%nat →
    ∃ p q,
      RBTree.min fuel Sample.seven = Ret p Sample.seven ∧
      RBTree.max fuel Sample.seven = Ret q Sample.seven ∧
      (p = None ↔ Sample.seven_live = ∅) ∧ (q = None ↔ Sample.seven_live = ∅).
Proof.
  split; [exact SampleMore.seven_wf|].
  destruct (min_max_hold_extreme_keys Sample.compare Sample.compare_strict Sample.seven
              Sample.seven_live SampleMore.seven_wf) as (n & Hn).
  exists n. intros fuel Hf. destruct (Hn fuel Hf) as (p & q & Hp & Hq & Hpe & Hqe & _).
  exists p, q. exact (conj Hp (conj Hq (conj Hpe Hqe))).
Defined.

Lemma succ_pred_hold_adjacent_keys_witness :
  (wf Sample.compare Sample.seven Sample.seven_live ∧
   4%nat ∈ Sample.seven_live ∧ key_of Sample.seven 4%nat = Some 4) ∧
  ∃ n, ∀ fuel, (n ≤ fuel)%nat →
    ∃ p q,
      RBTreeNode.succ fuel (Some 4%nat) Sample.seven = Ret p Sample.seven ∧
      RBTreeNode.pred fuel (Some 4%nat) Sample.seven = Ret q Sample.seven.
Proof.
  assert (H1 : (4%nat : ref) ∈ Sample.seven_live) by (apply Sample.seven_member; lia).
  assert (H2 : key_of Sample.seven 4%nat = Some 4) by reflexivity.
  split; [exact (conj SampleMore.seven_wf (conj H1 H2))|].
  destruct (succ_pred_hold_adjacent_keys Sample.compare Sample.compare_strict Sample.seven
              Sample.seven_live 4%nat 4 SampleMore.seven_wf H1 H2) as (n & Hn).
  exists n. intros fuel Hf. destruct (Hn fuel Hf) as (p & q & Hp & Hq & _).
  exists p, q. exact (conj Hp Hq).
Defined.

Lemma swap_breaks_key_order_witness :
  (wf Sample.compare Sample.seven Sample.seven_live ∧
   3%nat ∈ Sample.seven_live ∧ 2%nat ∈ Sample.seven_live ∧ 3%nat ≠ 2%nat) ∧
  ∃ s', RBTree.swap (Some 3%nat) (Some 2%nat) Sample.seven = Ret tt s' ∧
        colored s' Sample.seven_live ∧ ¬ wf Sample.compare s' Sample.seven_live.
Proof.
  assert (H1 : (3%nat : ref) ∈ Sample.seven_live) by (apply Sample.seven_member; lia).
  assert (H2 : (2%nat : ref) ∈ Sample.seven_live) by (apply Sample.seven_member; lia).
  assert (H3 : 3%nat ≠ 2%nat) by lia.
  split; [exact (conj SampleMore.seven_wf (conj H1 (conj H2 H3)))|].
  exact (swap_breaks_key_order Sample.compare Sample.compare_strict Sample.seven
           Sample.seven_live 3%nat 2%nat SampleMore.seven_wf H1 H2 H3).
Defined.
